(** * Brick structure resolver (script.js): embedding and verification

    The development embeds the brick catalog ([BRICK_DEFINITIONS]), the
    colour table ([COLOR_MAP], [getBrickColorHex]) and the breadth-first
    placement loop of [buildStructure] from [src/script.js], and proves the
    properties of the structure resolver: the transform given to each
    brick, the handling of a missing base, of cycles and of dangling
    references, and termination.  It also embeds the handlers around it
    ([clearStructure], [cycleStructure], [updateStructureInfo]) and proves
    further properties of the resolver, the catalog and the page.

    Modelling conventions.
    - JavaScript numbers that carry geometry (offsets, positions, quaternion
      components, angles) are real numbers: arithmetic is exact, rounding of
      IEEE doubles is not modelled.  What is proved of positions and
      rotations holds of the script up to that rounding.  Socket ids are
      JSON integers ([Z]).
    - The input is typed: a brick record has the fields [id], [type],
      [colour], [holes]; a hole has [id], [brick], [connectedToHole],
      [orientation].  Brick ids are JSON strings or whole numbers, the
      latter in the range where [String] prints all their digits (below
      2^53 in magnitude); a type is a string; a colour is any JSON value.
    - A plain object literal used as a dictionary ([bricksById],
      [threeMeshes], [processedBrickIds], [COLOR_MAP], [BRICK_DEFINITIONS])
      is a finite map of its own properties together with the members every
      object literal inherits from [Object.prototype]; a property read
      consults both, as in JavaScript.
    - three.js is an external library: vectors, quaternions and meshes are
      modelled by the formulas of three.js r160 (the version index.html
      loads) for the operations the resolver calls.  The world quaternion
      of a mesh is read back from its world matrix, as three.js does, and
      can be the opposite of the quaternion the mesh was given; statements
      about rotations compare the rotations, not the quaternions.
    - The console and the renderer are left out; what [buildStructure]
      adds to the scene is kept in the state.  Of the document only the
      caption element written by [updateStructureInfo] is modelled; the
      scene set-up and the loading of structures.json in [init] are not. *)

From Stdlib Require Import Reals Lra ZArith Ascii.
From stdpp Require Import gmap strings list pretty.

(** ** JavaScript objects used as dictionaries *)

Module JS.

(** The own property names of [Object.prototype]; all of them hold a
    function, except [__proto__], an accessor whose getter returns the
    prototype of the receiver. *)
Definition Object_prototype : list string :=
  [ "constructor"; "__defineGetter__"; "__defineSetter__"; "hasOwnProperty";
    "__lookupGetter__"; "__lookupSetter__"; "isPrototypeOf";
    "propertyIsEnumerable"; "toString"; "valueOf"; "__proto__";
    "toLocaleString" ].

Definition inherited (k : string) : bool := bool_decide (k ∈ Object_prototype).

(** The result of a property read [o[k]] on a dictionary whose own
    properties hold values of type [V]. *)
Inductive Lookup (V : Type) : Type :=
| Own (v : V)                (* an own property of the object *)
| Inherited (k : string)     (* the member [k] of Object.prototype *)
| Undefined.
Arguments Own {V} v.
Arguments Inherited {V} k.
Arguments Undefined {V}.

Definition get {V : Type} (o : gmap string V) (k : string) : Lookup V :=
  match o !! k with
  | Some v => Own v
  | None => if inherited k then Inherited k else Undefined
  end.

(** Truthiness of the result of a read, given that of the own values;
    the members of [Object.prototype] are functions and objects. *)
Definition truthy {V : Type} (tv : V -> bool) (l : Lookup V) : bool :=
  match l with
  | Own v => tv v
  | Inherited _ => true
  | Undefined => false
  end.

(** [a || b] *)
Definition or {V : Type} (tv : V -> bool) (a b : Lookup V) : Lookup V :=
  if truthy tv a then a else b.

(** Truthiness of a number and of an object. *)
Definition number (n : Z) : bool := negb (n =? 0)%Z.
Definition object {V : Type} (_ : V) : bool := true.

(** A JSON scalar used as an identifier: a number or a string. *)
Inductive Id : Type :=
| IdNum (n : Z)
| IdStr (s : string).

(** [String(v)]; a whole number prints in decimal (for a number of
    magnitude below 2^53, the range in which JSON numbers are exact). *)
Definition ToString (v : Id) : string :=
  match v with
  | IdNum n => pretty n
  | IdStr s => s
  end.

(** The property key of a value that is a string or [undefined]. *)
Definition key (v : option string) : string := default "undefined" v.

(** A JSON value read where the script expects text: [null] or no value
    at all ([undefined]), a string, or a value of another type (a number,
    a boolean, an array, an object), of which the truthiness is kept. *)
Inductive Text : Type :=
| Nullish
| Str (s : string)
| NoText (truthy : bool).

(** [String.prototype.toLowerCase], on text in UTF-8.  A capital letter
    of ASCII becomes the small one.  One character outside ASCII has its
    lower case inside: the Kelvin sign U+212A, of bytes 226 132 170, which
    becomes k.  Every other character outside ASCII is left as it is: its
    lower case has a character outside ASCII as well, and the script only
    looks the result up among the names of [COLOR_MAP] and
    [Object.prototype], which are ASCII, so that the lookup finds the same
    entry. *)
Definition lower (c : ascii) : ascii :=
  let n := N_of_ascii c in
  if ((65 <=? n) && (n <=? 90))%N then ascii_of_N (n + 32) else c.

Definition KELVIN_SIGN : string := String "226" (String "132" (String "170" EmptyString)).

Definition kelvin_sign (c1 c2 c3 : ascii) : bool :=
  ((N_of_ascii c1 =? 226) && (N_of_ascii c2 =? 132) && (N_of_ascii c3 =? 170))%N.

Fixpoint toLowerCase (s : string) : string :=
  match s with
  | EmptyString => EmptyString
  | String c s' =>
      match s' with
      | String c2 (String c3 s'') =>
          if kelvin_sign c c2 c3 then String "k" (toLowerCase s'')
          else String (lower c) (toLowerCase s')
      | _ => String (lower c) (toLowerCase s')
      end
  end.

End JS.

(** ** three.js: vectors, quaternions, meshes *)

Module THREE.
Local Open Scope R_scope.

Record Vector3 : Type := { x : R; y : R; z : R }.

Record Quaternion : Type := { qx : R; qy : R; qz : R; qw : R }.

(** [new THREE.Quaternion()] *)
Definition identity : Quaternion := {| qx := 0; qy := 0; qz := 0; qw := 1 |}.

Definition origin : Vector3 := {| x := 0; y := 0; z := 0 |}.

(** [THREE.MathUtils.degToRad] *)
Definition DEG2RAD : R := PI / 180.
Definition degToRad (degrees : R) : R := degrees * DEG2RAD.

(** [Quaternion.setFromAxisAngle(axis, angle)] *)
Definition setFromAxisAngle (axis : Vector3) (angle : R) : Quaternion :=
  let halfAngle := angle / 2 in
  let s := sin halfAngle in
  {| qx := x axis * s; qy := y axis * s; qz := z axis * s; qw := cos halfAngle |}.

(** [a.multiply(b)], that is [multiplyQuaternions(a, b)] *)
Definition multiply (a b : Quaternion) : Quaternion :=
  {| qx := qx a * qw b + qw a * qx b + qy a * qz b - qz a * qy b;
     qy := qy a * qw b + qw a * qy b + qz a * qx b - qx a * qz b;
     qz := qz a * qw b + qw a * qz b + qx a * qy b - qy a * qx b;
     qw := qw a * qw b - qx a * qx b - qy a * qy b - qz a * qz b |}.

(** [v.applyQuaternion(q)] *)
Definition applyQuaternion (v : Vector3) (q : Quaternion) : Vector3 :=
  let tx := 2 * (qy q * z v - qz q * y v) in
  let ty := 2 * (qz q * x v - qx q * z v) in
  let tz := 2 * (qx q * y v - qy q * x v) in
  {| x := x v + qw q * tx + qy q * tz - qz q * ty;
     y := y v + qw q * ty + qz q * tx - qx q * tz;
     z := z v + qw q * tz + qx q * ty - qy q * tx |}.

(** [a.add(b)] and [a.sub(b)] *)
Definition add (a b : Vector3) : Vector3 :=
  {| x := x a + x b; y := y a + y b; z := z a + z b |}.

Definition sub (a b : Vector3) : Vector3 :=
  {| x := x a - x b; y := y a - y b; z := z a - z b |}.

(** A mesh: the box geometry it was created with, the colour handed to
    its material, and its transform.  [scale] is never touched by the
    script and stays (1,1,1). *)
Record Mesh : Type := {
  geometry : Vector3;
  color : JS.Lookup Z;
  position : Vector3;
  quaternion : Quaternion
}.

(** A 4x4 matrix; [te0] .. [te15] are its [elements], in column order. *)
Record Matrix4 : Type := {
  te0 : R; te1 : R; te2 : R; te3 : R;
  te4 : R; te5 : R; te6 : R; te7 : R;
  te8 : R; te9 : R; te10 : R; te11 : R;
  te12 : R; te13 : R; te14 : R; te15 : R
}.

(** [Matrix4.compose(position, quaternion, scale)] *)
Definition compose (position : Vector3) (quaternion : Quaternion) (scale : Vector3)
    : Matrix4 :=
  let x2 := qx quaternion + qx quaternion in
  let y2 := qy quaternion + qy quaternion in
  let z2 := qz quaternion + qz quaternion in
  let xx := qx quaternion * x2 in
  let xy := qx quaternion * y2 in
  let xz := qx quaternion * z2 in
  let yy := qy quaternion * y2 in
  let yz := qy quaternion * z2 in
  let zz := qz quaternion * z2 in
  let wx := qw quaternion * x2 in
  let wy := qw quaternion * y2 in
  let wz := qw quaternion * z2 in
  let sx := x scale in
  let sy := y scale in
  let sz := z scale in
  {| te0 := (1 - (yy + zz)) * sx; te1 := (xy + wz) * sx; te2 := (xz - wy) * sx; te3 := 0;
     te4 := (xy - wz) * sy; te5 := (1 - (xx + zz)) * sy; te6 := (yz + wx) * sy; te7 := 0;
     te8 := (xz + wy) * sz; te9 := (yz - wx) * sz; te10 := (1 - (xx + yy)) * sz; te11 := 0;
     te12 := x position; te13 := y position; te14 := z position; te15 := 1 |}.

(** [v.applyMatrix4(m)] *)
Definition applyMatrix4 (v : Vector3) (m : Matrix4) : Vector3 :=
  let w := 1 / (te3 m * x v + te7 m * y v + te11 m * z v + te15 m) in
  {| x := (te0 m * x v + te4 m * y v + te8 m * z v + te12 m) * w;
     y := (te1 m * x v + te5 m * y v + te9 m * z v + te13 m) * w;
     z := (te2 m * x v + te6 m * y v + te10 m * z v + te14 m) * w |}.

(** [mesh.matrixWorld] after [updateWorldMatrix].  Every mesh is a child
    of the scene or of [structureGroup], whose transforms are never
    changed, so the world matrix of a mesh is its local matrix, composed
    from its own position, quaternion and scale (1,1,1). *)
Definition matrixWorld (m : Mesh) : Matrix4 :=
  compose (position m) (quaternion m) {| x := 1; y := 1; z := 1 |}.

(** [mesh.localToWorld(v)] *)
Definition localToWorld (m : Mesh) (v : Vector3) : Vector3 :=
  applyMatrix4 v (matrixWorld m).

(** The comparisons [a < b] and [a > b] of two numbers, as conditions. *)
Definition less (a b : R) : bool := if Rlt_dec a b then true else false.
Definition greater (a b : R) : bool := less b a.

(** [v.length()] *)
Definition vector_length (v : Vector3) : R :=
  sqrt (x v * x v + y v * y v + z v * z v).

(** [Matrix4.determinant()] *)
Definition determinant (m : Matrix4) : R :=
  let n11 := te0 m in let n12 := te4 m in let n13 := te8 m in let n14 := te12 m in
  let n21 := te1 m in let n22 := te5 m in let n23 := te9 m in let n24 := te13 m in
  let n31 := te2 m in let n32 := te6 m in let n33 := te10 m in let n34 := te14 m in
  let n41 := te3 m in let n42 := te7 m in let n43 := te11 m in let n44 := te15 m in
  n41 * (n14 * n23 * n32 - n13 * n24 * n32 - n14 * n22 * n33
         + n12 * n24 * n33 + n13 * n22 * n34 - n12 * n23 * n34)
  + n42 * (n11 * n23 * n34 - n11 * n24 * n33 + n14 * n21 * n33
           - n13 * n21 * n34 + n13 * n24 * n31 - n14 * n23 * n31)
  + n43 * (n11 * n24 * n32 - n11 * n22 * n34 - n14 * n21 * n32
           + n12 * n21 * n34 + n14 * n22 * n31 - n12 * n24 * n31)
  + n44 * (- n13 * n22 * n31 - n11 * n23 * n32 + n11 * n22 * n33
           + n13 * n21 * n32 - n12 * n21 * n33 + n12 * n23 * n31).

(** [Quaternion.setFromRotationMatrix(m)]; the upper 3x3 of [m] is taken
    to be a pure rotation. *)
Definition setFromRotationMatrix (m : Matrix4) : Quaternion :=
  let m11 := te0 m in let m12 := te4 m in let m13 := te8 m in
  let m21 := te1 m in let m22 := te5 m in let m23 := te9 m in
  let m31 := te2 m in let m32 := te6 m in let m33 := te10 m in
  let trace := m11 + m22 + m33 in
  if greater trace 0 then
    let s := 0.5 / sqrt (trace + 1) in
    {| qx := (m32 - m23) * s; qy := (m13 - m31) * s; qz := (m21 - m12) * s;
       qw := 0.25 / s |}
  else if greater m11 m22 && greater m11 m33 then
    let s := 2 * sqrt (1 + m11 - m22 - m33) in
    {| qx := 0.25 * s; qy := (m12 + m21) / s; qz := (m13 + m31) / s;
       qw := (m32 - m23) / s |}
  else if greater m22 m33 then
    let s := 2 * sqrt (1 + m22 - m11 - m33) in
    {| qx := (m12 + m21) / s; qy := 0.25 * s; qz := (m23 + m32) / s;
       qw := (m13 - m31) / s |}
  else
    let s := 2 * sqrt (1 + m33 - m11 - m22) in
    {| qx := (m13 + m31) / s; qy := (m23 + m32) / s; qz := 0.25 * s;
       qw := (m21 - m12) / s |}.

(** [Matrix4.decompose(position, quaternion, scale)]: the three values it
    writes to its arguments. *)
Definition decompose (m : Matrix4) : Vector3 * Quaternion * Vector3 :=
  let sx := vector_length {| x := te0 m; y := te1 m; z := te2 m |} in
  let sy := vector_length {| x := te4 m; y := te5 m; z := te6 m |} in
  let sz := vector_length {| x := te8 m; y := te9 m; z := te10 m |} in
  let det := determinant m in
  let sx := if less det 0 then - sx else sx in
  let invSX := 1 / sx in
  let invSY := 1 / sy in
  let invSZ := 1 / sz in
  let m1 :=
    {| te0 := te0 m * invSX; te1 := te1 m * invSX; te2 := te2 m * invSX; te3 := te3 m;
       te4 := te4 m * invSY; te5 := te5 m * invSY; te6 := te6 m * invSY; te7 := te7 m;
       te8 := te8 m * invSZ; te9 := te9 m * invSZ; te10 := te10 m * invSZ; te11 := te11 m;
       te12 := te12 m; te13 := te13 m; te14 := te14 m; te15 := te15 m |} in
  ({| x := te12 m; y := te13 m; z := te14 m |},
   setFromRotationMatrix m1,
   {| x := sx; y := sy; z := sz |}).

(** [mesh.getWorldQuaternion(target)]: the world matrix is brought up to
    date and decomposed, and the quaternion read back from its rotation
    part is written to [target].  For a unit quaternion that is the
    quaternion of the mesh or its opposite, which stands for the same
    rotation ([getWorldQuaternion_upright]). *)
Definition getWorldQuaternion_def (m : Mesh) : Quaternion :=
  let '(_, quaternion, _) := decompose (matrixWorld m) in quaternion.

(** The function is sealed, so that the evaluation of the resolver on a
    sample structure leaves its calls folded; [getWorldQuaternion_unseal]
    gives the definition back. *)
Definition getWorldQuaternion_aux : seal getWorldQuaternion_def.
Proof. by eexists. Qed.
Definition getWorldQuaternion : Mesh -> Quaternion := unseal getWorldQuaternion_aux.
Definition getWorldQuaternion_unseal : getWorldQuaternion = getWorldQuaternion_def :=
  seal_eq getWorldQuaternion_aux.

End THREE.

Import THREE.

(** ** The brick catalog *)

Section Catalog.
Local Open Scope R_scope.

Definition STUD_SIZE : R := 2.
Definition PLATE_HEIGHT : R := 2.4.

(** An entry of [BRICK_DEFINITIONS].  [HoleOffsets] yields a JavaScript
    value that [buildStructure] tests with [instanceof THREE.Vector3];
    [None] stands for a value that is not a vector.  [IsBase] is [false]
    where the literal has no such property, [TopHoleIds] and
    [BottomHoleIds] are [None] where it has none. *)
Record BrickDef : Type := {
  Size : Vector3;
  HoleOffsets : Z -> option Vector3;
  IsBase : bool;
  TopHoleIds : option (list Z);
  BottomHoleIds : option (list Z)
}.

Definition brick_base : BrickDef :=
  {| Size := {| x := 4 * STUD_SIZE; y := PLATE_HEIGHT; z := 4 * STUD_SIZE |};
     HoleOffsets := fun holeId =>
       let col := Z.rem holeId 4 in
       let row := (holeId / 4)%Z in
       let xOffset := (IZR col - 1.5) * STUD_SIZE in
       let zOffset := (IZR row - 1.5) * STUD_SIZE in
       let yOffset := PLATE_HEIGHT / 2 in
       Some {| x := xOffset; y := yOffset; z := zOffset |};
     IsBase := true;
     TopHoleIds := None;
     BottomHoleIds := None |}.

Definition brick_3x1 : BrickDef :=
  {| Size := {| x := 3 * STUD_SIZE; y := PLATE_HEIGHT; z := 1 * STUD_SIZE |};
     HoleOffsets := fun holeId =>
       let yOffset := if (holeId <=? 2)%Z then PLATE_HEIGHT / 2 else - PLATE_HEIGHT / 2 in
       let xOffset := 0 in
       let xOffset := if (holeId =? 0)%Z || (holeId =? 3)%Z then -1 * STUD_SIZE else xOffset in
       let xOffset := if (holeId =? 2)%Z || (holeId =? 5)%Z then 1 * STUD_SIZE else xOffset in
       let zOffset := 0 in
       Some {| x := xOffset; y := yOffset; z := zOffset |};
     IsBase := false;
     TopHoleIds := Some [0; 1; 2]%Z;
     BottomHoleIds := Some [3; 4; 5]%Z |}.

Definition brick_2x1 : BrickDef :=
  {| Size := {| x := 2 * STUD_SIZE; y := PLATE_HEIGHT; z := 1 * STUD_SIZE |};
     HoleOffsets := fun holeId =>
       let yOffset := if (holeId <=? 1)%Z then PLATE_HEIGHT / 2 else - PLATE_HEIGHT / 2 in
       let xOffset := if (holeId =? 0)%Z || (holeId =? 2)%Z
                      then -0.5 * STUD_SIZE else 0.5 * STUD_SIZE in
       let zOffset := 0 in
       Some {| x := xOffset; y := yOffset; z := zOffset |};
     IsBase := false;
     TopHoleIds := Some [0; 1]%Z;
     BottomHoleIds := Some [2; 3]%Z |}.

Definition brick_1x1 : BrickDef :=
  {| Size := {| x := 1 * STUD_SIZE; y := PLATE_HEIGHT; z := 1 * STUD_SIZE |};
     HoleOffsets := fun holeId =>
       let yOffset := if (holeId =? 0)%Z then PLATE_HEIGHT / 2 else - PLATE_HEIGHT / 2 in
       let xOffset := 0 in
       let zOffset := 0 in
       Some {| x := xOffset; y := yOffset; z := zOffset |};
     IsBase := false;
     TopHoleIds := Some [0]%Z;
     BottomHoleIds := Some [1]%Z |}.

End Catalog.

Definition BRICK_DEFINITIONS : gmap string BrickDef :=
  list_to_map
    [ ("base", brick_base); ("3x1", brick_3x1); ("2x1", brick_2x1); ("1x1", brick_1x1) ].

Definition COLOR_MAP : gmap string Z :=
  list_to_map
    [ ("white", 0xffffff); ("yellow", 0xffff00); ("blue", 0x0000ff);
      ("orange", 0xffa500); ("pink", 0xffc0cb); ("purple", 0x800080);
      ("green", 0x00ff00); ("default", 0x888888) ]%Z.

(** [brickType] is a string or [undefined]. *)
Definition getBrickDefinition (brickType : option string) : JS.Lookup BrickDef :=
  JS.get BRICK_DEFINITIONS (JS.key brickType).

(** [COLOR_MAP[colorName?.toLowerCase()] || COLOR_MAP["default"]].  For
    [null] and [undefined] the optional chain yields [undefined]; a string
    is put in lower case; a value of another type has no method
    [toLowerCase], and the call throws a [TypeError]: the function then
    returns nothing ([None]). *)
Definition getBrickColorHex (colorName : JS.Text) : option (JS.Lookup Z) :=
  match colorName with
  | JS.NoText _ => None
  | JS.Nullish =>
      Some (JS.or JS.number (JS.get COLOR_MAP (JS.key None)) (JS.get COLOR_MAP "default"))
  | JS.Str s =>
      Some (JS.or JS.number (JS.get COLOR_MAP (JS.key (Some (JS.toLowerCase s))))
                            (JS.get COLOR_MAP "default"))
  end.

Definition isTopHole (brickDef : JS.Lookup BrickDef) (holeId : Z) : bool :=
  match brickDef with
  | JS.Undefined => false
  | JS.Inherited _ => false    (* neither [IsBase] nor [TopHoleIds] *)
  | JS.Own d =>
      if IsBase d then true
      else match TopHoleIds d with
           | None => false
           | Some ids => bool_decide (holeId ∈ ids)
           end
  end.

(** ** Input records (the JSON contract of structures.json) *)

Module Hole.
(** An entry of [brickData.holes].  A field is [None] when the JSON object
    lacks it ([typeof ... === 'undefined']). *)
Record Data : Type := {
  id : option Z;
  brick : option JS.Id;
  connectedToHole : option Z;
  orientation : option R
}.
End Hole.

Module Brick.
Record Data : Type := {
  id : option JS.Id;
  type : string;
  colour : JS.Text;
  holes : option (list Hole.Data)
}.
End Brick.

(** ** The dictionary [bricksById]

    [bricksById[String(brickData.id)] = brickData] creates or overwrites an
    own property, except for the key [__proto__]: there the assignment runs
    the setter inherited from [Object.prototype], which installs the record
    as the prototype of [bricksById].  Reads then fall through to the
    properties of that record before they reach [Object.prototype]. *)

Record BrickIndex : Type := {
  own : gmap string Brick.Data;
  proto : option Brick.Data
}.

(** What a read of [bricksById] yields: a brick record, or some other value
    (a string, an array, a function, [undefined], ...) of which only the
    truthiness matters, since it has neither [type] nor [holes]. *)
Inductive Found : Type :=
| Record_ (b : Brick.Data)
| Other (truthy : bool).

Definition index_set (ix : BrickIndex) (k : string) (b : Brick.Data) : BrickIndex :=
  if String.eqb k "__proto__"
  then {| own := own ix; proto := Some b |}
  else {| own := <[k := b]> (own ix); proto := proto ix |}.

(** Truthiness of the own property [k] of a record, if it has one. *)
Definition field (b : Brick.Data) (k : string) : option bool :=
  if String.eqb k "id" then
    match Brick.id b with
    | Some (JS.IdNum n) => Some (JS.number n)
    | Some (JS.IdStr s) => Some (negb (String.eqb s ""))
    | None => None
    end
  else if String.eqb k "type" then Some (negb (String.eqb (Brick.type b) ""))
  else if String.eqb k "colour" then
    match Brick.colour b with
    | JS.Str s => Some (negb (String.eqb s ""))
    | JS.NoText t => Some t
    | JS.Nullish => None
    end
  else if String.eqb k "holes" then
    match Brick.holes b with
    | Some _ => Some true
    | None => None
    end
  else None.

Definition index_get (ix : BrickIndex) (k : string) : Found :=
  match own ix !! k with
  | Some b => Record_ b
  | None =>
      match proto ix with
      | Some p =>
          if String.eqb k "__proto__" then Record_ p
          else match field p k with
               | Some t => Other t
               | None => Other (JS.inherited k)
               end
      | None => Other (JS.inherited k)
      end
  end.

Definition found_truthy (f : Found) : bool :=
  match f with
  | Record_ _ => true
  | Other t => t
  end.

(** [data.type], [data.holes] and [data.colour] of a value read from
    [bricksById]. *)
Definition type_of (f : Found) : option string :=
  match f with
  | Record_ b => Some (Brick.type b)
  | Other _ => None
  end.

Definition holes_of (f : Found) : option (list Hole.Data) :=
  match f with
  | Record_ b => Brick.holes b
  | Other _ => None
  end.

Definition colour_of (f : Found) : JS.Text :=
  match f with
  | Record_ b => Brick.colour b
  | Other _ => JS.Nullish
  end.

(** The [forEach] that fills [bricksById]. *)
Definition index (decodedData : list Brick.Data) : BrickIndex :=
  foldl (fun ix brickData =>
           match Brick.id brickData with
           | Some v => index_set ix (JS.ToString v) brickData
           | None => ix
           end)
        {| own := ∅; proto := None |} decodedData.

(** ** The state of [buildStructure] *)

(** One entry per run of the core placement block: the brick being
    processed, the hole followed, the brick placed and its mesh.  The
    script has a [console.log] of the same data at that point. *)
Record Connection : Type := {
  from_brick : string;
  via : Hole.Data;
  to_brick : string;
  mesh : Mesh
}.

(** The locals and globals [buildStructure] mutates.  The two dictionaries
    hold own properties only; every key written to them is 1 or has passed
    [!processedBrickIds[k]], so it names no member of [Object.prototype]
    and the write is a plain property write
    ([written_keys_not_inherited]). *)
Record State : Type := {
  threeMeshes : gmap string Mesh;
  processedBrickIds : gset string;      (* the keys set to [true] *)
  queue : list string;
  basePlateMesh : option Mesh;
  structureGroup : list Mesh;           (* [structureGroup.children] *)
  connections : list Connection
}.

(** [processedBrickIds[k]] read as a condition. *)
Definition processed (st : State) (k : string) : bool :=
  bool_decide (k ∈ processedBrickIds st) || JS.inherited k.

(** How a statement completes: normally, or by a thrown [TypeError]. *)
Inductive Completion : Type :=
| Normal (st : State)
| Throw (st : State).

Definition mark_processed (k : string) (st : State) : State :=
  {| threeMeshes := threeMeshes st;
     processedBrickIds := {[ k ]} ∪ processedBrickIds st;
     queue := queue st;
     basePlateMesh := basePlateMesh st;
     structureGroup := structureGroup st;
     connections := connections st |}.

Definition shift (st : State) : State :=
  {| threeMeshes := threeMeshes st;
     processedBrickIds := processedBrickIds st;
     queue := tail (queue st);
     basePlateMesh := basePlateMesh st;
     structureGroup := structureGroup st;
     connections := connections st |}.

(** The tail of the core placement block: add the mesh to the group, store
    it, mark the id, enqueue it. *)
Definition add_brick (c : Connection) (st : State) : State :=
  {| threeMeshes := <[to_brick c := mesh c]> (threeMeshes st);
     processedBrickIds := {[ to_brick c ]} ∪ processedBrickIds st;
     queue := queue st ++ [to_brick c];
     basePlateMesh := basePlateMesh st;
     structureGroup := structureGroup st ++ [mesh c];
     connections := connections st ++ [c] |}.

(** The transform of the new brick, computed from the mesh of the current
    one and the two hole offsets. *)
Definition worldRotation (currentMesh : Mesh) (holeData : Hole.Data) : Quaternion :=
  let parentQuaternion := getWorldQuaternion currentMesh in
  let relativeRotation :=
    setFromAxisAngle {| x := 0; y := 1; z := 0 |}
                     (- degToRad (default 0%R (Hole.orientation holeData))) in
  multiply parentQuaternion relativeRotation.

Definition newBrickPosition (currentMesh : Mesh) (holeData : Hole.Data)
    (bottomHoleLocalOffset topHoleLocalOffset : Vector3) : Vector3 :=
  let bottomHoleWorldPos := localToWorld currentMesh bottomHoleLocalOffset in
  let centerOffset := applyQuaternion topHoleLocalOffset (worldRotation currentMesh holeData) in
  sub bottomHoleWorldPos centerOffset.

(** The body of [currentBrickData.holes.forEach]. *)
Definition process_hole (bricksById : BrickIndex) (currentBrickId : string)
    (currentBrickDef : JS.Lookup BrickDef) (currentMesh : JS.Lookup Mesh)
    (holeData : Hole.Data) (st : State) : Completion :=
  match Hole.brick holeData, Hole.id holeData with
  | Some brick, Some holeId =>
      let connectedBrickIdStr := JS.ToString brick in
      if negb (String.eqb connectedBrickIdStr "-1") && isTopHole currentBrickDef holeId then
        if negb (processed st connectedBrickIdStr) then
          let connectedBrickData := index_get bricksById connectedBrickIdStr in
          if found_truthy connectedBrickData then
            match getBrickDefinition (type_of connectedBrickData) with
            | JS.Undefined => Normal st
            | connectedBrickDef =>
                match Hole.connectedToHole holeData with
                | None => Normal st
                | Some connectedToHole =>
                    match currentBrickDef, connectedBrickDef with
                    | JS.Own cur, JS.Own con =>
                        match HoleOffsets cur holeId, HoleOffsets con connectedToHole with
                        | Some bottomHoleLocalOffset, Some topHoleLocalOffset =>
                            match currentMesh with
                            | JS.Own currentMesh =>
                                match getBrickColorHex (colour_of connectedBrickData) with
                                | Some hex =>
                                    let newMesh :=
                                      {| geometry := Size con;
                                         color := hex;
                                         position :=
                                           newBrickPosition currentMesh holeData
                                             bottomHoleLocalOffset topHoleLocalOffset;
                                         quaternion := worldRotation currentMesh holeData |} in
                                    Normal (add_brick {| from_brick := currentBrickId;
                                                         via := holeData;
                                                         to_brick := connectedBrickIdStr;
                                                         mesh := newMesh |} st)
                                | None => Throw st  (* [toLowerCase] is not a function *)
                                end
                            | _ => Throw st     (* [localToWorld] is not a function *)
                            end
                        | _, _ => Normal st     (* not an [instanceof THREE.Vector3] *)
                        end
                    | _, _ => Throw st          (* [HoleOffsets] is not a function *)
                    end
                end
            end
          else Normal (mark_processed connectedBrickIdStr st)
        else Normal st
      else Normal st
  | _, _ => Normal st
  end.

Fixpoint forEach {A : Type} (f : A -> State -> Completion) (l : list A) (st : State)
    : Completion :=
  match l with
  | [] => Normal st
  | a :: l' =>
      match f a st with
      | Normal st' => forEach f l' st'
      | Throw st' => Throw st'
      end
  end.

(** The body of the [while] loop, after [queue.shift()]. *)
Definition visit (bricksById : BrickIndex) (currentBrickId : string) (st : State)
    : Completion :=
  let currentBrickData := index_get bricksById currentBrickId in
  let currentMesh := JS.get (threeMeshes st) currentBrickId in
  if negb (found_truthy currentBrickData) || negb (JS.truthy JS.object currentMesh)
  then Normal st
  else
    let currentBrickDef := getBrickDefinition (type_of currentBrickData) in
    match currentBrickDef, holes_of currentBrickData with
    | JS.Undefined, _ => Normal st
    | _, None => Normal st
    | _, Some holes =>
        forEach (process_hole bricksById currentBrickId currentBrickDef currentMesh) holes st
    end.

(** The outcome of [buildStructure]: an early return with the message
    passed to [updateStructureInfo], a [TypeError] thrown while the base
    plate is created, a complete traversal, or a traversal cut short by a
    [TypeError].  [FuelExhausted] is the loop stopped by the bound on its
    iterations. *)
Inductive Result : Type :=
| Error (msg : string)
| BaseTypeError
| Complete (st : State)
| TypeError (st : State)
| FuelExhausted (st : State).

Fixpoint bfs (fuel : nat) (bricksById : BrickIndex) (st : State) : Result :=
  match queue st with
  | [] => Complete st
  | currentBrickId :: _ =>
      match fuel with
      | O => FuelExhausted st
      | S fuel' =>
          match visit bricksById currentBrickId (shift st) with
          | Normal st' => bfs fuel' bricksById st'
          | Throw st' => TypeError st'
          end
      end
  end.

(** The scene after [clearStructure]. *)
Definition cleared : State :=
  {| threeMeshes := ∅; processedBrickIds := ∅; queue := [];
     basePlateMesh := None; structureGroup := []; connections := [] |}.

(** Step 1 of [buildStructure]: the base plate at the origin, stored,
    marked and enqueued under [baseData.id]; [hex] is what
    [getBrickColorHex(baseData.colour)] has returned. *)
Definition place_base (baseDef : BrickDef) (baseData : Brick.Data) (hex : JS.Lookup Z)
    : State :=
  let basePlateMesh :=
    {| geometry := Size baseDef;
       color := hex;
       position := {| x := 0; y := 0; z := 0 |};
       quaternion := identity |} in
  let baseId := JS.key (JS.ToString <$> Brick.id baseData) in
  {| threeMeshes := <[baseId := basePlateMesh]> ∅;
     processedBrickIds := {[ baseId ]};
     queue := [baseId];
     basePlateMesh := Some basePlateMesh;
     structureGroup := [];
     connections := [] |}.

(** [buildStructure(structureData)] for an array of records, with a bound
    on the iterations of its loop. *)
Definition build (fuel : nat) (structureData : list Brick.Data) : Result :=
  let bricksById := index structureData in
  match index_get bricksById "1" with
  | Record_ baseData =>
      if negb (String.eqb (Brick.type baseData) "base")
      then Error "Missing or incorrect Base Brick in structure"
      else
        match getBrickDefinition (Some (Brick.type baseData)) with
        | JS.Undefined => Error "Invalid Base Type Definition"
        | JS.Inherited _ => BaseTypeError          (* [baseDef.Size] is undefined *)
        | JS.Own baseDef =>
            match getBrickColorHex (Brick.colour baseData) with
            | Some hex => bfs fuel bricksById (place_base baseDef baseData hex)
            | None => BaseTypeError                (* [toLowerCase] is not a function *)
            end
        end
  | Other _ => Error "Missing or incorrect Base Brick in structure"
  end.

(** The loop runs once per brick taken from the queue and no brick enters
    the queue twice, so the number of records bounds its iterations
    ([buildStructure_terminates], [build_fuel]). *)
Definition buildStructure (structureData : list Brick.Data) : Result :=
  build (length structureData) structureData.

(** The scene a result leaves behind. *)
Definition scene (r : Result) : State :=
  match r with
  | Error _ | BaseTypeError => cleared
  | Complete st | TypeError st | FuelExhausted st => st
  end.

(** The bricks placed, in order: the base plate under the id it is stored
    at, then one per connection followed. *)
Definition emitted (st : State) : list (string * Mesh) :=
  match basePlateMesh st with
  | Some m => [("1", m)]
  | None => []
  end ++ map (fun c => (to_brick c, mesh c)) (connections st).

(** ** Specification vocabulary *)

(** What the core placement block establishes for the connection it logs. *)
Definition follows (bricksById : BrickIndex) (cur : BrickDef) (currentMesh : Mesh)
    (c : Connection) : Prop :=
  ∃ b holeId toHole child con bottom top,
    Hole.brick (via c) = Some b ∧ to_brick c = JS.ToString b ∧ to_brick c ≠ "-1" ∧
    Hole.id (via c) = Some holeId ∧ isTopHole (JS.Own cur) holeId = true ∧
    index_get bricksById (to_brick c) = Record_ child ∧
    getBrickDefinition (Some (Brick.type child)) = JS.Own con ∧
    Hole.connectedToHole (via c) = Some toHole ∧
    HoleOffsets cur holeId = Some bottom ∧ HoleOffsets con toHole = Some top ∧
    getBrickColorHex (Brick.colour child) = Some (color (mesh c)) ∧
    mesh c = {| geometry := Size con;
                color := color (mesh c);
                position := newBrickPosition currentMesh (via c) bottom top;
                quaternion := worldRotation currentMesh (via c) |}.

(** The ways [process_hole] can end: the state is left as it is (a skip, or
    a throw), an id that is not found is marked, or a brick is placed. *)
Inductive hole_step (bricksById : BrickIndex) (currentBrickId : string)
    (currentBrickDef : JS.Lookup BrickDef) (currentMesh : JS.Lookup Mesh)
    (holeData : Hole.Data) (st : State) : Completion -> Prop :=
| step_skip : hole_step bricksById currentBrickId currentBrickDef currentMesh holeData st (Normal st)
| step_throw : hole_step bricksById currentBrickId currentBrickDef currentMesh holeData st (Throw st)
| step_dangling b :
    Hole.brick holeData = Some b ->
    processed st (JS.ToString b) = false ->
    found_truthy (index_get bricksById (JS.ToString b)) = false ->
    hole_step bricksById currentBrickId currentBrickDef currentMesh holeData st
              (Normal (mark_processed (JS.ToString b) st))
| step_place cur m c :
    currentBrickDef = JS.Own cur -> currentMesh = JS.Own m ->
    from_brick c = currentBrickId -> via c = holeData ->
    processed st (to_brick c) = false ->
    follows bricksById cur m c ->
    hole_step bricksById currentBrickId currentBrickDef currentMesh holeData st
              (Normal (add_brick c st)).

(** A logged connection is justified in a state when it leaves from a hole
    of the record of an indexed brick whose mesh the state stores, and was
    computed from that mesh. *)
Definition justified (bricksById : BrickIndex) (st : State) (c : Connection) : Prop :=
  ∃ parentData cur parentMesh hs,
    index_get bricksById (from_brick c) = Record_ parentData ∧
    getBrickDefinition (Some (Brick.type parentData)) = JS.Own cur ∧
    Brick.holes parentData = Some hs ∧ via c ∈ hs ∧
    threeMeshes st !! from_brick c = Some parentMesh ∧
    follows bricksById cur parentMesh c.

(** The invariant of the loop: stored meshes are exactly the emitted ones
    and their ids are marked; no id is emitted twice; every connection is
    justified and follows the placement of the brick it leaves from; the
    structure group holds the meshes of the connections; marked ids name no
    member of [Object.prototype]; the base plate sits at the origin. *)
Record Inv (bricksById : BrickIndex) (st : State) : Prop := {
  inv_meshes : forall k m, threeMeshes st !! k = Some m ->
                 k ∈ processedBrickIds st ∧ (k, m) ∈ emitted st;
  inv_emitted : forall k m, (k, m) ∈ emitted st -> threeMeshes st !! k = Some m;
  inv_nodup : NoDup (map fst (emitted st));
  inv_conn : forall c, c ∈ connections st -> justified bricksById st c;
  inv_group : structureGroup st = map mesh (connections st);
  inv_order : forall pre c post, connections st = pre ++ c :: post ->
                from_brick c = "1" ∨ from_brick c ∈ map to_brick pre;
  inv_keys : forall k, k ∈ processedBrickIds st -> JS.inherited k = false;
  inv_base : ∃ bm, basePlateMesh st = Some bm ∧
                   position bm = {| x := 0; y := 0; z := 0 |} ∧ quaternion bm = identity
}.

(** The state a completion carries. *)
Definition completion_state (r : Completion) : State :=
  match r with
  | Normal st | Throw st => st
  end.

(** The variant of the loop: the bricks waiting in the queue plus the
    indexed ids not yet marked.  A placement moves one id from the second
    set to the queue; taking a brick from the queue decreases it. *)
Definition pending (ix : BrickIndex) (st : State) : gset string :=
  dom (own ix) ∖ processedBrickIds st.

Definition measure (ix : BrickIndex) (st : State) : nat :=
  length (queue st) + size (pending ix st).

Definition exhausted (r : Result) : bool :=
  match r with
  | FuelExhausted _ => true
  | _ => false
  end.

(** Whether a run ended before the base plate was placed. *)
Definition is_error (r : Result) : bool :=
  match r with
  | Error _ | BaseTypeError => true
  | _ => false
  end.

(** An edge of the connection graph as the input describes it: the record
    [P] of the brick processed, the hole followed with its socket [s] on
    [P], the record [T] of the brick it names and the socket [t] on [T]. *)
Definition traversed (structureData : list Brick.Data) (c : Connection)
    (P T : Brick.Data) (defP defT : BrickDef) (s t : Z) : Prop :=
  index_get (index structureData) (from_brick c) = Record_ P ∧
  getBrickDefinition (Some (Brick.type P)) = JS.Own defP ∧
  (∃ hs, Brick.holes P = Some hs ∧ via c ∈ hs) ∧
  Hole.id (via c) = Some s ∧
  (∃ b, Hole.brick (via c) = Some b ∧ JS.ToString b = to_brick c) ∧
  Hole.connectedToHole (via c) = Some t ∧
  index_get (index structureData) (to_brick c) = Record_ T ∧
  getBrickDefinition (Some (Brick.type T)) = JS.Own defT.

(** A unit quaternion that turns about the Y axis. *)
Definition upright (q : Quaternion) : Prop :=
  qx q = 0%R ∧ qz q = 0%R ∧ (qy q * qy q + qw q * qw q = 1)%R.

(** The opposite of a quaternion.  A unit quaternion and its opposite
    stand for the same rotation. *)
Definition negate (q : Quaternion) : Quaternion :=
  {| qx := - qx q; qy := - qy q; qz := - qz q; qw := - qw q |}.

(** *** Rotations, in the words of the specification

    The specification speaks of rotations: of one rotation composed with
    another, and of a rotation applied to an offset.  The three
    definitions below say what that means without the operations of
    three.js, so that the quaternion arithmetic of the script can be
    compared with them. *)




(** The socket ids a brick type defines: the sixteen cells of the base
    grid, the top and bottom holes of the others. *)
Definition socket_ids (d : BrickDef) : list Z :=
  if IsBase d then seqZ 0 16
  else default [] (TopHoleIds d) ++ default [] (BottomHoleIds d).

(** ** Sample structures *)

Definition unconnected (holeId : Z) : Hole.Data :=
  {| Hole.id := Some holeId; Hole.brick := Some (JS.IdNum (-1));
     Hole.connectedToHole := Some (-1)%Z; Hole.orientation := Some 0%R |}.

Definition connected (holeId : Z) (brick : string) (toHole : Z) (degrees : R) : Hole.Data :=
  {| Hole.id := Some holeId; Hole.brick := Some (JS.IdStr brick);
     Hole.connectedToHole := Some toHole; Hole.orientation := Some degrees |}.

Definition brick_record (id type colour : string) (holes : list Hole.Data) : Brick.Data :=
  {| Brick.id := Some (JS.IdStr id); Brick.type := type;
     Brick.colour := JS.Str colour; Brick.holes := Some holes |}.

(** A base whose socket 0 carries the 1x1 brick 56, attached at its
    bottom socket 1, orientation 0. *)
Definition single_child : list Brick.Data :=
  [ brick_record "1" "base" "white"
      (connected 0 "56" 1 0 :: map unconnected (seqZ 1 15));
    brick_record "56" "1x1" "blue"
      [ unconnected 0; connected 1 "1" 0 0 ] ].

(** A base carrying brick 2; brick 2 names brick 3 from both of its top
    sockets, and brick 3 names brick 2 back from its top socket. *)
Definition cyclic : list Brick.Data :=
  [ brick_record "1" "base" "white" [ connected 0 "2" 2 0 ];
    brick_record "2" "2x1" "yellow"
      [ connected 0 "3" 1 0; connected 1 "3" 1 90; connected 2 "1" 0 0; unconnected 3 ];
    brick_record "3" "1x1" "green" [ connected 0 "2" 3 0; connected 1 "2" 0 0 ] ].

(** A base whose socket 0 carries the 2x1 brick 7, attached at its bottom
    socket 2, orientation 90. *)
Definition rotated_2x1 : list Brick.Data :=
  [ brick_record "1" "base" "white" [ connected 0 "7" 2 90 ];
    brick_record "7" "2x1" "pink"
      [ unconnected 0; unconnected 1; connected 2 "1" 0 90; unconnected 3 ] ].

(** The connection followed in [single_child]. *)
Definition single_child_connection : Connection :=
  match connections (scene (buildStructure single_child)) with
  | c :: _ => c
  | [] => {| from_brick := ""; via := unconnected 0; to_brick := "";
             mesh := {| geometry := origin; color := JS.Undefined;
                        position := origin; quaternion := identity |} |}
  end.

(** A structure without a base: brick 56 alone. *)
Definition no_base : list Brick.Data :=
  [ brick_record "56" "1x1" "blue" [ unconnected 0; unconnected 1 ] ].

(** A base whose socket 0 names the brick [holes], of which there is no
    record, next to a record whose id is [__proto__]. *)
Definition hijacked : list Brick.Data :=
  [ brick_record "1" "base" "white" [ connected 0 "holes" 0 0 ];
    brick_record "__proto__" "1x1" "blue" [ unconnected 0; unconnected 1 ] ].

(** A base that names the 1x1 brick 2 from the socket 17, which is none
    of its sixteen sockets. *)
Definition off_plate : list Brick.Data :=
  [ brick_record "1" "base" "white" [ connected 17 "2" 1 0 ];
    brick_record "2" "1x1" "blue" [ unconnected 0; connected 1 "1" 17 0 ] ].

(** The connection followed in [off_plate]. *)
Definition off_plate_connection : Connection :=
  match connections (scene (buildStructure off_plate)) with
  | c :: _ => c
  | [] => single_child_connection
  end.

(** A base that carries the 2x1 brick 2, turned by 180 degrees, which
    carries the 1x1 brick 3. *)
Definition half_turn : list Brick.Data :=
  [ brick_record "1" "base" "white" [ connected 5 "2" 2 180 ];
    brick_record "2" "2x1" "yellow"
      [ connected 0 "3" 1 0; unconnected 1; connected 2 "1" 5 180; unconnected 3 ];
    brick_record "3" "1x1" "green" [ unconnected 0; connected 1 "2" 0 0 ] ].

(** The connections followed in [half_turn], by their position. *)
Definition half_turn_connection (i : nat) : Connection :=
  match connections (scene (buildStructure half_turn)), i with
  | c :: _, 0 => c
  | _ :: c :: _, 1 => c
  | _, _ => single_child_connection
  end.

(** ** Claims that the code does not meet, as stated *)

(** The claim C9 as stated: outside the socket ids its type defines, the
    offset function yields no vector. *)
Definition offsets_fail_outside_defined_ids : Prop :=
  forall name d s,
    BRICK_DEFINITIONS !! name = Some d -> s ∉ socket_ids d -> HoleOffsets d s = None.

(** ** The connection graph of the input *)

(** What the loop keeps true besides [Inv]: every id waiting in the queue
    has a stored mesh; a marked id has a stored mesh or is one the lookup
    in [bricksById] did not find; a stored mesh belongs to a record of a
    catalog type and has the size of that type and the colour of that
    record. *)
Record Consistent (bricksById : BrickIndex) (st : State) : Prop := {
  con_queue : forall k, k ∈ queue st -> is_Some (threeMeshes st !! k);
  con_marked : forall k, k ∈ processedBrickIds st ->
                 is_Some (threeMeshes st !! k) ∨
                 found_truthy (index_get bricksById k) = false;
  con_records : forall k m, threeMeshes st !! k = Some m ->
                  ∃ b d, index_get bricksById k = Record_ b ∧
                         getBrickDefinition (Some (Brick.type b)) = JS.Own d ∧
                         geometry m = Size d ∧
                         getBrickColorHex (Brick.colour b) = Some (color m)
}.

(** The hole [h] of the record of [k] names the id [k'] from a top socket:
    the record has a catalog type, [h] is one of its holes, sits on one of
    the type's top sockets and names [k'], which is not the sentinel -1.
    These are the holes for which the loop consults [processedBrickIds]. *)
Definition names (bricksById : BrickIndex) (k : string) (h : Hole.Data) (k' : string)
    : Prop :=
  ∃ P hs b s defP,
    index_get bricksById k = Record_ P ∧
    getBrickDefinition (Some (Brick.type P)) = JS.Own defP ∧
    Brick.holes P = Some hs ∧ h ∈ hs ∧
    Hole.brick h = Some b ∧ JS.ToString b = k' ∧ k' ≠ "-1" ∧
    Hole.id h = Some s ∧ isTopHole (JS.Own defP) s = true.

(** An edge of the connection graph: a hole as above that names a record
    of a catalog type and says at which socket of it the brick attaches.
    The id named is no member of [Object.prototype] (which
    [processedBrickIds] reports as processed). *)
Definition edge (bricksById : BrickIndex) (k : string) (h : Hole.Data) (k' : string)
    : Prop :=
  names bricksById k h k' ∧ JS.inherited k' = false ∧
  ∃ t T defT,
    index_get bricksById k' = Record_ T ∧
    getBrickDefinition (Some (Brick.type T)) = JS.Own defT ∧
    Hole.connectedToHole h = Some t.

(** The id named is found in [bricksById], but what is found has no
    catalog type, or the hole does not say where to attach: the loop
    passes over such a hole and leaves the id unmarked. *)
Definition unplaceable (bricksById : BrickIndex) (h : Hole.Data) (k' : string) : Prop :=
  found_truthy (index_get bricksById k') = true ∧
  (getBrickDefinition (type_of (index_get bricksById k')) = JS.Undefined ∨
   Hole.connectedToHole h = None).


(** Every id that a hole of [k] names from a top socket is processed,
    unless it is unplaceable. *)
Definition closed (bricksById : BrickIndex) (st : State) (k : string) : Prop :=
  forall h k', names bricksById k h k' ->
               processed st k' = true ∨ unplaceable bricksById h k'.

(** [st'] extends [st]: what was processed stays processed, the queue
    grows at its end, and every mesh stored since is waiting in the queue. *)
Definition extends (st st' : State) : Prop :=
  (forall k, processed st k = true -> processed st' k = true) ∧
  ∃ added, queue st' = queue st ++ added ∧
           forall k, is_Some (threeMeshes st' !! k) ->
                     is_Some (threeMeshes st !! k) ∨ k ∈ added.

(** ** Further vocabulary *)

(** The key under which the index files a record, if it has an id. *)
Definition record_key (b : Brick.Data) : option string := JS.ToString <$> Brick.id b.

(** Whether a run was ended by a [TypeError]. *)
Definition threw (r : Result) : bool :=
  match r with
  | BaseTypeError | TypeError _ => true
  | _ => false
  end.

(** Whether a result is a completed traversal. *)
Definition completed (r : Result) : bool :=
  match r with
  | Complete _ => true
  | _ => false
  end.


(** ** Levels of the traversal *)

(** The level of each brick placed, read off the log of connections: the
    base has level 0 and a brick placed from a brick of level n has level
    n + 1. *)
Definition levels (cs : list Connection) : gmap string nat :=
  foldl (fun lv c => <[to_brick c := S (default 0 (lv !! from_brick c))]> lv)
        {[ "1" := 0 ]} cs.

Definition level (st : State) (k : string) : option nat :=
  levels (connections st) !! k.

(** A path of [n] edges from the base to [k] in the connection graph. *)
Inductive path (bricksById : BrickIndex) : nat -> string -> Prop :=
| path_base : path bricksById 0 "1"
| path_edge n k h k' :
    path bricksById n k -> edge bricksById k h k' -> path bricksById (S n) k'.

(** The invariant of a breadth-first traversal while the brick [cur], of
    level [a], has its holes processed ([cur] is [None] between two
    iterations): every brick placed has a level, of at most [a + 1]; the
    queue holds bricks of level [a] followed by bricks of level [a + 1];
    a brick that has left the queue has a level of at most [a], and its
    edges lead to bricks placed at most one level higher; the bricks were
    placed in the order of their levels. *)
Record Layered (bricksById : BrickIndex) (cur : option string) (a : nat) (st : State)
    : Prop := {
  lay_base : level st "1" = Some 0;
  lay_fresh : forall k, is_Some (level st k) -> processed st k = true;
  lay_stored : forall k, is_Some (threeMeshes st !! k) -> is_Some (level st k);
  lay_cur : forall u, cur = Some u -> level st u = Some a;
  lay_max : forall k n, level st k = Some n -> n ≤ S a;
  lay_queue : ∃ q1 q2, queue st = q1 ++ q2 ∧
                (forall k, k ∈ q1 -> level st k = Some a) ∧
                (forall k, k ∈ q2 -> level st k = Some (S a));
  lay_done : forall k n, level st k = Some n -> k ∉ queue st -> cur ≠ Some k ->
               n ≤ a ∧
               forall h k', edge bricksById k h k' ->
                            ∃ n', level st k' = Some n' ∧ n' ≤ S n;
  lay_sorted : forall pre c post, connections st = pre ++ c :: post ->
                 forall c' n n', c' ∈ pre ->
                   level st (to_brick c') = Some n' -> level st (to_brick c) = Some n ->
                   n' ≤ n;
  lay_conn : forall c, c ∈ connections st ->
               ∃ n, level st (from_brick c) = Some n ∧
                    level st (to_brick c) = Some (S n)
}.

(** ** Headings *)



(** ** The order of the holes, and the grid *)

(** The hole a connection was followed through is the first hole of its
    record, in the order of the [holes] array, that is an edge to the brick
    placed. *)
Definition first_hole (bricksById : BrickIndex) (c : Connection) : Prop :=
  ∃ P hs1 hs2,
    index_get bricksById (from_brick c) = Record_ P ∧
    Brick.holes P = Some (hs1 ++ via c :: hs2) ∧
    forall h', h' ∈ hs1 -> ¬ edge bricksById (from_brick c) h' (to_brick c).

(** The ids of the bricks placed, in the order of their placement. *)
Definition placed (st : State) : list string := map fst (emitted st).

(** The connection [c] was the first attempt at the brick it placed: no
    brick placed before the brick it leaves has an edge to that brick. *)
Definition first_visited (bricksById : BrickIndex) (st : State) (c : Connection) : Prop :=
  forall pre post, placed st = pre ++ from_brick c :: post ->
    forall k h, k ∈ pre -> ¬ edge bricksById k h (to_brick c).

(** The invariant of a traversal that takes the bricks from the front of
    the queue, while the brick [cur] has its holes processed ([cur] is
    [None] between two iterations): the bricks placed are those that have
    left the queue, then [cur], then the queue, in this order; every edge
    out of a brick that has left the queue leads to a processed id; no
    brick was placed twice, every brick placed is processed, and every
    connection leaves a brick placed and was the first attempt at its
    brick. *)
Record Fifo (bricksById : BrickIndex) (cur : option string) (st : State) : Prop := {
  fifo_queue : ∃ left, placed st = left ++ option_list cur ++ queue st ∧
                 forall k h k', k ∈ left -> edge bricksById k h k' ->
                                processed st k' = true;
  fifo_nodup : NoDup (placed st);
  fifo_processed : forall k, k ∈ placed st -> processed st k = true;
  fifo_from : forall c, c ∈ connections st -> from_brick c ∈ placed st;
  fifo_first : forall c, c ∈ connections st -> first_visited bricksById st c
}.



(** ** The page: the structures loaded, the one shown and the caption *)

(** The two globals [buildStructure] leaves behind. *)
Definition globals (st : State) : option Mesh * list Mesh :=
  (basePlateMesh st, structureGroup st).

Module Entry.
(** An element of [jsonData] that is an object: its [name], if it has one
    that is a string, and its [data], if that is an array. *)
Record t : Type := {
  name : option string;
  data : option (list Brick.Data)
}.
End Entry.

(** What [updateStructureInfo] writes to the element [structureInfo]. *)
Record Caption : Type := {
  textContent : string;
  style_color : string
}.

Module Page.

(** The globals of the script and the parts of the document it writes to.
    [jsonData] is [None] when the value is not an array; an element of it
    is [None] when it is [null] (or another falsy value).  [disposed]
    lists the meshes whose geometry and material have been disposed.
    [infoSpan] is [None] when the document has no element
    [structureInfo]. *)
Record t : Type := {
  jsonData : option (list (option Entry.t));
  currentJsonIndex : nat;
  basePlateMesh : option Mesh;
  structureGroup : list Mesh;           (* [structureGroup.children] *)
  disposed : list Mesh;
  infoSpan : option Caption
}.

(** How a call completes: it returns, or a [TypeError] leaves it. *)
Inductive Outcome : Type :=
| Returned (p : t)
| Thrown (p : t).

Definition page (o : Outcome) : t :=
  match o with
  | Returned p | Thrown p => p
  end.

(** Truthiness of a value that is a string, [null] or [undefined]. *)
Definition truthy_string (s : option string) : bool :=
  match s with
  | Some s => negb (String.eqb s "")
  | None => false
  end.

(** The [while] loop of [clearStructure]: the first child is disposed and
    removed until no child is left. *)
Fixpoint remove_children (children disposed : list Mesh) : list Mesh * list Mesh :=
  match children with
  | [] => ([], disposed)
  | child :: children' => remove_children children' (disposed ++ [child])
  end.

Definition clearStructure (p : t) : t :=
  let '(children, disposed) := remove_children (structureGroup p) (disposed p) in
  {| jsonData := jsonData p;
     currentJsonIndex := currentJsonIndex p;
     basePlateMesh := None;
     structureGroup := children;
     disposed := match basePlateMesh p with
                 | Some m => disposed ++ [m]
                 | None => disposed
                 end;
     infoSpan := infoSpan p |}.

Definition loading : Caption :=
  {| textContent := "Loading structure data..."; style_color := "yellow" |}.

(** The caption of the structure at [currentJsonIndex]. *)
Definition displaying (l : list (option Entry.t)) (i : nat) (e : Entry.t) : Caption :=
  let currentName :=
    if truthy_string (Entry.name e) then default "" (Entry.name e)
    else "Structure " +:+ pretty (i + 1) in
  {| textContent := "Displaying: " +:+ currentName +:+ " (" +:+ pretty (i + 1) +:+ "/"
                    +:+ pretty (length l) +:+ ")";
     style_color := "white" |}.

(** [updateStructureInfo(errorMsg)]; without argument [errorMsg] is
    [null]. *)
Definition updateStructureInfo (errorMsg : option string) (p : t) : t :=
  match infoSpan p with
  | None => p
  | Some _ =>
      let caption :=
        if truthy_string errorMsg
        then {| textContent := "Error: " +:+ default "" errorMsg; style_color := "red" |}
        else match jsonData p with
             | Some (e0 :: l') =>
                 match (e0 :: l') !! currentJsonIndex p with
                 | Some (Some e) => displaying (e0 :: l') (currentJsonIndex p) e
                 | _ => loading
                 end
             | _ => loading
             end in
      {| jsonData := jsonData p;
         currentJsonIndex := currentJsonIndex p;
         basePlateMesh := basePlateMesh p;
         structureGroup := structureGroup p;
         disposed := disposed p;
         infoSpan := Some caption |}
  end.

(** The globals set to what a run of the resolver leaves behind. *)
Definition show (st : State) (p : t) : t :=
  {| jsonData := jsonData p;
     currentJsonIndex := currentJsonIndex p;
     basePlateMesh := fst (globals st);
     structureGroup := snd (globals st);
     disposed := disposed p;
     infoSpan := infoSpan p |}.

(** [buildStructure(structureData)] on the page; [structureData] is
    [None] when the value is not an array.  The traversal itself is the
    function [buildStructure] on arrays of records, above. *)
Definition buildStructure (structureData : option (list Brick.Data)) (p : t) : Outcome :=
  let p := clearStructure p in
  match structureData with
  | None => Returned (updateStructureInfo (Some "Invalid Structure Data: Not an array") p)
  | Some decodedData =>
      match buildStructure decodedData with
      | Error msg => Returned (updateStructureInfo (Some msg) p)
      | Complete st => Returned (show st p)
      | BaseTypeError => Thrown p
      | TypeError st | FuelExhausted st => Thrown (show st p)
      end
  end.

Definition set_index (i : nat) (p : t) : t :=
  {| jsonData := jsonData p;
     currentJsonIndex := i;
     basePlateMesh := basePlateMesh p;
     structureGroup := structureGroup p;
     disposed := disposed p;
     infoSpan := infoSpan p |}.

(** [cycleStructure()], the handler of a click on the button. *)
Definition cycleStructure (p : t) : Outcome :=
  match jsonData p with
  | None | Some [] => Returned p
  | Some l =>
      let p := set_index ((currentJsonIndex p + 1) mod length l) p in
      let invalid :=
        Returned (updateStructureInfo
                    (Some ("Error loading structure " +:+ pretty (currentJsonIndex p + 1)))
                    p) in
      match l !! currentJsonIndex p with
      | Some (Some e) =>
          match Entry.data e with
          | Some structureData =>
              match buildStructure (Some structureData) p with
              | Returned p' => Returned (updateStructureInfo None p')
              | Thrown p' => Thrown p'
              end
          | None => invalid
          end
      | _ => invalid
      end
  end.

(** The page after a click. *)
Definition click (p : t) : t := page (cycleStructure p).

End Page.

(** ** Further sample structures *)

(** A base whose socket 0 names the brick 99, of which there is no
    record. *)
Definition dangling : list Brick.Data :=
  [ brick_record "1" "base" "white" [ connected 0 "99" 0 0 ] ].

(** The base plate [buildStructure] creates for a white base record. *)
Definition white_base_plate : Mesh :=
  {| geometry := Size brick_base;
     color := JS.Own 0xffffff%Z;
     position := {| x := 0; y := 0; z := 0 |};
     quaternion := identity |}.

(** A base that carries the bricks 2 and 3, where brick 2 names brick 3 as
    well: brick 3 is one edge away from the base, and two edges away by
    way of brick 2. *)
Definition two_ways : list Brick.Data :=
  [ brick_record "1" "base" "white" [ connected 0 "2" 2 0; connected 1 "3" 1 0 ];
    brick_record "2" "2x1" "yellow"
      [ connected 0 "3" 1 0; unconnected 1; connected 2 "1" 0 0; unconnected 3 ];
    brick_record "3" "1x1" "green" [ unconnected 0; connected 1 "1" 1 0 ] ].

(** A base that carries brick 7, whose type names a member of
    [Object.prototype]. *)
Definition inherited_type : list Brick.Data :=
  [ brick_record "1" "base" "white" [ connected 0 "7" 1 0 ];
    brick_record "7" "constructor" "blue" [ unconnected 0; connected 1 "1" 0 0 ] ].

(** A base that carries brick 7, whose colour is the number 5; and a base
    whose own colour is the number 5. *)
Definition numeric_colour : list Brick.Data :=
  [ brick_record "1" "base" "white" [ connected 0 "7" 1 0 ];
    {| Brick.id := Some (JS.IdStr "7"); Brick.type := "1x1";
       Brick.colour := JS.NoText true;
       Brick.holes := Some [ unconnected 0; connected 1 "1" 0 0 ] |} ].

Definition numeric_base_colour : list Brick.Data :=
  [ {| Brick.id := Some (JS.IdStr "1"); Brick.type := "base";
       Brick.colour := JS.NoText true;
       Brick.holes := Some [ connected 0 "7" 1 0 ] |};
    brick_record "7" "1x1" "blue" [ unconnected 0; connected 1 "1" 0 0 ] ].

(** A page showing nothing yet under the caption of a first structure,
    with [inherited_type] as the second structure. *)
Definition throwing_page : Page.t :=
  {| Page.jsonData :=
       Some [ Some {| Entry.name := Some "First"; Entry.data := Some no_base |};
              Some {| Entry.name := Some "Second"; Entry.data := Some inherited_type |} ];
     Page.currentJsonIndex := 0;
     Page.basePlateMesh := None;
     Page.structureGroup := [];
     Page.disposed := [];
     Page.infoSpan :=
       Some {| textContent := "Displaying: First (1/2)"; style_color := "white" |} |}.

(** The second connection followed in [cyclic], which places brick 3. *)
Definition cyclic_connection : Connection :=
  match connections (scene (buildStructure cyclic)) with
  | _ :: c :: _ => c
  | _ => single_child_connection
  end.

(** A page showing [single_child], with two structures loaded: one without
    a base and [single_child]. *)
Definition two_structures : Page.t :=
  {| Page.jsonData :=
       Some [ Some {| Entry.name := Some "No base"; Entry.data := Some no_base |};
              Some {| Entry.name := None; Entry.data := Some single_child |} ];
     Page.currentJsonIndex := 1;
     Page.basePlateMesh := basePlateMesh (scene (buildStructure single_child));
     Page.structureGroup := structureGroup (scene (buildStructure single_child));
     Page.disposed := [];
     Page.infoSpan := Some Page.loading |}.

(** A page with nothing shown yet, one structure loaded and a [null]
    after it. *)
Definition structure_then_null : Page.t :=
  {| Page.jsonData :=
       Some [ Some {| Entry.name := None; Entry.data := Some single_child |}; None ];
     Page.currentJsonIndex := 0;
     Page.basePlateMesh := None;
     Page.structureGroup := [];
     Page.disposed := [];
     Page.infoSpan := Some Page.loading |}.

(** * Verification *)

#[local] Set Warnings "-clear-no-such-hyp".

(** ** One hole at a time *)

Lemma getBrickDefinition_undefined : getBrickDefinition None = JS.Undefined.
Proof. reflexivity. Qed.

Lemma process_hole_step ix cid cdef cmesh h st :
  hole_step ix cid cdef cmesh h st (process_hole ix cid cdef cmesh h st).
Proof.
  unfold process_hole.
  destruct (Hole.brick h) as [b|] eqn:Hb; [|constructor].
  destruct (Hole.id h) as [holeId|] eqn:Hid; [|constructor].
  destruct (negb (String.eqb (JS.ToString b) "-1")) eqn:Hne; [|constructor].
  destruct (isTopHole cdef holeId) eqn:Htop; [|constructor]. simpl.
  destruct (processed st (JS.ToString b)) eqn:Hp; [constructor|]. simpl.
  destruct (index_get ix (JS.ToString b)) as [child|t] eqn:Hget; simpl.
  - destruct (getBrickDefinition (Some (Brick.type child))) as [con|k|] eqn:Hdef;
      [| |constructor].
    + destruct (Hole.connectedToHole h) as [toHole|] eqn:Hto; [|constructor].
      destruct cdef as [cur|?|]; [|constructor..].
      destruct (HoleOffsets cur holeId) as [bottom|] eqn:Hbot; [|constructor].
      destruct (HoleOffsets con toHole) as [top|] eqn:Htp; [|constructor].
      destruct cmesh as [m|?|]; [|constructor..].
      destruct (getBrickColorHex (Brick.colour child)) as [hex|] eqn:Hhex; [|constructor].
      eapply step_place; [reflexivity..|done|].
      exists b, holeId, toHole, child, con, bottom, top. simpl.
      repeat split; try done.
      apply negb_true_iff, String.eqb_neq in Hne. done.
    + destruct (Hole.connectedToHole h); [|constructor].
      destruct cdef; constructor.
  - destruct t; simpl.
    + rewrite getBrickDefinition_undefined. constructor.
    + eapply step_dangling; [done..|]. by rewrite Hget.
Qed.

(** *** The record index *)

Lemma index_set_own ix k b k' b' :
  own (index_set ix k b) !! k' = Some b' ->
  (k' = k ∧ b' = b ∧ k ≠ "__proto__") ∨ own ix !! k' = Some b'.
Proof.
  unfold index_set. destruct (String.eqb k "__proto__") eqn:E; simpl; [by right|].
  apply String.eqb_neq in E.
  destruct (decide (k = k')) as [->|Hne].
  - rewrite lookup_insert_eq. intros [= <-]. by left.
  - rewrite lookup_insert_ne by done. by right.
Qed.

Lemma index_set_proto ix k b p :
  proto (index_set ix k b) = Some p -> (k = "__proto__" ∧ p = b) ∨ proto ix = Some p.
Proof.
  unfold index_set. destruct (String.eqb k "__proto__") eqn:E; simpl; [|by right].
  apply String.eqb_eq in E. intros [= <-]. by left.
Qed.

Lemma index_ind (P : BrickIndex -> Prop) (decodedData : list Brick.Data) :
  P {| own := ∅; proto := None |} ->
  (forall ix b v, b ∈ decodedData -> Brick.id b = Some v -> P ix ->
                  P (index_set ix (JS.ToString v) b)) ->
  P (index decodedData).
Proof.
  intros H0 Hstep. unfold index.
  assert (Hgen : forall l acc, (forall b, b ∈ l -> b ∈ decodedData) -> P acc ->
    P (foldl (fun ix brickData =>
                match Brick.id brickData with
                | Some v => index_set ix (JS.ToString v) brickData
                | None => ix
                end) acc l)).
  { induction l as [|b l IH]; intros acc Hsub Hacc; simpl; [done|].
    apply IH; [intros; apply Hsub; by right|].
    destruct (Brick.id b) as [v|] eqn:Hid; [|done].
    apply Hstep; [apply Hsub; by left|done..]. }
  by apply Hgen.
Qed.

Lemma index_own decodedData k b :
  own (index decodedData) !! k = Some b ->
  b ∈ decodedData ∧ k ≠ "__proto__" ∧ ∃ v, Brick.id b = Some v ∧ JS.ToString v = k.
Proof.
  revert k b. apply index_ind; simpl.
  - intros k b. by rewrite lookup_empty.
  - intros ix b v Hin Hid IH k' b' [(-> & -> & ?)|H]%index_set_own; eauto.
Qed.

Lemma index_proto decodedData p :
  proto (index decodedData) = Some p ->
  p ∈ decodedData ∧ ∃ v, Brick.id p = Some v ∧ JS.ToString v = "__proto__".
Proof.
  revert p. apply index_ind; simpl; [done|].
  intros ix b v Hin Hid IH p [(E & ->)|H]%index_set_proto; eauto.
Qed.

Lemma index_get_record decodedData k b :
  index_get (index decodedData) k = Record_ b ->
  b ∈ decodedData ∧ ∃ v, Brick.id b = Some v ∧ JS.ToString v = k.
Proof.
  unfold index_get.
  destruct (own (index decodedData) !! k) as [b'|] eqn:Hown.
  - intros [= <-]. apply index_own in Hown as (? & ? & ?). eauto.
  - destruct (proto (index decodedData)) as [p|] eqn:Hp; [|done].
    destruct (String.eqb k "__proto__") eqn:E.
    + apply String.eqb_eq in E as ->. intros [= <-]. by apply index_proto.
    + by destruct (field p k).
Qed.

Lemma index_size decodedData : size (own (index decodedData)) ≤ length decodedData.
Proof.
  unfold index.
  assert (Hgen : forall l acc,
    size (own (foldl (fun ix brickData =>
                match Brick.id brickData with
                | Some v => index_set ix (JS.ToString v) brickData
                | None => ix
                end) acc l)) ≤ size (own acc) + length l).
  { induction l as [|b l IH]; intros acc; simpl; [lia|].
    etrans; [apply IH|].
    destruct (Brick.id b) as [v|]; [|lia].
    unfold index_set. destruct (String.eqb _ _); simpl; [lia|].
    destruct (own acc !! JS.ToString v) eqn:E.
    - rewrite map_size_insert_Some; [lia|]. eauto.
    - rewrite map_size_insert_None by done. lia. }
  etrans; [apply Hgen|]. simpl. rewrite map_size_empty. lia.
Qed.

(** *** The invariant of the loop *)

Lemma emitted_add_brick c st :
  emitted (add_brick c st) = emitted st ++ [(to_brick c, mesh c)].
Proof. unfold emitted. simpl. by rewrite map_app, app_assoc. Qed.

Lemma processed_false st k :
  processed st k = false -> (k ∉ processedBrickIds st) ∧ JS.inherited k = false.
Proof.
  unfold processed. intros [H1 H2]%orb_false_iff. split; [|done].
  by apply bool_decide_eq_false in H1.
Qed.

Lemma Inv_fresh ix st k :
  Inv ix st -> processed st k = false -> threeMeshes st !! k = None.
Proof.
  intros HI [Hk _]%processed_false.
  destruct (threeMeshes st !! k) as [m|] eqn:E; [|done].
  by apply (inv_meshes _ _ HI) in E as [? _].
Qed.

Lemma Inv_mark_processed ix st k :
  Inv ix st -> processed st k = false -> Inv ix (mark_processed k st).
Proof.
  intros [H1 H2 H3 H4 H5 H6 H7 H8] [_ Hk]%processed_false. split; simpl; try done.
  - intros k' m Hk'. destruct (H1 _ _ Hk'). split; [|done].
    apply elem_of_union. by right.
  - intros k' [->%elem_of_singleton|Hin]%elem_of_union; [done|by apply H7].
Qed.

Lemma Inv_shift ix st : Inv ix st -> Inv ix (shift st).
Proof. by intros []. Qed.

Lemma emitted_keys st k m :
  (k, m) ∈ emitted st -> k = "1" ∨ k ∈ map to_brick (connections st).
Proof.
  unfold emitted. intros [Hin|Hin]%elem_of_app.
  - destruct (basePlateMesh st); [|by apply elem_of_nil in Hin].
    apply list_elem_of_singleton in Hin as [= -> _]. by left.
  - right. apply list_elem_of_fmap in Hin as (c & [= -> _] & Hc).
    apply list_elem_of_fmap. by exists c.
Qed.

Lemma Inv_add_brick ix st c :
  Inv ix st -> processed st (to_brick c) = false -> justified ix st c ->
  Inv ix (add_brick c st).
Proof.
  intros HI Hp Hj. pose proof (Inv_fresh _ _ _ HI Hp) as Hfresh.
  destruct (processed_false _ _ Hp) as [_ Hinh].
  destruct HI as [H1 H2 H3 H4 H5 H6 H7 H8].
  assert (Hkeep : forall k m, threeMeshes st !! k = Some m ->
                              threeMeshes (add_brick c st) !! k = Some m).
  { intros k m Hk. simpl. rewrite lookup_insert_ne; [done|]. congruence. }
  split.
  - intros k m. rewrite emitted_add_brick. simpl.
    destruct (decide (to_brick c = k)) as [<-|Hne].
    + rewrite lookup_insert_eq. intros [= <-]. split.
      * apply elem_of_union. left. by apply elem_of_singleton.
      * apply elem_of_app. right. by left.
    + rewrite lookup_insert_ne by done. intros [? ?]%H1. split.
      * apply elem_of_union. by right.
      * apply elem_of_app. by left.
  - intros k m. rewrite emitted_add_brick.
    intros [Hin|Hin%list_elem_of_singleton]%elem_of_app.
    + by apply Hkeep, H2.
    + injection Hin as -> ->. simpl. by rewrite lookup_insert_eq.
  - rewrite emitted_add_brick, map_app. simpl.
    apply NoDup_app. split; [done|]. split; [|apply NoDup_singleton].
    intros k [[k' m] [E Hin]]%list_elem_of_fmap E'%list_elem_of_singleton.
    simpl in E. subst. apply H2 in Hin. congruence.
  - simpl. intros c' [Hin| ->%list_elem_of_singleton]%elem_of_app.
    + destruct (H4 _ Hin) as (pd & cur & pm & hs & ? & ? & ? & ? & ? & ?).
      exists pd, cur, pm, hs. repeat split; try done. by apply Hkeep.
    + destruct Hj as (pd & cur & pm & hs & ? & ? & ? & ? & ? & ?).
      exists pd, cur, pm, hs. repeat split; try done. by apply Hkeep.
  - simpl. by rewrite H5, map_app.
  - simpl. intros pre c' post E.
    destruct post as [|x post _] using rev_ind.
    + apply app_inj_tail in E as [<- <-].
      destruct Hj as (pd & cur & pm & hs & _ & _ & _ & _ & Hpm & _).
      apply H1 in Hpm as [_ Hpm]. by eapply emitted_keys.
    + rewrite app_comm_cons, app_assoc in E. apply app_inj_tail in E as [E _].
      by eapply H6.
  - simpl. intros k [->%elem_of_singleton|Hin]%elem_of_union; [done|by apply H7].
  - done.
Qed.

Lemma forEach_preserves {A : Type} (P : State -> Prop) (f : A -> State -> Completion)
    (l : list A) :
  (forall a st, a ∈ l -> P st -> P (completion_state (f a st))) ->
  forall st, P st -> P (completion_state (forEach f l st)).
Proof.
  induction l as [|a l IH]; intros Hf st HP; simpl; [done|].
  pose proof (Hf a st ltac:(by left) HP) as Ha.
  destruct (f a st) as [st'|st']; simpl in *; [|done].
  apply IH; [|done]. intros a' st'' Hin. apply Hf. by right.
Qed.

Lemma bfs_preserves (P : State -> Prop) ix :
  (forall st, P st -> P (shift st)) ->
  (forall cid st, P st -> P (completion_state (visit ix cid st))) ->
  forall fuel st, P st -> P (scene (bfs fuel ix st)).
Proof.
  intros Hshift Hvisit. induction fuel as [|fuel IH]; intros st HP; simpl.
  - by destruct (queue st).
  - destruct (queue st) as [|cid q]; [done|].
    pose proof (Hvisit cid _ (Hshift _ HP)) as Hv.
    destruct (visit ix cid (shift st)); simpl in *; [by apply IH|done].
Qed.

Lemma JS_get_own {V : Type} (o : gmap string V) k v :
  JS.get o k = JS.Own v -> o !! k = Some v.
Proof.
  unfold JS.get. destruct (o !! k); [by intros [= ->]|]. by destruct (JS.inherited k).
Qed.

Lemma hole_step_Inv ix cid pd cur_def hs cmesh h st r :
  index_get ix cid = Record_ pd ->
  Brick.holes pd = Some hs -> h ∈ hs ->
  hole_step ix cid (getBrickDefinition (Some (Brick.type pd))) cmesh h st r ->
  cur_def = getBrickDefinition (Some (Brick.type pd)) ->
  (forall m, cmesh = JS.Own m -> threeMeshes st !! cid = Some m) ->
  Inv ix st ->
  Inv ix (completion_state r) ∧
  (forall m, cmesh = JS.Own m -> threeMeshes (completion_state r) !! cid = Some m).
Proof.
  intros Hget Hholes Hin Hstep -> Hmesh HI.
  destruct Hstep as [| |b Hb Hp Hf|cur m c Hcur Hm Hfrom Hvia Hp Hfol]; simpl.
  - done.
  - done.
  - split; [by apply Inv_mark_processed|done].
  - split.
    + apply Inv_add_brick; [done..|].
      exists pd, cur, m, hs. rewrite Hfrom, Hvia. repeat split; try done.
      all: try (by apply Hmesh); try (by rewrite <- Hvia).
    + intros m' Hm'. rewrite lookup_insert_ne; [by apply Hmesh|].
      intros E. pose proof (Inv_fresh _ _ _ HI Hp) as Hfresh.
      rewrite E, (Hmesh _ Hm') in Hfresh. done.
Qed.

Lemma visit_Inv ix cid st : Inv ix st -> Inv ix (completion_state (visit ix cid st)).
Proof.
  intros HI. unfold visit.
  destruct (negb (found_truthy (index_get ix cid)) ||
            negb (JS.truthy JS.object (JS.get (threeMeshes st) cid))); [done|].
  destruct (index_get ix cid) as [pd|t] eqn:Hget; simpl;
    [|by rewrite getBrickDefinition_undefined].
  destruct (Brick.holes pd) as [hs|] eqn:Hholes;
    [|by destruct (getBrickDefinition (Some (Brick.type pd)))].
  set (cmesh := JS.get (threeMeshes st) cid).
  assert (Hgoal : Inv ix (completion_state
            (forEach (process_hole ix cid (getBrickDefinition (Some (Brick.type pd))) cmesh)
                     hs st))).
  { apply (forEach_preserves
      (fun s => Inv ix s ∧ forall m, cmesh = JS.Own m -> threeMeshes s !! cid = Some m)).
    - intros h s Hin [HIs Hm].
      eapply hole_step_Inv; eauto using process_hole_step.
    - split; [done|]. intros m Hm. by apply JS_get_own. }
  by destruct (getBrickDefinition (Some (Brick.type pd))).
Qed.

Lemma bfs_Inv ix fuel st : Inv ix st -> Inv ix (scene (bfs fuel ix st)).
Proof.
  apply bfs_preserves; [apply Inv_shift|]. intros. by apply visit_Inv.
Qed.

(** *** Termination of the loop *)

Lemma index_get_not_inherited ix k b :
  index_get ix k = Record_ b -> JS.inherited k = false -> own ix !! k = Some b.
Proof.
  unfold index_get. destruct (own ix !! k); [by intros [= ->]|].
  destruct (proto ix) as [p|]; [|done].
  destruct (String.eqb k "__proto__") eqn:E.
  - apply String.eqb_eq in E as ->. done.
  - by destruct (field p k).
Qed.

Lemma index_get_falsy ix k :
  found_truthy (index_get ix k) = false -> own ix !! k = None.
Proof. unfold index_get. by destruct (own ix !! k). Qed.

Lemma measure_hole_step ix cid cdef cmesh h st r :
  hole_step ix cid cdef cmesh h st r ->
  measure ix (completion_state r) = measure ix st.
Proof.
  intros [| |b Hb Hp Hf|cur m c Hcur Hm Hfrom Hvia Hp Hfol]; simpl; try done.
  - unfold measure, pending. cbn [mark_processed queue processedBrickIds]. f_equal. f_equal.
    apply index_get_falsy, not_elem_of_dom in Hf. set_solver.
  - destruct (processed_false _ _ Hp) as [Hnp Hni].
    destruct Hfol as (b & holeId & toHole & child & con & bottom & top & Hfol).
    destruct Hfol as (_ & _ & _ & _ & _ & Hget & _).
    apply index_get_not_inherited in Hget; [|done].
    assert (Hdom : to_brick c ∈ dom (own ix)) by (apply elem_of_dom; eauto).
    assert (E : dom (own ix) ∖ processedBrickIds st =
                {[to_brick c]} ∪ dom (own ix) ∖ ({[to_brick c]} ∪ processedBrickIds st)).
    { apply set_eq. intros k. destruct (decide (k = to_brick c)); set_solver. }
    assert (Hsize : size (dom (own ix) ∖ processedBrickIds st) =
                    S (size (dom (own ix) ∖ ({[to_brick c]} ∪ processedBrickIds st)))).
    { rewrite E. rewrite size_union by set_solver. by rewrite size_singleton. }
    unfold measure, pending. cbn [add_brick queue processedBrickIds completion_state].
    rewrite length_app, Hsize. cbn [length]. lia.
Qed.

Lemma measure_visit ix cid st :
  measure ix (completion_state (visit ix cid st)) = measure ix st.
Proof.
  unfold visit.
  destruct (negb _ || negb _); [done|].
  destruct (getBrickDefinition (type_of (index_get ix cid))) eqn:Hdef; [| |done];
    (destruct (holes_of (index_get ix cid)) as [hs|]; [|done]);
    apply (forEach_preserves (fun s => measure ix s = measure ix st)); try done;
    intros h s _ <-; eapply measure_hole_step, process_hole_step.
Qed.

Lemma measure_shift ix st cid q :
  queue st = cid :: q -> measure ix st = S (measure ix (shift st)).
Proof. unfold measure, pending, shift. simpl. by intros ->. Qed.

Lemma bfs_terminates ix fuel st :
  measure ix st ≤ fuel -> exhausted (bfs fuel ix st) = false.
Proof.
  revert st. induction fuel as [|fuel IH]; intros st Hm; simpl.
  - destruct (queue st) as [|cid q] eqn:Hq; [done|].
    rewrite (measure_shift _ _ _ _ Hq) in Hm. lia.
  - destruct (queue st) as [|cid q] eqn:Hq; [done|].
    rewrite (measure_shift _ _ _ _ Hq) in Hm.
    pose proof (measure_visit ix cid (shift st)) as Hv.
    destruct (visit ix cid (shift st)) as [st'|st']; simpl in *; [|done].
    apply IH. lia.
Qed.

(** The bound on the iterations never cuts a run short: with more fuel
    the loop gives the same result. *)
Lemma bfs_fuel_irrelevant ix fuel fuel' st :
  exhausted (bfs fuel ix st) = false -> fuel ≤ fuel' ->
  bfs fuel' ix st = bfs fuel ix st.
Proof.
  revert fuel' st. induction fuel as [|fuel IH]; intros fuel' st; simpl.
  - destruct (queue st) eqn:Hq; [|done]. intros _ _. destruct fuel'; simpl; by rewrite Hq.
  - destruct (queue st) as [|cid q] eqn:Hq.
    + intros _ _. destruct fuel'; simpl; by rewrite Hq.
    + intros He Hle. destruct fuel' as [|fuel']; [lia|]. simpl. rewrite Hq.
      destruct (visit ix cid (shift st)); [|done]. apply IH; [done|lia].
Qed.

(** ** The whole run *)

Lemma getBrickDefinition_base : getBrickDefinition (Some "base") = JS.Own brick_base.
Proof. reflexivity. Qed.

(** [buildStructure] either returns early with its first message, or
    throws on the colour of the base found under the key 1, or places that
    base and runs the loop. *)
Lemma build_run fuel structureData :
  (build fuel structureData = Error "Missing or incorrect Base Brick in structure" ∧
   forall b, index_get (index structureData) "1" = Record_ b -> Brick.type b ≠ "base")
  ∨ (∃ baseData,
       index_get (index structureData) "1" = Record_ baseData ∧
       Brick.type baseData = "base" ∧
       getBrickColorHex (Brick.colour baseData) = None ∧
       build fuel structureData = BaseTypeError)
  ∨ ∃ baseData hex,
      index_get (index structureData) "1" = Record_ baseData ∧
      Brick.type baseData = "base" ∧
      getBrickColorHex (Brick.colour baseData) = Some hex ∧
      build fuel structureData =
        bfs fuel (index structureData) (place_base brick_base baseData hex).
Proof.
  unfold build.
  destruct (index_get (index structureData) "1") as [baseData|t] eqn:Hget; [|by left].
  destruct (String.eqb (Brick.type baseData) "base") eqn:E; simpl.
  - apply String.eqb_eq in E. right. rewrite E, getBrickDefinition_base.
    destruct (getBrickColorHex (Brick.colour baseData)) as [hex|] eqn:Hhex.
    + right. by exists baseData, hex.
    + left. by exists baseData.
  - apply String.eqb_neq in E. left. split; [done|]. by intros b [= <-].
Qed.

Lemma base_key structureData baseData :
  index_get (index structureData) "1" = Record_ baseData ->
  JS.key (JS.ToString <$> Brick.id baseData) = "1".
Proof. intros (_ & v & -> & <-)%index_get_record. done. Qed.

Lemma place_base_Inv structureData baseDef baseData hex :
  index_get (index structureData) "1" = Record_ baseData ->
  Inv (index structureData) (place_base baseDef baseData hex).
Proof.
  intros Hk%base_key. unfold place_base. rewrite Hk. split; simpl.
  - intros k m [<- <-]%lookup_singleton_Some. split; [by apply elem_of_singleton|].
    unfold emitted. simpl. by left.
  - unfold emitted. simpl. intros k m [= -> ->]%list_elem_of_singleton.
    apply lookup_insert_eq.
  - unfold emitted. simpl. apply NoDup_singleton.
  - intros c Hc. by apply elem_of_nil in Hc.
  - done.
  - intros pre c post E. by destruct pre.
  - by intros k ->%elem_of_singleton.
  - eauto.
Qed.

Lemma place_base_measure structureData baseDef baseData hex :
  index_get (index structureData) "1" = Record_ baseData ->
  measure (index structureData) (place_base baseDef baseData hex) ≤ length structureData.
Proof.
  intros Hget. pose proof (base_key _ _ Hget) as Hk.
  apply index_get_not_inherited in Hget; [|done].
  unfold measure, pending, place_base. rewrite Hk. cbn [queue processedBrickIds length].
  assert (Hsize : size (dom (own (index structureData))) =
                  S (size (dom (own (index structureData)) ∖ {["1"]}))).
  { assert (E : dom (own (index structureData)) =
                {["1"]} ∪ dom (own (index structureData)) ∖ {["1"]}).
    { apply set_eq. intros k. apply elem_of_dom_2 in Hget.
      destruct (decide (k = "1")); set_solver. }
    rewrite E at 1. rewrite size_union by set_solver. by rewrite size_singleton. }
  pose proof (index_size structureData) as Hle.
  rewrite <- size_dom in Hle. lia.
Qed.

Lemma build_Inv fuel structureData :
  is_error (build fuel structureData) = false ->
  Inv (index structureData) (scene (build fuel structureData)).
Proof.
  destruct (build_run fuel structureData)
    as [[-> _]|[(baseData & Hget & Hty & Hhex & ->)
              |(baseData & hex & Hget & Hty & Hhex & ->)]];
    [done|done|].
  intros _. by apply bfs_Inv, (place_base_Inv _ _ _ _ Hget).
Qed.

Lemma buildStructure_terminates structureData :
  exhausted (buildStructure structureData) = false.
Proof.
  unfold buildStructure.
  destruct (build_run (length structureData) structureData)
    as [[-> _]|[(baseData & Hget & Hty & Hhex & ->)
              |(baseData & hex & Hget & Hty & Hhex & ->)]];
    [done|done|].
  by apply bfs_terminates, place_base_measure.
Qed.

Lemma build_fuel fuel structureData :
  length structureData ≤ fuel -> build fuel structureData = buildStructure structureData.
Proof.
  intros Hle. pose proof (buildStructure_terminates structureData) as Hex.
  unfold buildStructure in *. unfold build in *.
  destruct (index_get (index structureData) "1"); [|done].
  destruct (negb _); [done|].
  destruct (getBrickDefinition _); [|done..].
  destruct (getBrickColorHex _); [|done].
  by apply bfs_fuel_irrelevant.
Qed.

Lemma completed_run r : completed r = true -> r = Complete (scene r).
Proof. by destruct r. Qed.

(** No connection is logged on an early return. *)
Lemma connections_not_error structureData c :
  c ∈ connections (scene (buildStructure structureData)) ->
  is_error (buildStructure structureData) = false.
Proof.
  destruct (buildStructure structureData); try done;
    simpl; intros H; by apply elem_of_nil in H.
Qed.

(** The base plate of a completed run. *)
Lemma run_base structureData st :
  buildStructure structureData = Complete st ->
  ∃ baseData bm,
    index_get (index structureData) "1" = Record_ baseData ∧
    JS.ToString <$> Brick.id baseData = Some "1" ∧
    Brick.type baseData = "base" ∧
    basePlateMesh st = Some bm ∧
    head (emitted st) = Some ("1", bm) ∧
    threeMeshes st !! "1" = Some bm ∧
    position bm = {| x := 0; y := 0; z := 0 |} ∧
    quaternion bm = identity.
Proof.
  intros Hrun.
  destruct (build_run (length structureData) structureData)
    as [[E _]|[(baseData & Hget & Hty & Hhex & E)
              |(baseData & hex & Hget & Hty & Hhex & _)]];
    [unfold buildStructure in Hrun; congruence..|].
  assert (Hok : is_error (buildStructure structureData) = false) by by rewrite Hrun.
  apply build_Inv in Hok. fold (buildStructure structureData) in Hok.
  rewrite Hrun in Hok. simpl in Hok.
  destruct (inv_base _ _ Hok) as (bm & Hbm & Hpos & Hq).
  assert (Hhead : head (emitted st) = Some ("1", bm)).
  { unfold emitted. by rewrite Hbm. }
  exists baseData, bm. split; [done|]. split.
  { apply index_get_record in Hget as (_ & v & -> & <-). done. }
  do 3 (split; [done|]). split; [|done].
  apply (inv_emitted _ _ Hok). unfold emitted. rewrite Hbm. by left.
Qed.

(** The keys [buildStructure] writes to [processedBrickIds] and
    [threeMeshes] are never names of [Object.prototype] members: each has
    passed the test [!processedBrickIds[k]], or is the key 1 of the base.
    In particular no write goes through the [__proto__] accessor, and
    every write creates or overwrites an own property. *)
Lemma written_keys_not_inherited structureData k :
  k ∈ processedBrickIds (scene (buildStructure structureData)) ∨
  is_Some (threeMeshes (scene (buildStructure structureData)) !! k) ->
  JS.inherited k = false.
Proof.
  destruct (is_error (buildStructure structureData)) eqn:E.
  - destruct (buildStructure structureData); try done; simpl;
      (intros [H|[m H]]; [by apply not_elem_of_empty in H|by rewrite lookup_empty in H]).
  - apply build_Inv in E. fold (buildStructure structureData) in E.
    intros [H|[m H]]; [by apply (inv_keys _ _ E)|].
    apply (inv_meshes _ _ E) in H as [H _]. by apply (inv_keys _ _ E).
Qed.

(** ** The catalog and the colour table on concrete arguments *)

Ltac offset :=
  cbn; unfold STUD_SIZE, PLATE_HEIGHT;
  repeat match goal with
         | |- context [Z.rem ?a ?b] =>
             let v := eval vm_compute in (Z.rem a b) in change (Z.rem a b) with v
         | |- context [Z.div ?a ?b] =>
             let v := eval vm_compute in (Z.div a b) in change (Z.div a b) with v
         end;
  do 2 f_equal; lra.

Example base_socket_0 : HoleOffsets brick_base 0 = Some {| x := -3; y := 1.2; z := -3 |}.
Proof. offset. Qed.

Example base_socket_6 : HoleOffsets brick_base 6 = Some {| x := 1; y := 1.2; z := -1 |}.
Proof. offset. Qed.

Example base_socket_15 : HoleOffsets brick_base 15 = Some {| x := 3; y := 1.2; z := 3 |}.
Proof. offset. Qed.

Example socket_3x1_0 : HoleOffsets brick_3x1 0 = Some {| x := -2; y := 1.2; z := 0 |}.
Proof. offset. Qed.

Example socket_3x1_4 : HoleOffsets brick_3x1 4 = Some {| x := 0; y := -1.2; z := 0 |}.
Proof. offset. Qed.

Example socket_3x1_5 : HoleOffsets brick_3x1 5 = Some {| x := 2; y := -1.2; z := 0 |}.
Proof. offset. Qed.

Example socket_2x1_1 : HoleOffsets brick_2x1 1 = Some {| x := 1; y := 1.2; z := 0 |}.
Proof. offset. Qed.

Example socket_2x1_2 : HoleOffsets brick_2x1 2 = Some {| x := -1; y := -1.2; z := 0 |}.
Proof. offset. Qed.

Example socket_1x1_1 : HoleOffsets brick_1x1 1 = Some {| x := 0; y := -1.2; z := 0 |}.
Proof. offset. Qed.

Example top_holes :
  isTopHole (getBrickDefinition (Some "3x1")) 2 = true ∧
  isTopHole (getBrickDefinition (Some "3x1")) 3 = false ∧
  isTopHole (getBrickDefinition (Some "base")) 11 = true ∧
  isTopHole (getBrickDefinition (Some "4x4")) 0 = false ∧
  isTopHole (getBrickDefinition (Some "toString")) 0 = false.
Proof. repeat split; vm_compute; reflexivity. Qed.

Example colours :
  getBrickColorHex (JS.Str "Blue") = Some (JS.Own 0x0000ff%Z) ∧
  getBrickColorHex (JS.Str "ORANGE") = Some (JS.Own 0xffa500%Z) ∧
  getBrickColorHex (JS.Str "teal") = Some (JS.Own 0x888888%Z) ∧
  getBrickColorHex (JS.Str "toString") = Some (JS.Own 0x888888%Z) ∧
  getBrickColorHex JS.Nullish = Some (JS.Own 0x888888%Z).
Proof. repeat split; vm_compute; reflexivity. Qed.

(** The Kelvin sign counts as the letter k. *)
Example colour_kelvin :
  getBrickColorHex (JS.Str ("PIN" +:+ JS.KELVIN_SIGN)) = Some (JS.Own 0xffc0cb%Z).
Proof. vm_compute. reflexivity. Qed.

(** A colour that is not text (5, [true], an array, an object) has no
    method [toLowerCase]: the lookup throws. *)
Example colour_not_text t : getBrickColorHex (JS.NoText t) = None.
Proof. reflexivity. Qed.

Example keys :
  JS.ToString (JS.IdNum 1) = "1" ∧ JS.ToString (JS.IdNum (-1)) = "-1" ∧
  JS.ToString (JS.IdStr "56") = "56".
Proof. repeat split; vm_compute; reflexivity. Qed.

(** A brick whose type names a member of [Object.prototype] passes the
    test [if (connectedBrickDef)]; the call of its [HoleOffsets] throws and
    ends the run with the base alone. *)
Example inherited_type_throws :
  let structureData :=
    [ brick_record "1" "base" "white" [ connected 0 "7" 1 0 ];
      brick_record "7" "constructor" "blue" [ unconnected 0; connected 1 "1" 0 0 ] ] in
  getBrickDefinition (Some "constructor") = JS.Inherited "constructor" ∧
  buildStructure structureData = TypeError (scene (buildStructure structureData)) ∧
  map fst (emitted (scene (buildStructure structureData))) = ["1"].
Proof. repeat split; vm_compute; reflexivity. Qed.

(** ** Vector algebra *)



(** The world matrix of a mesh rotates by its quaternion, then translates
    by its position. *)
Lemma localToWorld_rotate_translate (m : Mesh) (v : Vector3) :
  localToWorld m v = add (applyQuaternion v (quaternion m)) (position m).
Proof.
  unfold localToWorld, matrixWorld, applyMatrix4, compose, applyQuaternion, add.
  cbn [x y z te0 te1 te2 te3 te4 te5 te6 te7 te8 te9 te10 te11 te12 te13 te14 te15].
  f_equal; field.
Qed.

(** ** Every connection followed is an edge of the input *)

Lemma connection_edge structureData c :
  c ∈ connections (scene (buildStructure structureData)) ->
  ∃ P T defP defT s t meshP offS offT,
    traversed structureData c P T defP defT s t ∧
    isTopHole (JS.Own defP) s = true ∧
    HoleOffsets defP s = Some offS ∧ HoleOffsets defT t = Some offT ∧
    (from_brick c, meshP) ∈ emitted (scene (buildStructure structureData)) ∧
    (to_brick c, mesh c) ∈ emitted (scene (buildStructure structureData)) ∧
    position (mesh c) = newBrickPosition meshP (via c) offS offT ∧
    quaternion (mesh c) = worldRotation meshP (via c).
Proof.
  intros Hc. pose proof (connections_not_error _ _ Hc) as Hok.
  apply build_Inv in Hok. fold (buildStructure structureData) in Hok.
  destruct (inv_conn _ _ Hok c Hc)
    as (P & defP & meshP & hs & HP & HdefP & Hhs & Hvia & HmeshP & Hfol).
  destruct Hfol as (b & s & t & T & defT & offS & offT & Hfol).
  destruct Hfol as (Hb & Hto & _ & Hs & Htop & HT & HdefT & Ht & HoffS & HoffT & _ & Hmesh).
  exists P, T, defP, defT, s, t, meshP, offS, offT.
  split; [|split; [done|split; [done|split; [done|split; [|split; [|split]]]]]].
  - unfold traversed. eauto 12.
  - by apply (inv_meshes _ _ Hok) in HmeshP as [_ ?].
  - unfold emitted. apply elem_of_app. right.
    apply list_elem_of_fmap. by exists c.
  - by rewrite Hmesh.
  - by rewrite Hmesh.
Qed.

(** ** Rotations *)






(** *** The quaternion read back from the world matrix *)

Lemma less_true a b : (a < b)%R -> less a b = true.
Proof. intros H. unfold less. by destruct (Rlt_dec a b). Qed.

Lemma less_false a b : (b <= a)%R -> less a b = false.
Proof. intros H. unfold less. destruct (Rlt_dec a b); [lra|done]. Qed.

Lemma sqrt_square_abs a : sqrt (a * a) = Rabs a.
Proof. apply sqrt_Rsqr_abs. Qed.

(** The world matrix of an upright mesh. *)
Lemma matrixWorld_upright m :
  upright (quaternion m) ->
  matrixWorld m =
    {| te0 := 1 - 2 * (qy (quaternion m) * qy (quaternion m)); te1 := 0;
       te2 := - (2 * (qw (quaternion m) * qy (quaternion m))); te3 := 0;
       te4 := 0; te5 := 1; te6 := 0; te7 := 0;
       te8 := 2 * (qw (quaternion m) * qy (quaternion m)); te9 := 0;
       te10 := 1 - 2 * (qy (quaternion m) * qy (quaternion m)); te11 := 0;
       te12 := x (position m); te13 := y (position m); te14 := z (position m);
       te15 := 1 |}%R.
Proof.
  intros (Hx & Hz & _). unfold matrixWorld, compose. cbn [x y z]. rewrite Hx, Hz.
  f_equal; lra.
Qed.

Ltac fractions :=
  try replace 0.5%R with (1 / 2)%R by lra; try replace 0.25%R with (1 / 4)%R by lra.

(** For an upright mesh, of quaternion (0, b, 0, w), the decomposition
    finds scale (1,1,1) and a rotation matrix of trace 3 - 4 b^2.  While
    the trace is positive the quaternion read back has a positive w; from
    there on it has a positive y. *)
Lemma getWorldQuaternion_sign m :
  upright (quaternion m) ->
  let b := qy (quaternion m) in
  let w := qw (quaternion m) in
  getWorldQuaternion m =
    if less (4 * (b * b)) 3
    then (if less 0 w then quaternion m else negate (quaternion m))
    else (if less 0 b then quaternion m else negate (quaternion m)).
Proof.
  intros Hup. pose proof Hup as (Hx & Hz & Hn).
  rewrite getWorldQuaternion_unseal. unfold getWorldQuaternion_def.
  rewrite (matrixWorld_upright m Hup).
  destruct (quaternion m) as [a b c w]. cbn [qx qy qz qw] in *. subst a c.
  unfold decompose, vector_length, determinant.
  cbn [x y z te0 te1 te2 te3 te4 te5 te6 te7 te8 te9 te10 te11 te12 te13 te14 te15].
  assert (E1 : ((1 - 2 * (b * b)) * (1 - 2 * (b * b)) + 0 * 0
                + - (2 * (w * b)) * - (2 * (w * b)) = 1)%R) by nra.
  assert (E2 : (0 * 0 + 1 * 1 + 0 * 0 = 1)%R) by lra.
  assert (E3 : (2 * (w * b) * (2 * (w * b)) + 0 * 0
                + (1 - 2 * (b * b)) * (1 - 2 * (b * b)) = 1)%R) by nra.
  rewrite E1, E2, E3, sqrt_1.
  rewrite less_false by nra.
  replace (1 / 1)%R with 1%R by lra. rewrite !Rmult_1_r.
  unfold setFromRotationMatrix, greater.
  cbn [te0 te1 te2 te3 te4 te5 te6 te7 te8 te9 te10 te11 te12 te13 te14 te15].
  destruct (Rlt_dec 0 (1 - 2 * (b * b) + 1 + (1 - 2 * (b * b)))) as [Ht|Ht].
  - rewrite (less_true _ _ Ht), (less_true (4 * (b * b)) 3) by lra.
    replace (1 - 2 * (b * b) + 1 + (1 - 2 * (b * b)) + 1)%R
      with ((2 * w) * (2 * w))%R by nra.
    rewrite sqrt_square_abs.
    assert (Hw : w <> 0%R) by nra.
    destruct (Rlt_dec 0 w) as [Hpos|Hneg].
    + rewrite (less_true _ _ Hpos), Rabs_pos_eq by lra. f_equal; fractions; field; lra.
    + rewrite (less_false 0 w), Rabs_left by lra. unfold negate. cbn [qx qy qz qw].
      f_equal; fractions; field; lra.
  - rewrite (less_false 0 _), (less_false (4 * (b * b)) 3) by lra.
    rewrite (less_false 1 _) by nra. cbn [andb].
    rewrite (less_true (1 - 2 * (b * b)) 1) by nra.
    replace (1 + 1 - (1 - 2 * (b * b)) - (1 - 2 * (b * b)))%R
      with ((2 * b) * (2 * b))%R by nra.
    rewrite sqrt_square_abs.
    assert (Hb : b <> 0%R) by nra.
    destruct (Rlt_dec 0 b) as [Hpos|Hneg].
    + rewrite (less_true _ _ Hpos), Rabs_pos_eq by lra. f_equal; fractions; field; lra.
    + rewrite (less_false 0 b), Rabs_left by lra. unfold negate. cbn [qx qy qz qw].
      f_equal; fractions; field; lra.
Qed.


Lemma getWorldQuaternion_identity m :
  quaternion m = identity -> getWorldQuaternion m = identity.
Proof.
  intros Hq.
  assert (Hup : upright (quaternion m)).
  { rewrite Hq. unfold upright, identity. simpl. repeat split; lra. }
  rewrite (getWorldQuaternion_sign m Hup), Hq. cbn [identity qy qw].
  rewrite (less_true (4 * (0 * 0)) 3), (less_true 0 1) by lra. done.
Qed.

(** A mesh turned by half a turn in the negative sense: the quaternion
    read back is the opposite of the one the mesh was given. *)
Lemma getWorldQuaternion_half_turn m :
  quaternion m = {| qx := 0; qy := -1; qz := 0; qw := 0 |} ->
  getWorldQuaternion m = {| qx := 0; qy := 1; qz := 0; qw := 0 |}.
Proof.
  intros Hq.
  assert (Hup : upright (quaternion m)).
  { rewrite Hq. unfold upright. simpl. repeat split; lra. }
  rewrite (getWorldQuaternion_sign m Hup), Hq. cbn [qy qw].
  rewrite (less_false (4 * (-1 * -1)) 3), (less_false 0 (-1)) by lra.
  unfold negate. cbn [qx qy qz qw]. f_equal; lra.
Qed.







Lemma emitted_unique_mesh structureData k m1 m2 :
  (k, m1) ∈ emitted (scene (buildStructure structureData)) ->
  (k, m2) ∈ emitted (scene (buildStructure structureData)) -> m1 = m2.
Proof.
  intros H1 H2.
  assert (Hok : is_error (buildStructure structureData) = false).
  { destruct (buildStructure structureData); try done; by apply elem_of_nil in H1. }
  pose proof (build_Inv _ _ Hok) as HI. fold (buildStructure structureData) in HI.
  apply (inv_emitted _ _ HI) in H1, H2. congruence.
Qed.

(** ** C1: transform composition *)









(** ** C2: the base plate *)

(** C2.  Whenever [buildStructure] completes, the base brick (the record
    stored under the id 1, of type base) is emitted first, under the id 1,
    with position (0,0,0) and the identity rotation. *)
Theorem base_at_origin structureData st :
  buildStructure structureData = Complete st ->
  ∃ baseData bm,
    index_get (index structureData) "1" = Record_ baseData ∧
    JS.ToString <$> Brick.id baseData = Some "1" ∧
    Brick.type baseData = "base" ∧
    basePlateMesh st = Some bm ∧
    head (emitted st) = Some ("1", bm) ∧
    threeMeshes st !! "1" = Some bm ∧
    position bm = {| x := 0; y := 0; z := 0 |} ∧
    quaternion bm = identity.
Proof. apply run_base. Qed.

(** On [single_child]: the run completes, the base plate is at the origin. *)
Lemma base_at_origin_witness :
  buildStructure single_child = Complete (scene (buildStructure single_child)) ∧
  ∃ bm, basePlateMesh (scene (buildStructure single_child)) = Some bm ∧
        position bm = {| x := 0; y := 0; z := 0 |} ∧ quaternion bm = identity.
Proof.
  assert (Hrun : buildStructure single_child = Complete (scene (buildStructure single_child))).
  { vm_compute. reflexivity. }
  split; [exact Hrun|].
  destruct (base_at_origin single_child _ Hrun)
    as (baseData & bm & _ & _ & _ & Hbm & _ & _ & Hpos & Hq).
  exists bm. split; [exact Hbm|]. split; [exact Hpos|exact Hq].
Defined.

(** ** C3: missing base *)



(** ** C4: the single child scenario *)

Lemma rotation_zero :
  setFromAxisAngle {| x := 0; y := 1; z := 0 |} (- degToRad 0) = identity.
Proof.
  unfold setFromAxisAngle, degToRad, identity.
  replace (- (0 * DEG2RAD) / 2)%R with 0%R by lra.
  rewrite sin_0, cos_0. cbn [x y z]. f_equal; lra.
Qed.

Lemma applyQuaternion_identity (v : Vector3) : applyQuaternion v identity = v.
Proof. destruct v. unfold applyQuaternion, identity. simpl. f_equal; lra. Qed.

Lemma multiply_identity (q : Quaternion) : multiply identity q = q.
Proof. destruct q. unfold multiply, identity. simpl. f_equal; lra. Qed.

Lemma add_origin (v : Vector3) : add v {| x := 0; y := 0; z := 0 |} = v.
Proof. destruct v. unfold add. simpl. f_equal; lra. Qed.

(** A brick placed on the base: its rotation is the relative rotation
    alone, its position the base socket minus its own rotated socket. *)
Lemma connection_from_base structureData c :
  c ∈ connections (scene (buildStructure structureData)) ->
  from_brick c = "1" ->
  ∃ T defT s t offS offT,
    index_get (index structureData) (to_brick c) = Record_ T ∧
    getBrickDefinition (Some (Brick.type T)) = JS.Own defT ∧
    Hole.id (via c) = Some s ∧ Hole.connectedToHole (via c) = Some t ∧
    HoleOffsets brick_base s = Some offS ∧ HoleOffsets defT t = Some offT ∧
    quaternion (mesh c) =
      setFromAxisAngle {| x := 0; y := 1; z := 0 |}
                       (- degToRad (default 0%R (Hole.orientation (via c)))) ∧
    position (mesh c) = sub offS (applyQuaternion offT (quaternion (mesh c))).
Proof.
  intros Hc Hfrom.
  pose proof (connections_not_error _ _ Hc) as Hok.
  destruct (connection_edge _ _ Hc)
    as (P & T & defP & defT & s & t & meshP & offS & offT & Htr & _ & HoffS & HoffT & HP & _ & Hp & Hr).
  destruct Htr as (HgetP & HdefP & _ & Hs & _ & Ht & HgetT & HdefT).
  rewrite Hfrom in HgetP, HP.
  destruct (build_run (length structureData) structureData)
    as [[E _]|[(baseData & Hget & Hty & Hhex & E)
              |(baseData & hex & Hget & Hty & Hhex & _)]];
    [unfold buildStructure in Hok; by rewrite E in Hok..|].
  rewrite Hget in HgetP. injection HgetP as <-.
  rewrite Hty, getBrickDefinition_base in HdefP. injection HdefP as <-.
  apply build_Inv in Hok. fold (buildStructure structureData) in Hok.
  destruct (inv_base _ _ Hok) as (bm & Hbm & Hpos & Hq).
  assert (EmeshP : meshP = bm).
  { apply (inv_emitted _ _ Hok) in HP.
    assert (Hb : ("1", bm) ∈ emitted (scene (buildStructure structureData))).
    { unfold emitted. rewrite Hbm. by left. }
    apply (inv_emitted _ _ Hok) in Hb. congruence. }
  subst meshP.
  exists T, defT, s, t, offS, offT. do 6 (split; [done|]).
  assert (Hrot : quaternion (mesh c) =
            setFromAxisAngle {| x := 0; y := 1; z := 0 |}
                             (- degToRad (default 0%R (Hole.orientation (via c))))).
  { rewrite Hr. unfold worldRotation.
    by rewrite (getWorldQuaternion_identity _ Hq), multiply_identity. }
  split; [done|].
  rewrite Hp. unfold newBrickPosition.
  rewrite localToWorld_rotate_translate, Hq, Hpos, applyQuaternion_identity, add_origin.
  by rewrite <- Hr.
Qed.

Lemma single_child_run :
  connections (scene (buildStructure single_child)) = [single_child_connection] ∧
  from_brick single_child_connection = "1" ∧
  to_brick single_child_connection = "56" ∧
  via single_child_connection = connected 0 "56" 1 0 ∧
  buildStructure single_child = Complete (scene (buildStructure single_child)).
Proof. repeat split; vm_compute; reflexivity. Qed.

(** C4.  On the input [single_child] (a base, id 1, whose top socket 0
    connects to socket 1 of the 1x1 brick 56 with orientation 0) the run
    completes and emits the base and then brick 56, the latter at position
    (-3, 2.4, -3), for the stud size 2 and the plate height 2.4, with the
    identity rotation. *)
Theorem single_child_placement :
  ∃ baseMesh childMesh,
    buildStructure single_child = Complete (scene (buildStructure single_child)) ∧
    emitted (scene (buildStructure single_child)) = [("1", baseMesh); ("56", childMesh)] ∧
    STUD_SIZE = 2%R ∧ PLATE_HEIGHT = 2.4%R ∧
    position childMesh = {| x := -3; y := 2.4; z := -3 |} ∧
    quaternion childMesh = identity.
Proof.
  destruct single_child_run as (Hconns & Hfrom & Hto & Hvia & Hrun).
  assert (Hin : single_child_connection ∈ connections (scene (buildStructure single_child))).
  { rewrite Hconns. by left. }
  destruct (connection_from_base _ _ Hin Hfrom)
    as (T & defT & s & t & offS & offT & HgetT & HdefT & Hs & Ht & HoffS & HoffT & Hq & Hp).
  rewrite Hto in HgetT. rewrite Hvia in Hs, Ht, Hq.
  assert (ET : index_get (index single_child) "56"
               = Record_ (brick_record "56" "1x1" "blue"
                   [ unconnected 0; connected 1 "1" 0 0 ]))
    by (vm_compute; reflexivity).
  rewrite ET in HgetT. injection HgetT as <-.
  change (getBrickDefinition (Some "1x1") = JS.Own defT) in HdefT.
  assert (E1 : getBrickDefinition (Some "1x1") = JS.Own brick_1x1) by reflexivity.
  rewrite E1 in HdefT. injection HdefT as <-.
  injection Hs as <-. injection Ht as <-.
  change (default 0%R (Hole.orientation (connected 0 "56" 1 0))) with 0%R in Hq.
  rewrite rotation_zero in Hq.
  destruct (run_base _ _ Hrun) as (_ & bm & _ & _ & _ & Hbm & _).
  exists bm, (mesh single_child_connection).
  split; [done|]. split.
  { unfold emitted. rewrite Hbm, Hconns. simpl. by rewrite Hto. }
  split; [done|]. split; [done|]. split; [|done].
  rewrite Hp, Hq, applyQuaternion_identity.
  cbn [HoleOffsets brick_base brick_1x1] in HoffS, HoffT.
  injection HoffS as <-. injection HoffT as <-.
  change (0 `rem` 4)%Z with 0%Z. change (0 `div` 4)%Z with 0%Z.
  unfold sub, STUD_SIZE, PLATE_HEIGHT. cbn [x y z]. f_equal; lra.
Qed.

(** *** The rotated 2x1 scenario

    Brick 7 sits on socket 0 of the base with orientation 90: it is turned
    by a quarter about the Y axis, in the negative sense, and its centre
    lies one stud behind the socket. *)

Lemma quarter_turn :
  setFromAxisAngle {| x := 0; y := 1; z := 0 |} (- degToRad 90)
  = {| qx := 0; qy := - (1 / sqrt 2); qz := 0; qw := 1 / sqrt 2 |}.
Proof.
  unfold setFromAxisAngle, degToRad, DEG2RAD. cbn [x y z].
  replace (- (90 * (PI / 180)) / 2)%R with (- (PI / 4))%R by lra.
  rewrite sin_neg, cos_neg, sin_PI4, cos_PI4. f_equal; lra.
Qed.

Lemma half : (1 / sqrt 2 * (1 / sqrt 2) = 1 / 2)%R.
Proof.
  assert (H : (sqrt 2 * sqrt 2 = 2)%R) by (apply sqrt_sqrt; lra).
  assert (Hpos : (0 < sqrt 2)%R) by (apply sqrt_lt_R0; lra).
  replace (1 / sqrt 2 * (1 / sqrt 2))%R with (1 / (sqrt 2 * sqrt 2))%R by (field; lra).
  rewrite H. lra.
Qed.

Example rotated_2x1_placement :
  ∃ baseMesh childMesh,
    emitted (scene (buildStructure rotated_2x1)) = [("1", baseMesh); ("7", childMesh)] ∧
    quaternion childMesh = {| qx := 0; qy := - (1 / sqrt 2); qz := 0; qw := 1 / sqrt 2 |} ∧
    position childMesh = {| x := -3; y := 2.4; z := -2 |}.
Proof.
  set (c := match connections (scene (buildStructure rotated_2x1)) with
            | c :: _ => c
            | [] => single_child_connection
            end).
  assert (Hrun : connections (scene (buildStructure rotated_2x1)) = [c] ∧
                 from_brick c = "1" ∧ to_brick c = "7" ∧
                 via c = connected 0 "7" 2 90 ∧
                 is_error (buildStructure rotated_2x1) = false)
    by (repeat split; vm_compute; reflexivity).
  destruct Hrun as (Hconns & Hfrom & Hto & Hvia & Hok).
  assert (Hin : c ∈ connections (scene (buildStructure rotated_2x1))).
  { rewrite Hconns. by left. }
  destruct (connection_from_base _ _ Hin Hfrom)
    as (T & defT & s & t & offS & offT & HgetT & HdefT & Hs & Ht & HoffS & HoffT & Hq & Hp).
  rewrite Hto in HgetT. rewrite Hvia in Hs, Ht, Hq.
  assert (ET : index_get (index rotated_2x1) "7"
               = Record_ (brick_record "7" "2x1" "pink"
                   [ unconnected 0; unconnected 1; connected 2 "1" 0 90; unconnected 3 ]))
    by (vm_compute; reflexivity).
  rewrite ET in HgetT. injection HgetT as <-.
  change (getBrickDefinition (Some "2x1") = JS.Own defT) in HdefT.
  assert (E2 : getBrickDefinition (Some "2x1") = JS.Own brick_2x1) by reflexivity.
  rewrite E2 in HdefT. injection HdefT as <-.
  injection Hs as <-. injection Ht as <-.
  change (default 0%R (Hole.orientation (connected 0 "7" 2 90))) with 90%R in Hq.
  rewrite quarter_turn in Hq.
  apply build_Inv in Hok. fold (buildStructure rotated_2x1) in Hok.
  destruct (inv_base _ _ Hok) as (bm & Hbm & _).
  exists bm, (mesh c). split.
  { unfold emitted. rewrite Hbm, Hconns. simpl. by rewrite Hto. }
  split; [done|].
  rewrite Hp, Hq.
  cbn [HoleOffsets brick_base brick_2x1] in HoffS, HoffT.
  injection HoffS as <-. injection HoffT as <-.
  change (0 `rem` 4)%Z with 0%Z. change (0 `div` 4)%Z with 0%Z.
  change (2 <=? 1)%Z with false. change ((2 =? 0)%Z || (2 =? 2)%Z) with true.
  pose proof half as Hh. set (a := (1 / sqrt 2)%R) in *.
  unfold sub, applyQuaternion, STUD_SIZE, PLATE_HEIGHT. cbn [x y z qx qy qz qw].
  f_equal; nra.
Qed.

(** *** A brick on a half-turned brick

    On [half_turn] brick 2 sits on the base with orientation 180 and
    carries brick 3 with orientation 0.  Brick 2 is given the quaternion
    (0, -1, 0, 0); three.js reads its rotation back as (0, 1, 0, 0), and
    that is what brick 3 is given: the opposite of the product of the
    quaternion of brick 2 with the relative rotation, and the same
    rotation. *)

Lemma half_turn_quaternion :
  setFromAxisAngle {| x := 0; y := 1; z := 0 |} (- degToRad 180)
  = {| qx := 0; qy := -1; qz := 0; qw := 0 |}.
Proof.
  unfold setFromAxisAngle, degToRad, DEG2RAD. cbn [x y z].
  replace (- (180 * (PI / 180)) / 2)%R with (- (PI / 2))%R by lra.
  rewrite sin_neg, cos_neg, sin_PI2, cos_PI2. f_equal; lra.
Qed.

Example half_turn_placement :
  ∃ m2 m3,
    map fst (emitted (scene (buildStructure half_turn))) = ["1"; "2"; "3"] ∧
    ("2", m2) ∈ emitted (scene (buildStructure half_turn)) ∧
    ("3", m3) ∈ emitted (scene (buildStructure half_turn)) ∧
    quaternion m2 = {| qx := 0; qy := -1; qz := 0; qw := 0 |} ∧
    quaternion m3 = {| qx := 0; qy := 1; qz := 0; qw := 0 |} ∧
    quaternion m3 = negate (multiply (quaternion m2) identity).
Proof.
  set (c2 := half_turn_connection 0). set (c3 := half_turn_connection 1).
  assert (Hrun : map (fun c => (from_brick c, to_brick c))
                     (connections (scene (buildStructure half_turn)))
                 = [("1", "2"); ("2", "3")] ∧
                 from_brick c2 = "1" ∧ to_brick c2 = "2" ∧
                 from_brick c3 = "2" ∧ to_brick c3 = "3" ∧
                 Hole.orientation (via c2) = Some 180%R ∧
                 Hole.orientation (via c3) = Some 0%R ∧
                 map fst (emitted (scene (buildStructure half_turn))) = ["1"; "2"; "3"])
    by (repeat split; vm_compute; reflexivity).
  destruct Hrun as (Hconns & Hf2 & Ht2 & Hf3 & Ht3 & Ho2 & Ho3 & Hplaced).
  assert (Hlen : length (connections (scene (buildStructure half_turn))) = 2).
  { by rewrite <- (length_map (fun c => (from_brick c, to_brick c))), Hconns. }
  assert (Hin2 : c2 ∈ connections (scene (buildStructure half_turn))).
  { unfold c2, half_turn_connection.
    destruct (connections (scene (buildStructure half_turn))) as [|a [|b l]]; try done.
    by left. }
  assert (Hin3 : c3 ∈ connections (scene (buildStructure half_turn))).
  { unfold c3, half_turn_connection.
    destruct (connections (scene (buildStructure half_turn))) as [|a [|b l]]; try done.
    right. by left. }
  assert (Hem : forall c, c ∈ connections (scene (buildStructure half_turn)) ->
                  (to_brick c, mesh c) ∈ emitted (scene (buildStructure half_turn))).
  { intros c Hc. unfold emitted. apply elem_of_app. right.
    apply list_elem_of_fmap. by exists c. }
  pose proof (Hem _ Hin2) as Hm2. pose proof (Hem _ Hin3) as Hm3.
  rewrite Ht2 in Hm2. rewrite Ht3 in Hm3.
  exists (mesh c2), (mesh c3). do 3 (split; [done|]).
  assert (Hq2 : quaternion (mesh c2) = {| qx := 0; qy := -1; qz := 0; qw := 0 |}).
  { destruct (connection_from_base _ _ Hin2 Hf2)
      as (T & defT & s & t & offS & offT & _ & _ & _ & _ & _ & _ & Hq & _).
    rewrite Hq, Ho2. change (default 0%R (Some 180%R)) with 180%R.
    apply half_turn_quaternion. }
  assert (Hq3 : quaternion (mesh c3) = {| qx := 0; qy := 1; qz := 0; qw := 0 |}).
  { destruct (connection_edge _ _ Hin3)
      as (P & T & defP & defT & s & t & meshP & offS & offT
          & _ & _ & _ & _ & HmP & _ & _ & Hq).
    rewrite Hf3 in HmP. pose proof (emitted_unique_mesh _ _ _ _ HmP Hm2) as ->.
    rewrite Hq. unfold worldRotation.
    rewrite (getWorldQuaternion_half_turn _ Hq2), Ho3.
    change (default 0%R (Some 0%R)) with 0%R.
    rewrite rotation_zero. unfold multiply, identity. cbn [qx qy qz qw]. f_equal; lra. }
  split; [done|]. split; [done|].
  rewrite Hq3, Hq2. unfold negate, multiply, identity. cbn [qx qy qz qw]. f_equal; lra.
Qed.

(** ** C5: the two sockets of an edge coincide *)



(** ** C6: only top sockets are followed *)

Lemma catalog brickType d :
  getBrickDefinition brickType = JS.Own d ->
  d = brick_base ∨ d = brick_3x1 ∨ d = brick_2x1 ∨ d = brick_1x1.
Proof.
  intros H%JS_get_own. unfold BRICK_DEFINITIONS in H.
  apply elem_of_list_to_map in H.
  - repeat (apply elem_of_cons in H as [[= _ <-]|H]; [tauto|]).
    by apply elem_of_nil in H.
  - simpl. apply (bool_decide_unpack _). vm_compute. exact I.
Qed.

Lemma isTopHole_own d s :
  isTopHole (JS.Own d) s = true <->
  IsBase d = true ∨ (IsBase d = false ∧ ∃ ids, TopHoleIds d = Some ids ∧ s ∈ ids).
Proof.
  unfold isTopHole. destruct (IsBase d); [naive_solver|].
  destruct (TopHoleIds d) as [ids|]; [|naive_solver].
  rewrite bool_decide_eq_true. naive_solver.
Qed.

(** C6.  The traversal follows a connection only from a top socket of the
    brick being processed.  (1) Every connection followed leaves from a
    socket [s] of a brick P whose type either is the base or lists [s]
    among its top sockets, and [s] is not among the type's bottom sockets.
    (2) For the base type every socket id counts as top.  (3) The meshes
    in the structure group are exactly those of the connections followed,
    so no brick is emitted in another way. *)
Theorem only_top_sockets_followed structureData :
  (forall c, c ∈ connections (scene (buildStructure structureData)) ->
     ∃ P T defP defT s t,
       traversed structureData c P T defP defT s t ∧
       isTopHole (JS.Own defP) s = true ∧
       (IsBase defP = true ∨
        (IsBase defP = false ∧ ∃ ids, TopHoleIds defP = Some ids ∧ s ∈ ids)) ∧
       (forall ids, BottomHoleIds defP = Some ids -> s ∉ ids)) ∧
  (forall s, isTopHole (getBrickDefinition (Some "base")) s = true) ∧
  structureGroup (scene (buildStructure structureData))
    = map mesh (connections (scene (buildStructure structureData))).
Proof.
  split; [|split].
  - intros c (P & T & defP & defT & s & t & meshP & offS & offT & H)%connection_edge.
    destruct H as (Htr & Htop & _).
    exists P, T, defP, defT, s, t. split; [done|]. split; [done|].
    pose proof (proj1 (isTopHole_own _ _) Htop) as Hcase. split; [done|].
    destruct Htr as (_ & HdefP & _).
    intros ids Hbot Hin.
    destruct (catalog _ _ HdefP) as [E|[E|[E|E]]]; subst defP; simpl in *;
      try discriminate;
      destruct Hcase as [?|(_ & tops & [= <-] & Hs)]; try discriminate;
      injection Hbot as <-;
      repeat (apply elem_of_cons in Hs as [->|Hs];
        [repeat (apply elem_of_cons in Hin as [?|Hin]; [discriminate|]);
         by apply elem_of_nil in Hin|]);
      by apply elem_of_nil in Hs.
  - done.
  - destruct (is_error (buildStructure structureData)) eqn:E.
    + by destruct (buildStructure structureData).
    + apply build_Inv in E. apply E.
Qed.

(** On [single_child]: the connection followed leaves from a top socket. *)
Lemma only_top_sockets_followed_witness :
  single_child_connection ∈ connections (scene (buildStructure single_child)) ∧
  ∃ defP s, isTopHole (JS.Own defP) s = true ∧
            Hole.id (via single_child_connection) = Some s.
Proof.
  assert (Hin : single_child_connection ∈ connections (scene (buildStructure single_child))).
  { vm_compute. left. }
  split; [exact Hin|].
  destruct (proj1 (only_top_sockets_followed single_child) single_child_connection Hin)
    as (P & T & defP & defT & s & t & Htr & Htop & _).
  exists defP, s. split; [exact Htop|]. apply Htr.
Defined.

(** ** C7: later attempts at a processed id *)

Lemma process_hole_visited ix cid cdef cmesh h st b :
  Hole.brick h = Some b -> processed st (JS.ToString b) = true ->
  process_hole ix cid cdef cmesh h st = Normal st.
Proof.
  intros Hb Hp. unfold process_hole. rewrite Hb.
  destruct (Hole.id h); [|done]. rewrite Hp. simpl.
  by destruct (negb _ && _).
Qed.

Lemma emitted_keys_processed ix st k m :
  Inv ix st -> (k, m) ∈ emitted st -> processed st k = true.
Proof.
  intros HI Hin%(inv_emitted _ _ HI). apply (inv_meshes _ _ HI) in Hin as [Hin _].
  unfold processed. by rewrite bool_decide_eq_true_2.
Qed.

(** The theorem for C7 follows the invariants of the traversal, in the
    section on the first visit. *)

(** ** C8: dangling references *)

(** A hole that names an id the lookup in [bricksById] does not find is
    marked, and nothing else changes. *)
Lemma dangling_marked ix cid cdef cmesh h st b s :
  Hole.brick h = Some b -> Hole.id h = Some s ->
  JS.ToString b ≠ "-1" -> isTopHole cdef s = true ->
  processed st (JS.ToString b) = false ->
  found_truthy (index_get ix (JS.ToString b)) = false ->
  process_hole ix cid cdef cmesh h st = Normal (mark_processed (JS.ToString b) st) ∧
  processed (mark_processed (JS.ToString b) st) (JS.ToString b) = true ∧
  emitted (mark_processed (JS.ToString b) st) = emitted st ∧
  queue (mark_processed (JS.ToString b) st) = queue st.
Proof.
  intros Hb Hs Hne Htop Hp Hf. unfold process_hole.
  rewrite Hb, Hs, Htop, Hp, Hf. apply String.eqb_neq in Hne. rewrite Hne. simpl.
  repeat split. unfold processed. simpl.
  rewrite bool_decide_eq_true_2; [done|]. apply elem_of_union. left.
  by apply elem_of_singleton.
Qed.

(** Without a record whose id is [__proto__], an id that no record carries
    is not found, unless [Object.prototype] has a member of that name. *)
Lemma lookup_without_record structureData k :
  (forall r v, r ∈ structureData -> Brick.id r = Some v -> JS.ToString v ≠ "__proto__") ->
  (forall r v, r ∈ structureData -> Brick.id r = Some v -> JS.ToString v ≠ k) ->
  index_get (index structureData) k = Other (JS.inherited k).
Proof.
  intros Hproto Hk. unfold index_get.
  destruct (own (index structureData) !! k) as [r|] eqn:Hown.
  { apply index_own in Hown as (Hin & _ & v & Hid & Hv). by destruct (Hk _ _ Hin Hid). }
  destruct (proto (index structureData)) as [p|] eqn:Hp; [|done].
  apply index_proto in Hp as (Hin & v & Hid & Hv). by destruct (Hproto _ _ Hin Hid).
Qed.

(** So, in a structure without such a record, a followed hole that names
    an id without record leaves the id processed, emits nothing and lets
    the traversal go on. *)
Lemma dangling_reference_skipped structureData cid cdef cmesh h st b :
  (forall r v, r ∈ structureData -> Brick.id r = Some v -> JS.ToString v ≠ "__proto__") ->
  (forall r v, r ∈ structureData -> Brick.id r = Some v -> JS.ToString v ≠ JS.ToString b) ->
  Hole.brick h = Some b -> (∃ s, Hole.id h = Some s ∧ isTopHole cdef s = true) ->
  JS.ToString b ≠ "-1" ->
  ∃ st', process_hole (index structureData) cid cdef cmesh h st = Normal st' ∧
         processed st' (JS.ToString b) = true ∧
         emitted st' = emitted st ∧ queue st' = queue st.
Proof.
  intros Hproto Hk Hb (s & Hs & Htop) Hne.
  destruct (processed st (JS.ToString b)) eqn:Hp.
  - exists st. split; [by eapply process_hole_visited|done].
  - pose proof (lookup_without_record _ _ Hproto Hk) as Hget.
    destruct (processed_false _ _ Hp) as [_ Hinh]. rewrite Hinh in Hget.
    destruct (dangling_marked (index structureData) cid cdef cmesh h st b s)
      as (Hrun & Hmark & Hem & Hq); try done; [by rewrite Hget|].
    eauto.
Qed.

(** C8, at the failing input.  No record of [hijacked] has the id [holes],
    and the base names it from its top socket 0.  The read
    [bricksById["holes"]] is answered by the [holes] array of the record
    installed as prototype, so the script takes the branch for an invalid
    brick type: the run completes with the base alone, and [holes] is not
    marked as processed.  With the base record alone it is. *)
Theorem dangling_not_marked :
  (forall r, r ∈ hijacked -> JS.ToString <$> Brick.id r ≠ Some "holes") ∧
  index_get (index hijacked) "holes" = Other true ∧
  buildStructure hijacked = Complete (scene (buildStructure hijacked)) ∧
  map fst (emitted (scene (buildStructure hijacked))) = ["1"] ∧
  processed (scene (buildStructure hijacked)) "holes" = false ∧
  processed (scene (buildStructure (take 1 hijacked))) "holes" = true.
Proof.
  split.
  { intros r Hr. unfold hijacked in Hr.
    apply elem_of_cons in Hr as [->|Hr]; [done|].
    apply list_elem_of_singleton in Hr as ->. done. }
  repeat split; vm_compute; reflexivity.
Qed.

(** ** C9: socket offsets outside the defined ids *)

Lemma off_plate_run :
  connections (scene (buildStructure off_plate)) = [off_plate_connection] ∧
  from_brick off_plate_connection = "1" ∧
  to_brick off_plate_connection = "2" ∧
  via off_plate_connection = connected 17 "2" 1 0 ∧
  completed (buildStructure off_plate) = true.
Proof. repeat split; vm_compute; reflexivity. Qed.

(** C9, at the failing input.  Socket 17 is not a socket of the base and
    socket 7 is not one of the 3x1 brick, yet [HoleOffsets] returns a
    vector for both, by the rule of the defined sockets: for the base the
    row 17 div 4 = 4, where the comment in the script promises a row index
    from 0 to 3.  The test [instanceof THREE.Vector3] by which
    [buildStructure] means to skip an invalid offset therefore never
    fires: on [off_plate], whose base names brick 2 from the socket 17, the
    run completes and places brick 2 at z = 5, beyond the edge of the
    plate, which reaches from -4 to 4. *)
Theorem offsets_outside_defined_ids :
  BRICK_DEFINITIONS !! "base" = Some brick_base ∧
  (17%Z ∉ socket_ids brick_base) ∧
  HoleOffsets brick_base 17 = Some {| x := -1; y := 1.2; z := 5 |} ∧
  BRICK_DEFINITIONS !! "3x1" = Some brick_3x1 ∧
  (7%Z ∉ socket_ids brick_3x1) ∧
  HoleOffsets brick_3x1 7 = Some {| x := 0; y := -1.2; z := 0 |} ∧
  ¬ offsets_fail_outside_defined_ids ∧
  (∃ baseMesh childMesh,
     buildStructure off_plate = Complete (scene (buildStructure off_plate)) ∧
     emitted (scene (buildStructure off_plate)) = [("1", baseMesh); ("2", childMesh)] ∧
     position childMesh = {| x := -1; y := 2.4; z := 5 |} ∧
     z (Size brick_base) / 2 = 4 ∧
     z (Size brick_base) / 2 < z (position childMesh))%R.
Proof.
  assert (Hbase : BRICK_DEFINITIONS !! "base" = Some brick_base) by reflexivity.
  assert (H17 : 17%Z ∉ socket_ids brick_base).
  { apply (bool_decide_unpack _). vm_compute. exact I. }
  assert (Hoff : HoleOffsets brick_base 17 = Some {| x := -1; y := 1.2; z := 5 |}).
  { cbn [HoleOffsets brick_base].
    change (17 `rem` 4)%Z with 1%Z. change (17 `div` 4)%Z with 4%Z.
    unfold STUD_SIZE, PLATE_HEIGHT. do 2 f_equal; lra. }
  split; [done|]. split; [done|]. split; [done|].
  split; [reflexivity|]. split.
  { apply (bool_decide_unpack _). vm_compute. exact I. }
  split.
  { cbn. unfold PLATE_HEIGHT. do 2 f_equal; lra. }
  split.
  { intros Hclaim. by specialize (Hclaim "base" brick_base 17%Z Hbase H17). }
  destruct off_plate_run as (Hconns & Hfrom & Hto & Hvia & Hrun%completed_run).
  assert (Hin : off_plate_connection ∈ connections (scene (buildStructure off_plate))).
  { rewrite Hconns. by left. }
  destruct (connection_from_base _ _ Hin Hfrom)
    as (T & defT & s & t & offS & offT & HgetT & HdefT & Hs & Ht & HoffS & HoffT & Hq & Hp).
  rewrite Hto in HgetT. rewrite Hvia in Hs, Ht, Hq.
  assert (ET : index_get (index off_plate) "2"
               = Record_ (brick_record "2" "1x1" "blue"
                   [ unconnected 0; connected 1 "1" 17 0 ]))
    by (vm_compute; reflexivity).
  rewrite ET in HgetT. injection HgetT as <-.
  change (getBrickDefinition (Some "1x1") = JS.Own defT) in HdefT.
  assert (E1 : getBrickDefinition (Some "1x1") = JS.Own brick_1x1) by reflexivity.
  rewrite E1 in HdefT. injection HdefT as <-.
  injection Hs as <-. injection Ht as <-.
  change (default 0%R (Hole.orientation (connected 17 "2" 1 0))) with 0%R in Hq.
  rewrite rotation_zero in Hq.
  destruct (run_base _ _ Hrun) as (_ & bm & _ & _ & _ & Hbm & _).
  assert (Hpos : position (mesh off_plate_connection) = {| x := -1; y := 2.4; z := 5 |}).
  { rewrite Hp, Hq, applyQuaternion_identity. rewrite Hoff in HoffS.
    cbn [HoleOffsets brick_1x1] in HoffT.
    injection HoffS as <-. injection HoffT as <-.
    unfold sub, PLATE_HEIGHT. cbn [x y z]. f_equal; lra. }
  exists bm, (mesh off_plate_connection).
  split; [done|]. split.
  { unfold emitted. rewrite Hbm, Hconns. simpl. by rewrite Hto. }
  split; [done|]. rewrite Hpos. cbn [Size brick_base x y z]. unfold STUD_SIZE.
  split; lra.
Qed.

(** For every brick type in the catalog the offset function is total on
    integer socket ids: it always returns a vector, computed by the same
    rule for ids inside and outside the defined ones.  For the base that
    rule is column [s rem 4], row [s div 4]; for the other types the
    offset has z = 0 and lies on the top or the bottom face. *)
Lemma offsets_total name d s :
  BRICK_DEFINITIONS !! name = Some d ->
  ∃ v, HoleOffsets d s = Some v ∧
       (IsBase d = true ->
          v = {| x := (IZR (Z.rem s 4) - 1.5) * STUD_SIZE;
                 y := PLATE_HEIGHT / 2;
                 z := (IZR (s / 4) - 1.5) * STUD_SIZE |}) ∧
       (IsBase d = false ->
          z v = 0%R ∧ (y v = (PLATE_HEIGHT / 2)%R ∨ y v = (- PLATE_HEIGHT / 2)%R)).
Proof.
  intros Hd.
  assert (Hcat : getBrickDefinition (Some name) = JS.Own d).
  { unfold getBrickDefinition, JS.get. simpl. by rewrite Hd. }
  destruct (catalog _ _ Hcat) as [E|[E|[E|E]]]; subst d;
    cbn [HoleOffsets IsBase brick_base brick_3x1 brick_2x1 brick_1x1];
    eexists; (split; [reflexivity|]); (split; [done|]); try done; intros _.
  - cbn [y z]. split; [done|]. destruct (s <=? 2)%Z; tauto.
  - cbn [y z]. split; [done|]. destruct (s <=? 1)%Z; tauto.
  - cbn [y z]. split; [done|]. destruct (s =? 0)%Z; tauto.
Qed.

(** ** C10: the colour lookup *)

(** C10, at the failing input.  [constructor] is no key of [COLOR_MAP], in
    any letter case; the lookup finds the member of that name that
    [COLOR_MAP] inherits from [Object.prototype], which is truthy, and
    returns it instead of the default grey. *)
Theorem color_of_constructor :
  COLOR_MAP !! "constructor" = None ∧
  JS.get COLOR_MAP "default" = JS.Own 0x888888%Z ∧
  getBrickColorHex (JS.Str "constructor") = Some (JS.Inherited "constructor") ∧
  getBrickColorHex (JS.Str "Constructor") = Some (JS.Inherited "constructor") ∧
  getBrickColorHex (JS.Str "__proto__") = Some (JS.Inherited "__proto__").
Proof. repeat split; vm_compute; reflexivity. Qed.

(** What the lookup does on the other names. *)
Lemma color_known name n :
  COLOR_MAP !! JS.toLowerCase name = Some n ->
  getBrickColorHex (JS.Str name) = Some (JS.Own n).
Proof.
  intros H. unfold getBrickColorHex, JS.or, JS.get. simpl. rewrite H. simpl.
  assert (Hn : JS.number n = true); [|by rewrite Hn].
  unfold COLOR_MAP in H. apply elem_of_list_to_map in H.
  - repeat (apply elem_of_cons in H as [E|H]; [by injection E as _ ->|]).
    by apply elem_of_nil in H.
  - simpl. apply (bool_decide_unpack _). vm_compute. exact I.
Qed.

Lemma color_unknown name :
  COLOR_MAP !! JS.toLowerCase name = None -> JS.inherited (JS.toLowerCase name) = false ->
  getBrickColorHex (JS.Str name) = Some (JS.Own 0x888888%Z).
Proof.
  intros H Hi. unfold getBrickColorHex, JS.or, JS.get. simpl. by rewrite H, Hi.
Qed.

Lemma color_missing : getBrickColorHex JS.Nullish = Some (JS.Own 0x888888%Z).
Proof. reflexivity. Qed.

Lemma lower_idempotent c : JS.lower (JS.lower c) = JS.lower c.
Proof.
  destruct c as [[] [] [] [] [] [] [] []]; reflexivity.
Qed.

(** A byte of the upper half is the lower case of itself only. *)
Lemma lower_high c :
  (128 <=? N_of_ascii (JS.lower c))%N = true -> JS.lower c = c.
Proof.
  destruct c as [[] [] [] [] [] [] [] []]; vm_compute; intros H;
    first [reflexivity|discriminate].
Qed.

(** Where no Kelvin sign starts, the first byte is put in lower case. *)
Lemma toLowerCase_cons c s :
  (N_of_ascii c =? 226)%N = false ->
  JS.toLowerCase (String c s) = String (JS.lower c) (JS.toLowerCase s).
Proof.
  intros Hc. simpl. destruct s as [|c2 [|c3 s]]; try done.
  unfold JS.kelvin_sign. by rewrite Hc.
Qed.

Lemma toLowerCase_step c s :
  JS.toLowerCase (String c s) = String (JS.lower c) (JS.toLowerCase s) ∨
  ∃ s', s = String "132" (String "170" s') ∧ c = "226"%char ∧
        JS.toLowerCase (String c s) = String "k" (JS.toLowerCase s').
Proof.
  simpl. destruct s as [|c2 [|c3 s]]; [by left..|].
  destruct (JS.kelvin_sign c c2 c3) eqn:E; [|by left]. right.
  unfold JS.kelvin_sign in E.
  apply andb_true_iff in E as [[E1 E2]%andb_true_iff E3].
  apply N.eqb_eq in E1, E2, E3.
  exists s. split; [|split; [|done]].
  - f_equal; [|f_equal]; rewrite <- (ascii_N_embedding c2) || rewrite <- (ascii_N_embedding c3).
    + by rewrite E2.
    + by rewrite E3.
  - rewrite <- (ascii_N_embedding c). by rewrite E1.
Qed.

(** A byte of the upper half at the head of the result was at the head of
    the argument. *)
Lemma toLowerCase_high s c t :
  JS.toLowerCase s = String c t -> (128 <=? N_of_ascii c)%N = true ->
  ∃ r, s = String c r ∧ t = JS.toLowerCase r.
Proof.
  destruct s as [|d r]; [done|].
  destruct (toLowerCase_step d r) as [->|(s' & -> & -> & ->)].
  - intros [= <- <-] Hc. exists r. by rewrite (lower_high _ Hc).
  - intros [= <- <-] Hc. done.
Qed.

Lemma toLowerCase_idempotent s : JS.toLowerCase (JS.toLowerCase s) = JS.toLowerCase s.
Proof.
  remember (String.length s) as n eqn:Hn. revert s Hn.
  induction n as [n IH] using lt_wf_ind. intros s ->.
  destruct s as [|c s]; [done|].
  destruct (toLowerCase_step c s) as [E|(s' & -> & -> & E)]; rewrite E.
  - destruct (toLowerCase_step (JS.lower c) (JS.toLowerCase s))
      as [E'|(t & Ht & Hc & _)].
    + rewrite E', lower_idempotent. f_equal. apply (IH (String.length s)); [simpl; lia|done].
    + exfalso.
      assert (Hc' : c = "226"%char).
      { rewrite <- Hc. symmetry. apply lower_high. by rewrite Hc. }
      apply toLowerCase_high in Ht as (r & -> & Ht); [|done].
      symmetry in Ht. apply toLowerCase_high in Ht as (r' & -> & Ht); [|done].
      subst c. discriminate E.
  - rewrite toLowerCase_cons by done. f_equal.
    apply (IH (String.length s')); [simpl; lia|done].
Qed.


Lemma color_case_insensitive name :
  getBrickColorHex (JS.Str (JS.toLowerCase name)) = getBrickColorHex (JS.Str name).
Proof. unfold getBrickColorHex. simpl. by rewrite toLowerCase_idempotent. Qed.

(** After [toLowerCase] only two names still reach [Object.prototype]: the
    other members have a capital letter in their name. *)
Lemma toLowerCase_fixed s k : JS.toLowerCase s = k -> JS.toLowerCase k = k.
Proof. intros <-. apply toLowerCase_idempotent. Qed.

Lemma inherited_lower_case name :
  JS.inherited (JS.toLowerCase name) = true ->
  JS.toLowerCase name = "constructor" ∨ JS.toLowerCase name = "__proto__".
Proof.
  intros H. apply bool_decide_eq_true in H.
  pose proof (toLowerCase_fixed name _ eq_refl) as Hfix.
  revert H Hfix. generalize (JS.toLowerCase name). intros k H Hfix.
  unfold JS.Object_prototype in H.
  repeat (apply elem_of_cons in H as [->|H]; [first [by left|by right|by vm_compute in Hfix]|]).
  by apply elem_of_nil in H.
Qed.

(** On text the lookup returns the mapped value of a known name in any
    letter case and the default grey for every other name and for a
    missing name, except for the two names above. *)
Lemma color_lookup name :
  JS.toLowerCase name ≠ "constructor" -> JS.toLowerCase name ≠ "__proto__" ->
  getBrickColorHex (JS.Str name)
  = Some (JS.Own (default 0x888888%Z (COLOR_MAP !! JS.toLowerCase name))).
Proof.
  intros H1 H2. destruct (COLOR_MAP !! JS.toLowerCase name) as [n|] eqn:E; simpl.
  - by apply color_known.
  - apply color_unknown; [done|].
    destruct (JS.inherited (JS.toLowerCase name)) eqn:Hi; [|done].
    by destruct (inherited_lower_case _ Hi).
Qed.

(** * Further properties *)

(** ** What every run keeps true *)

Lemma visit_preserves (P : State -> Prop) ix :
  (forall cid cdef cmesh h st r,
     hole_step ix cid cdef cmesh h st r -> P st -> P (completion_state r)) ->
  forall cid st, P st -> P (completion_state (visit ix cid st)).
Proof.
  intros Hstep cid st HP. unfold visit.
  destruct (negb _ || negb _); [done|].
  destruct (getBrickDefinition (type_of (index_get ix cid))); [| |done];
    (destruct (holes_of (index_get ix cid)) as [hs|]; [|done]);
    apply (forEach_preserves P); try done;
    intros h s _ Hs; (eapply Hstep; [apply process_hole_step|done]).
Qed.

(** A property of the state that the first step establishes and that
    [queue.shift()] and every hole keep holds when the run ends. *)
Lemma run_preserves (P : State -> Prop) structureData :
  (forall baseData hex,
     index_get (index structureData) "1" = Record_ baseData ->
     Brick.type baseData = "base" ->
     getBrickColorHex (Brick.colour baseData) = Some hex ->
     P (place_base brick_base baseData hex)) ->
  (forall st, P st -> P (shift st)) ->
  (forall cid cdef cmesh h st r,
     hole_step (index structureData) cid cdef cmesh h st r -> P st ->
     P (completion_state r)) ->
  is_error (buildStructure structureData) = false ->
  P (scene (buildStructure structureData)).
Proof.
  intros Hbase Hshift Hstep. unfold buildStructure.
  destruct (build_run (length structureData) structureData)
    as [[-> _]|[(baseData & Hget & Hty & Hhex & ->)
              |(baseData & hex & Hget & Hty & Hhex & ->)]];
    [done|done|].
  intros _. apply bfs_preserves; [done| |by apply Hbase].
  by apply visit_preserves.
Qed.

Lemma Consistent_shift ix st : Consistent ix st -> Consistent ix (shift st).
Proof.
  intros [H1 H2 H3]. split; simpl; [|done..].
  intros k Hk. apply H1. destruct (queue st); [done|]. by right.
Qed.

Lemma Consistent_hole_step ix cid cdef cmesh h st r :
  hole_step ix cid cdef cmesh h st r -> Consistent ix st ->
  Consistent ix (completion_state r).
Proof.
  intros [| |b Hb Hp Hf|cur pm c Hcur Hm Hfrom Hvia Hp Hfol] [H1 H2 H3]; simpl;
    [done|done| |].
  - split; simpl; [done| |done].
    intros k [->%elem_of_singleton|Hk]%elem_of_union; [by right|by apply H2].
  - split; simpl.
    + intros k [Hk| ->%list_elem_of_singleton]%elem_of_app.
      * apply lookup_insert_is_Some. destruct (decide (to_brick c = k)); [by left|].
        right. split; [done|]. by apply H1.
      * apply lookup_insert_is_Some. by left.
    + intros k [->%elem_of_singleton|Hk]%elem_of_union.
      * left. apply lookup_insert_is_Some. by left.
      * destruct (H2 _ Hk) as [Hs|Hf]; [|by right]. left.
        apply lookup_insert_is_Some. destruct (decide (to_brick c = k)); [by left|].
        by right.
    + intros k m. destruct (decide (to_brick c = k)) as [<-|Hne].
      * rewrite lookup_insert_eq. intros [= <-].
        destruct Hfol as (b & s & t & T & con & offS & offT & Hfol).
        destruct Hfol as (_ & _ & _ & _ & _ & HT & Hcon & _ & _ & _ & Hhex & Hmesh).
        exists T, con. split; [done|]. split; [done|]. split; [by rewrite Hmesh|done].
      * rewrite lookup_insert_ne by done. apply H3.
Qed.

Lemma Consistent_place_base structureData baseData hex :
  index_get (index structureData) "1" = Record_ baseData ->
  Brick.type baseData = "base" ->
  getBrickColorHex (Brick.colour baseData) = Some hex ->
  Consistent (index structureData) (place_base brick_base baseData hex).
Proof.
  intros Hget Hty Hhex. pose proof (base_key _ _ Hget) as Hk.
  unfold place_base. rewrite Hk. split; simpl.
  - intros k ->%list_elem_of_singleton. rewrite lookup_insert_eq. eauto.
  - intros k ->%elem_of_singleton. left. rewrite lookup_insert_eq. eauto.
  - intros k m [<- <-]%lookup_singleton_Some.
    exists baseData, brick_base. rewrite Hty. done.
Qed.

Lemma build_Consistent structureData :
  is_error (buildStructure structureData) = false ->
  Consistent (index structureData) (scene (buildStructure structureData)).
Proof.
  apply run_preserves.
  - apply Consistent_place_base.
  - apply Consistent_shift.
  - intros. by eapply Consistent_hole_step.
Qed.

(** ** The two causes of a [TypeError] *)

Lemma getBrickDefinition_inherited brickType k :
  getBrickDefinition (Some brickType) = JS.Inherited k -> JS.inherited brickType = true.
Proof.
  unfold getBrickDefinition, JS.get. simpl.
  destruct (BRICK_DEFINITIONS !! brickType); [done|].
  by destruct (JS.inherited brickType).
Qed.

Lemma process_hole_returns ix cid cur m h st :
  (forall k child, index_get ix k = Record_ child ->
                   JS.inherited (Brick.type child) = false ∧
                   is_Some (getBrickColorHex (Brick.colour child))) ->
  ∃ st', process_hole ix cid (JS.Own cur) (JS.Own m) h st = Normal st'.
Proof.
  intros Hty. unfold process_hole.
  destruct (Hole.brick h) as [b|]; [|eauto].
  destruct (Hole.id h) as [holeId|]; [|eauto].
  destruct (negb _ && _); [|eauto].
  destruct (negb _); [|eauto].
  destruct (index_get ix (JS.ToString b)) as [child|t] eqn:Hget; simpl.
  - destruct (getBrickDefinition (Some (Brick.type child))) as [con|k|] eqn:Hdef;
      [| |eauto].
    + destruct (Hole.connectedToHole h) as [toHole|]; [|eauto].
      destruct (HoleOffsets cur holeId); [|eauto].
      destruct (HoleOffsets con toHole); [|eauto].
      destruct (Hty _ _ Hget) as [_ [hex ->]]. eauto.
    + apply getBrickDefinition_inherited in Hdef.
      destruct (Hty _ _ Hget) as [Hinh _]. congruence.
  - destruct t; simpl; [|eauto]. rewrite getBrickDefinition_undefined. eauto.
Qed.

Lemma forEach_returns {A : Type} (f : A -> State -> Completion) (l : list A) st :
  (forall a s, ∃ s', f a s = Normal s') -> ∃ st', forEach f l st = Normal st'.
Proof.
  intros Hf. revert st. induction l as [|a l IH]; intros st; simpl; [eauto|].
  destruct (Hf a st) as [s' ->]. apply IH.
Qed.

Lemma JS_get_stored {V : Type} (o : gmap string V) k v :
  o !! k = Some v -> JS.get o k = JS.Own v.
Proof. unfold JS.get. by intros ->. Qed.

(** The iteration for a brick with a stored mesh: its record is found, its
    type is in the catalog, and the holes of the record are processed in
    order. *)
Lemma visit_stored ix cid st m :
  Consistent ix st -> threeMeshes st !! cid = Some m ->
  ∃ pd d, index_get ix cid = Record_ pd ∧
          getBrickDefinition (Some (Brick.type pd)) = JS.Own d ∧
          visit ix cid st =
            match Brick.holes pd with
            | Some hs => forEach (process_hole ix cid (JS.Own d) (JS.Own m)) hs st
            | None => Normal st
            end.
Proof.
  intros HC Hm. destruct (con_records _ _ HC _ _ Hm) as (pd & d & Hget & Hdef & _).
  exists pd, d. split; [done|]. split; [done|].
  unfold visit. rewrite Hget, (JS_get_stored _ _ _ Hm). simpl. rewrite Hdef. done.
Qed.

Lemma visit_returns ix cid st :
  (forall k child, index_get ix k = Record_ child ->
                   JS.inherited (Brick.type child) = false ∧
                   is_Some (getBrickColorHex (Brick.colour child))) ->
  Consistent ix st -> is_Some (threeMeshes st !! cid) ->
  ∃ st', visit ix cid st = Normal st'.
Proof.
  intros Hty HC [m Hm].
  destruct (visit_stored _ _ _ _ HC Hm) as (pd & d & _ & _ & ->).
  destruct (Brick.holes pd) as [hs|]; [|eauto].
  apply forEach_returns. intros h s. by apply process_hole_returns.
Qed.

Lemma bfs_returns ix fuel st :
  (forall k child, index_get ix k = Record_ child ->
                   JS.inherited (Brick.type child) = false ∧
                   is_Some (getBrickColorHex (Brick.colour child))) ->
  Consistent ix st -> forall st', bfs fuel ix st ≠ TypeError st'.
Proof.
  intros Hty. revert st. induction fuel as [|fuel IH]; intros st HC st'; simpl.
  - by destruct (queue st).
  - destruct (queue st) as [|cid q] eqn:Hq; [done|].
    assert (Hcid : is_Some (threeMeshes (shift st) !! cid)).
    { simpl. apply (con_queue _ _ HC). rewrite Hq. by left. }
    destruct (visit_returns ix cid (shift st) Hty (Consistent_shift _ _ HC) Hcid)
      as [s' Hs'].
    rewrite Hs'. apply IH.
    change s' with (completion_state (Normal s')). rewrite <- Hs'.
    apply visit_preserves; [|by apply Consistent_shift].
    intros. by eapply Consistent_hole_step.
Qed.

(** ** Completeness of the traversal *)

Lemma catalog_offsets brickType d s :
  getBrickDefinition brickType = JS.Own d -> is_Some (HoleOffsets d s).
Proof.
  intros H. destruct (catalog _ _ H) as [E|[E|[E|E]]]; subst d; simpl; eauto.
Qed.

Lemma processed_add_brick c st : processed (add_brick c st) (to_brick c) = true.
Proof.
  unfold processed. simpl. rewrite bool_decide_eq_true_2; [done|].
  apply elem_of_union. left. by apply elem_of_singleton.
Qed.

(** A top-socket hole that names an id leaves that id processed (it was
    so before, is marked as not found, or is placed now), unless the id
    is unplaceable. *)
Lemma process_hole_closes ix cid cur m h st st' b s :
  (∃ brickType, getBrickDefinition brickType = JS.Own cur) ->
  Hole.brick h = Some b -> JS.ToString b ≠ "-1" -> Hole.id h = Some s ->
  isTopHole (JS.Own cur) s = true ->
  process_hole ix cid (JS.Own cur) (JS.Own m) h st = Normal st' ->
  processed st' (JS.ToString b) = true ∨ unplaceable ix h (JS.ToString b).
Proof.
  intros [ty Hcur] Hb Hne Hs Htop. unfold process_hole, unplaceable.
  rewrite Hb, Hs, Htop. apply String.eqb_neq in Hne. rewrite Hne. simpl.
  destruct (processed st (JS.ToString b)) eqn:Hp; simpl; [intros [= <-]; by left|].
  destruct (found_truthy (index_get ix (JS.ToString b))) eqn:Hf.
  - destruct (getBrickDefinition (type_of (index_get ix (JS.ToString b))))
      as [con|k|] eqn:Hdef; [| |intros _; right; by eauto].
    + destruct (Hole.connectedToHole h) as [t|]; [|intros _; right; by eauto].
      destruct (catalog_offsets _ _ s Hcur) as [offS ->].
      destruct (catalog_offsets _ _ t Hdef) as [offT ->].
      destruct (getBrickColorHex _); [|done].
      intros [= <-]. left. apply processed_add_brick.
    + destruct (Hole.connectedToHole h) as [t|]; [done|intros _; right; by eauto].
  - intros [= <-]. left. unfold processed. simpl.
    rewrite bool_decide_eq_true_2; [done|]. apply elem_of_union. left.
    by apply elem_of_singleton.
Qed.

Lemma hole_step_extends ix cid cdef cmesh h st r :
  hole_step ix cid cdef cmesh h st r -> extends st (completion_state r).
Proof.
  intros [| |b Hb Hp Hf|cur pm c Hcur Hm Hfrom Hvia Hp Hfol]; simpl.
  - split; [done|]. exists []. rewrite app_nil_r. eauto.
  - split; [done|]. exists []. rewrite app_nil_r. eauto.
  - split.
    + intros k. unfold processed. simpl.
      intros [Hk%bool_decide_eq_true| ->]%orb_true_iff; [|by rewrite orb_true_r].
      rewrite bool_decide_eq_true_2; [done|]. apply elem_of_union. by right.
    + exists []. rewrite app_nil_r. eauto.
  - split.
    + intros k. unfold processed. simpl.
      intros [Hk%bool_decide_eq_true| ->]%orb_true_iff; [|by rewrite orb_true_r].
      rewrite bool_decide_eq_true_2; [done|]. apply elem_of_union. by right.
    + exists [to_brick c]. split; [done|].
      intros k Hk. cbn [add_brick threeMeshes] in Hk.
      apply lookup_insert_is_Some in Hk as [E|[_ Hk]]; [right|by left].
      rewrite E. by left.
Qed.

Lemma extends_refl st : extends st st.
Proof. split; [done|]. exists []. rewrite app_nil_r. eauto. Qed.

Lemma extends_trans st1 st2 st3 : extends st1 st2 -> extends st2 st3 -> extends st1 st3.
Proof.
  intros [Hp1 (a1 & Hq1 & Hm1)] [Hp2 (a2 & Hq2 & Hm2)]. split; [eauto|].
  exists (a1 ++ a2). split; [by rewrite Hq2, Hq1, app_assoc|].
  intros k [Hk|Hk]%Hm2.
  - destruct (Hm1 _ Hk); [by left|]. right. apply elem_of_app. by left.
  - right. apply elem_of_app. by right.
Qed.

Lemma forEach_extends ix cid cdef cmesh hs st :
  extends st (completion_state (forEach (process_hole ix cid cdef cmesh) hs st)).
Proof.
  apply (forEach_preserves (extends st)); [|apply extends_refl].
  intros h s _ Hs. eapply extends_trans; [done|].
  eapply hole_step_extends, process_hole_step.
Qed.

Lemma visit_extends ix cid st : extends st (completion_state (visit ix cid st)).
Proof.
  unfold visit. destruct (negb _ || negb _); [apply extends_refl|].
  destruct (getBrickDefinition _); [| |apply extends_refl];
    (destruct (holes_of _); [apply forEach_extends|apply extends_refl]).
Qed.

(** After the holes of a brick have been processed without a throw, every
    id one of them names from a top socket is processed or unplaceable. *)
Lemma unplaceable_or_processed ix h k st st' :
  (forall k, processed st k = true -> processed st' k = true) ->
  processed st k = true ∨ unplaceable ix h k ->
  processed st' k = true ∨ unplaceable ix h k.
Proof. intros Hmono [?|?]; [left; by apply Hmono|by right]. Qed.

Lemma forEach_closes ix cid cur m hs st st' :
  (∃ brickType, getBrickDefinition brickType = JS.Own cur) ->
  forEach (process_hole ix cid (JS.Own cur) (JS.Own m)) hs st = Normal st' ->
  forall h b s,
    h ∈ hs ->
    Hole.brick h = Some b -> JS.ToString b ≠ "-1" -> Hole.id h = Some s ->
    isTopHole (JS.Own cur) s = true ->
    processed st' (JS.ToString b) = true ∨ unplaceable ix h (JS.ToString b).
Proof.
  intros Hcur. revert st. induction hs as [|h0 hs IH]; intros st Hrun h b s Hin.
  { by apply elem_of_nil in Hin. }
  simpl in Hrun.
  destruct (process_hole ix cid (JS.Own cur) (JS.Own m) h0 st) as [s1|s1] eqn:Hh0;
    [|done].
  apply elem_of_cons in Hin as [->|Hin]; [|by eapply IH].
  intros Hb Hne Hs Htop.
  pose proof (process_hole_closes _ _ _ _ _ _ _ _ _ Hcur Hb Hne Hs Htop Hh0) as Hp.
  pose proof (forEach_extends ix cid (JS.Own cur) (JS.Own m) hs s1) as [Hext _].
  rewrite Hrun in Hext. by eapply unplaceable_or_processed.
Qed.

Lemma visit_closes ix cid st st' m :
  Consistent ix st -> threeMeshes st !! cid = Some m ->
  visit ix cid st = Normal st' -> closed ix st' cid.
Proof.
  intros HC Hm Hrun.
  destruct (visit_stored _ _ _ _ HC Hm) as (pd & d & Hget & Hdef & Hvisit).
  rewrite Hvisit in Hrun.
  intros h k' (P & hs & b & s & defP & HP & HdefP & Hhs & Hin & Hb & Hk & Hne & Hs & Htop).
  rewrite Hget in HP. injection HP as <-. rewrite Hdef in HdefP. injection HdefP as <-.
  rewrite Hhs in Hrun. subst k'.
  eapply (forEach_closes ix cid d m hs st st'); [by eexists|done|exact Hin|..]; done.
Qed.

(** When the queue runs empty, every brick with a stored mesh is closed. *)
Lemma bfs_closed ix fuel st st' :
  Consistent ix st ->
  (forall k, is_Some (threeMeshes st !! k) -> k ∉ queue st -> closed ix st k) ->
  bfs fuel ix st = Complete st' ->
  forall k, is_Some (threeMeshes st' !! k) -> closed ix st' k.
Proof.
  revert st. induction fuel as [|fuel IH]; intros st HC Hclosed; simpl.
  - destruct (queue st) as [|cid q] eqn:Hq; [|done]. intros [= <-] k Hk.
    apply Hclosed; [done|]. try rewrite Hq. apply not_elem_of_nil.
  - destruct (queue st) as [|cid q] eqn:Hq.
    { intros [= <-] k Hk. apply Hclosed; [done|]. try rewrite Hq. apply not_elem_of_nil. }
    destruct (visit ix cid (shift st)) as [s2|s2] eqn:Hvisit; [|done].
    assert (HC1 : Consistent ix (shift st)) by by apply Consistent_shift.
    assert (HC2 : Consistent ix s2).
    { change s2 with (completion_state (Normal s2)). rewrite <- Hvisit.
      apply visit_preserves; [|done]. intros. by eapply Consistent_hole_step. }
    assert (Hcid : is_Some (threeMeshes (shift st) !! cid)).
    { simpl. apply (con_queue _ _ HC). try rewrite Hq. by left. }
    destruct Hcid as [m Hm].
    pose proof (visit_closes _ _ _ _ _ HC1 Hm Hvisit) as Hcl.
    pose proof (visit_extends ix cid (shift st)) as [Hmono (added & Hqueue & Hnew)].
    rewrite Hvisit in Hmono, Hqueue, Hnew. simpl in Hmono, Hqueue, Hnew.
    rewrite Hq in Hqueue. simpl in Hqueue.
    apply IH; [done|].
    intros k Hk Hnq. destruct (decide (k = cid)) as [->|Hne]; [done|].
    rewrite Hqueue in Hnq. apply not_elem_of_app in Hnq as [Hnq Hna].
    destruct (Hnew _ Hk) as [Hold|Hadd]; [|done].
    intros h k' He. apply (unplaceable_or_processed _ _ _ st); [done|].
    apply (Hclosed k Hold); [|done].
    intros [?|?]%elem_of_cons; done.
Qed.

Lemma place_base_closed structureData baseData hex k :
  index_get (index structureData) "1" = Record_ baseData ->
  is_Some (threeMeshes (place_base brick_base baseData hex) !! k) ->
  k ∈ queue (place_base brick_base baseData hex).
Proof.
  intros Hk%base_key. unfold place_base. rewrite Hk. simpl.
  intros [m [<- _]%lookup_singleton_Some]. by left.
Qed.

(** When a run completes, every placed brick is closed. *)
Lemma complete_run_closed structureData st k m :
  buildStructure structureData = Complete st ->
  (k, m) ∈ emitted st -> closed (index structureData) st k.
Proof.
  intros Hrun Hin.
  assert (Hok : is_error (buildStructure structureData) = false) by by rewrite Hrun.
  pose proof (build_Inv _ _ Hok) as HI. fold (buildStructure structureData) in HI.
  rewrite Hrun in HI. simpl in HI.
  unfold buildStructure in Hrun.
  destruct (build_run (length structureData) structureData)
    as [[E _]|[(baseData & Hget & Hty & Hhex & E)
              |(baseData & hex & Hget & Hty & Hhex & E)]];
    [congruence|congruence|].
  rewrite E in Hrun. eapply bfs_closed; [| |done|].
  - by apply Consistent_place_base.
  - intros k0 Hk0 Hnq. destruct Hnq. by eapply place_base_closed.
  - apply (inv_emitted _ _ HI) in Hin. eauto.
Qed.


Lemma connection_is_edge structureData c :
  c ∈ connections (scene (buildStructure structureData)) ->
  edge (index structureData) (from_brick c) (via c) (to_brick c).
Proof.
  intros Hc. pose proof (connections_not_error _ _ Hc) as Hok.
  apply build_Inv in Hok. fold (buildStructure structureData) in Hok.
  destruct (inv_conn _ _ Hok c Hc)
    as (P & defP & meshP & hs & HP & HdefP & Hhs & Hvia & HmeshP & Hfol).
  destruct Hfol as (b & s & t & T & defT & offS & offT & Hfol).
  destruct Hfol as (Hb & Hto & Hne & Hs & Htop & HT & HdefT & Ht & HoffS & HoffT & _ & Hmesh).
  split; [exists P, hs, b, s, defP; by repeat split|].
  split; [|by exists t, T, defT].
  apply (inv_keys _ _ Hok).
  assert (Hem : (to_brick c, mesh c) ∈ emitted (scene (buildStructure structureData))).
  { unfold emitted. apply elem_of_app. right. apply list_elem_of_fmap. by exists c. }
  apply (inv_emitted _ _ Hok) in Hem. by apply (inv_meshes _ _ Hok) in Hem as [? _].
Qed.



(** ** The bricks placed are the bricks connected to the base *)



Lemma getBrickColorHex_throws colorName :
  getBrickColorHex colorName = None ↔ ∃ t, colorName = JS.NoText t.
Proof.
  destruct colorName as [|s|t]; simpl; split; try done; eauto.
  - by intros [t ?].
  - by intros [t ?].
Qed.

(** X2.  For an array of records (each with an id that is a number or a
    string, a type that is a string, and holes that are an array of hole
    objects where present), a run ends in a [TypeError] in two ways only:
    through a record whose type names a member of [Object.prototype], and
    through a record whose colour is neither text nor [null] nor missing.
    If no record of the input has such a type or such a colour, the run
    either returns early for want of a base or completes. *)
Theorem no_type_error structureData :
  (forall b, b ∈ structureData -> JS.inherited (Brick.type b) = false) ->
  (forall b t, b ∈ structureData -> Brick.colour b ≠ JS.NoText t) ->
  buildStructure structureData = Error "Missing or incorrect Base Brick in structure" ∨
  ∃ st, buildStructure structureData = Complete st.
Proof.
  intros Hty Hcol. pose proof (buildStructure_terminates structureData) as Hterm.
  assert (Hrec : forall k child, index_get (index structureData) k = Record_ child ->
                   JS.inherited (Brick.type child) = false ∧
                   is_Some (getBrickColorHex (Brick.colour child))).
  { intros k child (Hin & _)%index_get_record. split; [by apply Hty|].
    destruct (getBrickColorHex (Brick.colour child)) as [hex|] eqn:E; [eauto|].
    apply getBrickColorHex_throws in E as [t E]. by destruct (Hcol _ t Hin). }
  unfold buildStructure in *.
  destruct (build_run (length structureData) structureData)
    as [[E _]|[(baseData & Hget & Hbase & Hhex & E)
              |(baseData & hex & Hget & Hbase & Hhex & E)]].
  - by left.
  - destruct (Hrec _ _ Hget) as [_ [hex Hhex']]. congruence.
  - right. rewrite E in *.
    destruct (bfs (length structureData) (index structureData)
                  (place_base brick_base baseData hex)) as [msg| |st|st|st] eqn:Hrun.
    + pose proof (bfs_Inv (index structureData) (length structureData) _
                    (place_base_Inv _ brick_base _ hex Hget)) as HI.
      rewrite Hrun in HI. simpl in HI. by destruct (inv_base _ _ HI) as (bm & Hbm & _).
    + pose proof (bfs_Inv (index structureData) (length structureData) _
                    (place_base_Inv _ brick_base _ hex Hget)) as HI.
      rewrite Hrun in HI. simpl in HI. by destruct (inv_base _ _ HI) as (bm & Hbm & _).
    + eauto.
    + exfalso. eapply bfs_returns; [exact Hrec| |exact Hrun].
      by apply Consistent_place_base.
    + done.
Qed.

(** On [cyclic], whose types are base, 2x1 and 1x1 and whose colours are
    names. *)
Lemma no_type_error_witness :
  (forall b, b ∈ cyclic -> JS.inherited (Brick.type b) = false) ∧
  (forall b t, b ∈ cyclic -> Brick.colour b ≠ JS.NoText t) ∧
  (buildStructure cyclic = Error "Missing or incorrect Base Brick in structure" ∨
   ∃ st, buildStructure cyclic = Complete st).
Proof.
  assert (H : forall b, b ∈ cyclic -> JS.inherited (Brick.type b) = false).
  { intros b Hb. unfold cyclic in Hb.
    repeat (apply elem_of_cons in Hb as [->|Hb]; [vm_compute; reflexivity|]).
    by apply elem_of_nil in Hb. }
  assert (H' : forall b t, b ∈ cyclic -> Brick.colour b ≠ JS.NoText t).
  { intros b t Hb. unfold cyclic in Hb.
    repeat (apply elem_of_cons in Hb as [->|Hb]; [discriminate|]).
    by apply elem_of_nil in Hb. }
  split; [exact H|]. split; [exact H'|]. exact (no_type_error cyclic H H').
Defined.

(** Both causes are real: on [inherited_type] the call of [HoleOffsets]
    throws, on [numeric_colour] and on [numeric_base_colour] the call of
    [toLowerCase] does, in the loop and before it. *)
Example type_errors :
  threw (buildStructure inherited_type) = true ∧
  map fst (emitted (scene (buildStructure inherited_type))) = ["1"] ∧
  threw (buildStructure numeric_colour) = true ∧
  map fst (emitted (scene (buildStructure numeric_colour))) = ["1"] ∧
  buildStructure numeric_base_colour = BaseTypeError ∧
  emitted (scene (buildStructure numeric_base_colour)) = [].
Proof. repeat split; vm_compute; reflexivity. Qed.

(** X3.  [buildStructure] has four outcomes: the early return with the
    message for an argument that is not an array, the early return with
    the message for a missing base, a completed traversal, or a
    [TypeError], thrown while the base plate is created or during the
    traversal.  The remaining early return, with the message Invalid Base
    Type Definition, is never taken: the base has passed the test of its
    type being base, which the catalog defines. *)
Theorem outcomes (structureData : option (list Brick.Data)) (p : Page.t) :
  let cleared := Page.clearStructure p in
  match structureData with
  | None =>
      Page.buildStructure structureData p =
        Page.Returned (Page.updateStructureInfo
                         (Some "Invalid Structure Data: Not an array") cleared)
  | Some decodedData =>
      buildStructure decodedData ≠ Error "Invalid Base Type Definition" ∧
      ((buildStructure decodedData = Error "Missing or incorrect Base Brick in structure" ∧
        Page.buildStructure structureData p =
          Page.Returned (Page.updateStructureInfo
                           (Some "Missing or incorrect Base Brick in structure") cleared)) ∨
       (∃ st, buildStructure decodedData = Complete st ∧
              Page.buildStructure structureData p = Page.Returned (Page.show st cleared)) ∨
       (buildStructure decodedData = BaseTypeError ∧
        Page.buildStructure structureData p = Page.Thrown cleared) ∨
       (∃ st, buildStructure decodedData = TypeError st ∧
              Page.buildStructure structureData p = Page.Thrown (Page.show st cleared)))
  end.
Proof.
  cbn zeta. destruct structureData as [decodedData|]; [|reflexivity].
  pose proof (buildStructure_terminates decodedData) as Hterm.
  unfold Page.buildStructure.
  assert (Hmsg : forall msg, buildStructure decodedData = Error msg ->
                   msg = "Missing or incorrect Base Brick in structure").
  { intros msg Hmsg. unfold buildStructure in *.
    destruct (build_run (length decodedData) decodedData)
      as [[E _]|[(baseData & Hget & Hbase & Hhex & E)
                |(baseData & hex & Hget & Hbase & Hhex & E)]]; [congruence..|].
    pose proof (bfs_Inv (index decodedData) (length decodedData) _
                  (place_base_Inv _ brick_base _ hex Hget)) as HI.
    rewrite <- E, Hmsg in HI. simpl in HI.
    by destruct (inv_base _ _ HI) as (bm & Hbm & _). }
  destruct (buildStructure decodedData) as [msg| |st|st|st] eqn:Hrun.
  - rewrite (Hmsg msg eq_refl). split; [done|]. by left.
  - split; [done|]. right. right. by left.
  - split; [done|]. right. left. eauto.
  - split; [done|]. right. right. right. eauto.
  - done.
Qed.

(** ** What a placed brick is *)





(** ** Ids without a record *)

(** X6.  In an input without a record of id [__proto__], when a run
    completes: an id that a hole on a top socket of a placed brick names,
    and that no record carries, is marked as processed and is not placed. *)
Theorem dangling_ids_marked structureData st k m h k' :
  (forall r, r ∈ structureData -> record_key r ≠ Some "__proto__") ->
  (forall r, r ∈ structureData -> record_key r ≠ Some k') ->
  buildStructure structureData = Complete st ->
  (k, m) ∈ emitted st -> names (index structureData) k h k' ->
  processed st k' = true ∧ k' ∉ map fst (emitted st).
Proof.
  intros Hproto Hk' Hrun Hin Hn.
  assert (Hget : index_get (index structureData) k' = Other (JS.inherited k')).
  { apply lookup_without_record.
    - intros r v Hr Hv E. apply (Hproto r Hr). unfold record_key. by rewrite Hv, <- E.
    - intros r v Hr Hv E. apply (Hk' r Hr). unfold record_key. by rewrite Hv, <- E. }
  split.
  - destruct (JS.inherited k') eqn:Hinh; [unfold processed; by rewrite Hinh, orb_true_r|].
    destruct (complete_run_closed _ _ _ _ Hrun Hin _ _ Hn) as [Hp|[Hf _]]; [done|].
    by rewrite Hget in Hf.
  - intros ([k0 m'] & -> & Hin')%list_elem_of_fmap. simpl in *.
    assert (Hok : is_error (buildStructure structureData) = false) by by rewrite Hrun.
    pose proof (build_Inv _ _ Hok) as HI. fold (buildStructure structureData) in HI.
    pose proof (build_Consistent _ Hok) as HC.
    rewrite Hrun in HI, HC. simpl in HI, HC.
    pose proof (inv_emitted _ _ HI _ _ Hin') as Hm.
    destruct (con_records _ _ HC _ _ Hm) as (b & d & Hb & _). congruence.
Qed.

(** On [dangling]: the id 99 is marked and not placed. *)
Lemma dangling_ids_marked_witness :
  buildStructure dangling = Complete (scene (buildStructure dangling)) ∧
  processed (scene (buildStructure dangling)) "99" = true ∧
  ("99" ∉ map fst (emitted (scene (buildStructure dangling)))).
Proof.
  assert (Hrun : buildStructure dangling = Complete (scene (buildStructure dangling))).
  { apply completed_run. vm_compute. reflexivity. }
  split; [exact Hrun|].
  apply (dangling_ids_marked dangling _ "1" white_base_plate (connected 0 "99" 0 0) "99").
  - intros r Hr. unfold dangling in Hr. apply list_elem_of_singleton in Hr as ->. done.
  - intros r Hr. unfold dangling in Hr. apply list_elem_of_singleton in Hr as ->. done.
  - exact Hrun.
  - vm_compute. left.
  - exists (brick_record "1" "base" "white" [ connected 0 "99" 0 0 ]),
           [ connected 0 "99" 0 0 ], (JS.IdStr "99"), 0%Z, brick_base.
    repeat split; try (vm_compute; reflexivity); try done. by left.
Defined.

(** ** The index of the records *)

Lemma index_snoc l b :
  index (l ++ [b]) =
    match Brick.id b with
    | Some v => index_set (index l) (JS.ToString v) b
    | None => index l
    end.
Proof. unfold index. by rewrite foldl_app. Qed.

Lemma index_set_other ix k b k' :
  k ≠ k' -> own (index_set ix k b) !! k' = own ix !! k'.
Proof.
  intros Hne. unfold index_set. destruct (String.eqb k "__proto__"); simpl; [done|].
  by rewrite lookup_insert_ne.
Qed.

Lemma index_set_same ix k b :
  k ≠ "__proto__" -> own (index_set ix k b) !! k = Some b.
Proof.
  intros Hne%String.eqb_neq. unfold index_set. rewrite Hne. simpl.
  apply lookup_insert_eq.
Qed.

Lemma index_get_own ix k b : own ix !! k = Some b -> index_get ix k = Record_ b.
Proof. unfold index_get. by intros ->. Qed.

Lemma own_last_wins l1 b l2 k :
  record_key b = Some k -> k ≠ "__proto__" ->
  (forall b', b' ∈ l2 -> record_key b' ≠ Some k) ->
  own (index (l1 ++ b :: l2)) !! k = Some b.
Proof.
  intros Hb Hk. induction l2 as [|x l2 IH] using rev_ind; intros Hl2.
  - rewrite index_snoc. unfold record_key in Hb.
    destruct (Brick.id b) as [v|]; [|done]. injection Hb as ->.
    by apply index_set_same.
  - rewrite app_comm_cons, app_assoc, index_snoc.
    assert (IH' : own (index (l1 ++ b :: l2)) !! k = Some b).
    { apply IH. intros b' Hb'. apply Hl2, elem_of_app. by left. }
    destruct (Brick.id x) as [v|] eqn:Hx; [|done].
    rewrite index_set_other; [done|].
    intros E. apply (Hl2 x); [apply elem_of_app; right; by left|].
    unfold record_key. rewrite Hx. simpl. by rewrite E.
Qed.

(** X7.  When several records carry the same id, the index keeps the last
    of them: a lookup of the id of a record returns that record, provided
    no later record of the input has the same id (as a string). *)
Theorem last_record_wins l1 b l2 k :
  record_key b = Some k -> k ≠ "__proto__" ->
  (forall b', b' ∈ l2 -> record_key b' ≠ Some k) ->
  index_get (index (l1 ++ b :: l2)) k = Record_ b.
Proof. intros Hb Hk Hl2. by apply index_get_own, own_last_wins. Qed.

(** Two records of id 7 before a record of id 8: the second one is found. *)
Lemma last_record_wins_witness :
  index_get
    (index ([brick_record "7" "1x1" "blue" []] ++ brick_record "7" "2x1" "pink" []
              :: [brick_record "8" "1x1" "green" []])) "7"
  = Record_ (brick_record "7" "2x1" "pink" []).
Proof.
  apply (last_record_wins [brick_record "7" "1x1" "blue" []]
           (brick_record "7" "2x1" "pink" []) [brick_record "8" "1x1" "green" []] "7").
  - reflexivity.
  - done.
  - intros b' Hb'. apply list_elem_of_singleton in Hb' as ->. done.
Defined.

Lemma build_index fuel l l' : index l = index l' -> build fuel l = build fuel l'.
Proof. unfold build. by intros ->. Qed.

Lemma index_without_id l1 b l2 :
  Brick.id b = None -> index (l1 ++ b :: l2) = index (l1 ++ l2).
Proof.
  intros Hb. unfold index. rewrite !foldl_app. simpl. by rewrite Hb.
Qed.

(** X8.  A record without an id is passed over when the index is built
    and nothing else reads the array: the result of [buildStructure] is the
    same with and without it. *)
Theorem record_without_id_ignored l1 b l2 :
  Brick.id b = None ->
  buildStructure (l1 ++ b :: l2) = buildStructure (l1 ++ l2).
Proof.
  intros Hb. unfold buildStructure at 1.
  rewrite (build_index _ _ (l1 ++ l2)) by by apply index_without_id.
  apply build_fuel. rewrite !length_app. simpl. lia.
Qed.

(** [single_child] with a record without an id between its two records. *)
Lemma record_without_id_ignored_witness :
  buildStructure
    (take 1 single_child ++
     {| Brick.id := None; Brick.type := "3x1"; Brick.colour := JS.Nullish; Brick.holes := None |}
       :: drop 1 single_child)
  = buildStructure (take 1 single_child ++ drop 1 single_child).
Proof.
  apply (record_without_id_ignored (take 1 single_child)
           {| Brick.id := None; Brick.type := "3x1"; Brick.colour := JS.Nullish;
              Brick.holes := None |} (drop 1 single_child)).
  reflexivity.
Defined.

Lemma index_own_nodup l k b :
  NoDup (omap record_key l) -> b ∈ l -> record_key b = Some k -> k ≠ "__proto__" ->
  own (index l) !! k = Some b.
Proof.
  intros Hnd Hin Hb Hk.
  apply list_elem_of_split in Hin as (l1 & l2 & ->).
  apply own_last_wins; [done..|].
  intros b' Hb' E.
  rewrite omap_app in Hnd. apply NoDup_app in Hnd as (_ & _ & Hnd).
  simpl in Hnd. rewrite Hb in Hnd. apply NoDup_cons in Hnd as [Hnd _].
  apply Hnd. apply list_elem_of_omap. by exists b'.
Qed.

Lemma proto_last_wins l1 b l2 :
  record_key b = Some "__proto__" ->
  (forall b', b' ∈ l2 -> record_key b' ≠ Some "__proto__") ->
  proto (index (l1 ++ b :: l2)) = Some b.
Proof.
  intros Hb. induction l2 as [|x l2 IH] using rev_ind; intros Hl2.
  - rewrite index_snoc. unfold record_key in Hb.
    destruct (Brick.id b) as [v|]; [|done]. injection Hb as ->. done.
  - rewrite app_comm_cons, app_assoc, index_snoc.
    assert (IH' : proto (index (l1 ++ b :: l2)) = Some b).
    { apply IH. intros b' Hb'. apply Hl2, elem_of_app. by left. }
    destruct (Brick.id x) as [v|] eqn:Hx; [|done].
    unfold index_set. destruct (String.eqb (JS.ToString v) "__proto__") eqn:E; [|done].
    apply String.eqb_eq in E. destruct (Hl2 x); [apply elem_of_app; right; by left|].
    unfold record_key. rewrite Hx. simpl. by rewrite E.
Qed.

Lemma index_proto_nodup l p :
  NoDup (omap record_key l) -> p ∈ l -> record_key p = Some "__proto__" ->
  proto (index l) = Some p.
Proof.
  intros Hnd Hin Hp.
  apply list_elem_of_split in Hin as (l1 & l2 & ->).
  apply proto_last_wins; [done|].
  intros b' Hb' E.
  rewrite omap_app in Hnd. apply NoDup_app in Hnd as (_ & _ & Hnd).
  simpl in Hnd. rewrite Hp in Hnd. apply NoDup_cons in Hnd as [Hnd _].
  apply Hnd. apply list_elem_of_omap. by exists b'.
Qed.

Lemma index_Permutation l l' :
  l ≡ₚ l' -> NoDup (omap record_key l) -> index l = index l'.
Proof.
  intros Hperm Hnd.
  assert (Hnd' : NoDup (omap record_key l')) by by rewrite <- Hperm.
  assert (Hown : forall l l', l ≡ₚ l' -> NoDup (omap record_key l') ->
            forall k b, own (index l) !! k = Some b -> own (index l') !! k = Some b).
  { intros m m' Hp Hn k b (Hin & Hk & v & Hv & <-)%index_own.
    apply index_own_nodup; [done|by rewrite <- Hp| |done].
    unfold record_key. by rewrite Hv. }
  assert (Hproto : forall l l', l ≡ₚ l' -> NoDup (omap record_key l') ->
            forall p, proto (index l) = Some p -> proto (index l') = Some p).
  { intros m m' Hp Hn p (Hin & v & Hv & E)%index_proto.
    apply index_proto_nodup; [done|by rewrite <- Hp|].
    unfold record_key. by rewrite Hv, <- E. }
  assert (E1 : own (index l) = own (index l')).
  { apply map_eq. intros k.
    destruct (own (index l) !! k) as [b|] eqn:E.
    - symmetry. by eapply Hown.
    - destruct (own (index l') !! k) as [b|] eqn:E'; [|done].
      apply (Hown l' l) in E'; [congruence|done..]. }
  assert (E2 : proto (index l) = proto (index l')).
  { destruct (proto (index l)) as [p|] eqn:E.
    - symmetry. by eapply Hproto.
    - destruct (proto (index l')) as [p|] eqn:E'; [|done].
      apply (Hproto l' l) in E'; [congruence|done..]. }
  destruct (index l), (index l'). simpl in *. by subst.
Qed.

(** X9.  For an input whose records have pairwise different ids (as
    strings), the result of [buildStructure] does not depend on the order
    of the records in the array: the traversal order comes from the holes
    alone. *)
Theorem record_order_irrelevant l l' :
  l ≡ₚ l' -> NoDup (omap record_key l) ->
  buildStructure l = buildStructure l'.
Proof.
  intros Hperm Hnd. unfold buildStructure.
  rewrite (Permutation_length Hperm).
  by apply build_index, index_Permutation.
Qed.

(** [single_child] with its two records swapped. *)
Lemma record_order_irrelevant_witness :
  buildStructure single_child = buildStructure (reverse single_child).
Proof.
  apply (record_order_irrelevant single_child (reverse single_child)).
  - symmetry. apply reverse_Permutation.
  - vm_compute. repeat constructor; set_solver.
Defined.

(** ** Induction over the bricks placed *)



(** ** Bricks stay upright *)




(** ** Heights *)








(** ** The sockets of the catalog *)

Lemma catalog_entry name d :
  BRICK_DEFINITIONS !! name = Some d ->
  d = brick_base ∨ d = brick_3x1 ∨ d = brick_2x1 ∨ d = brick_1x1.
Proof.
  intros H. apply (catalog (Some name)). unfold getBrickDefinition, JS.get. simpl.
  by rewrite H.
Qed.

Ltac socket_cases H :=
  repeat (apply elem_of_cons in H as [->|H]; [|]); [..|by apply elem_of_nil in H].

Ltac socket_value :=
  cbn; unfold STUD_SIZE, PLATE_HEIGHT;
  repeat match goal with
         | |- context [Z.rem ?a ?b] =>
             let v := eval vm_compute in (Z.rem a b) in change (Z.rem a b) with v
         | |- context [Z.div ?a ?b] =>
             let v := eval vm_compute in (Z.div a b) in change (Z.div a b) with v
         | |- context [bool_decide ?P] =>
             let v := eval vm_compute in (bool_decide P) in change (bool_decide P) with v
         end.

(** X13.  Every socket a catalog type defines has its offset on the brick:
    on the top face if it is a top socket and on the bottom face if not,
    and at least half a stud inside the outline of the brick in x and in
    z. *)
Theorem sockets_on_faces name d s :
  BRICK_DEFINITIONS !! name = Some d -> s ∈ socket_ids d ->
  ∃ v, HoleOffsets d s = Some v ∧
       (Rabs (x v) <= x (Size d) / 2 - STUD_SIZE / 2)%R ∧
       (Rabs (z v) <= z (Size d) / 2 - STUD_SIZE / 2)%R ∧
       y v = (if isTopHole (JS.Own d) s then y (Size d) / 2 else - (y (Size d) / 2))%R.
Proof.
  intros Hd Hs.
  destruct (catalog_entry _ _ Hd) as [E|[E|[E|E]]]; subst d;
    unfold socket_ids in Hs; simpl in Hs; socket_cases Hs;
    (eexists; split; [reflexivity|]);
    (split; [|split]); socket_value;
    try (apply Rabs_le; lra); lra.
Qed.

(** On the 3x1 brick and its bottom socket 5. *)
Lemma sockets_on_faces_witness :
  BRICK_DEFINITIONS !! "3x1" = Some brick_3x1 ∧ (5%Z ∈ socket_ids brick_3x1) ∧
  ∃ v, HoleOffsets brick_3x1 5 = Some v ∧ y v = (- (y (Size brick_3x1) / 2))%R.
Proof.
  assert (Hd : BRICK_DEFINITIONS !! "3x1" = Some brick_3x1) by reflexivity.
  assert (Hs : 5%Z ∈ socket_ids brick_3x1).
  { apply (bool_decide_unpack _). vm_compute. exact I. }
  split; [exact Hd|]. split; [exact Hs|].
  destruct (sockets_on_faces "3x1" brick_3x1 5 Hd Hs) as (v & Hv & _ & _ & Hy).
  exists v. split; [exact Hv|exact Hy].
Defined.

Lemma Some_vector_eq (a b : Vector3) :
  Some a = Some b -> x a = x b ∧ y a = y b ∧ z a = z b.
Proof. by intros [= ->]. Qed.

(** X14.  Within one catalog type, different sockets have different
    offsets: no two of the sockets a type defines lie at the same point of
    the brick. *)
Theorem sockets_distinct name d s s' :
  BRICK_DEFINITIONS !! name = Some d ->
  s ∈ socket_ids d -> s' ∈ socket_ids d -> s ≠ s' ->
  HoleOffsets d s ≠ HoleOffsets d s'.
Proof.
  intros Hd Hs Hs' Hne E.
  destruct (catalog_entry _ _ Hd) as [E'|[E'|[E'|E']]]; subst d;
    unfold socket_ids in Hs, Hs'; simpl in Hs, Hs';
    socket_cases Hs; socket_cases Hs'; try done;
    apply Some_vector_eq in E; revert E; socket_value; intros (Ex & Ey & Ez); lra.
Qed.

(** On the base plate: the sockets 4 and 7, both in the second row. *)
Lemma sockets_distinct_witness :
  BRICK_DEFINITIONS !! "base" = Some brick_base ∧
  (4%Z ∈ socket_ids brick_base) ∧ (7%Z ∈ socket_ids brick_base) ∧
  HoleOffsets brick_base 4 ≠ HoleOffsets brick_base 7.
Proof.
  assert (Hd : BRICK_DEFINITIONS !! "base" = Some brick_base) by reflexivity.
  assert (H4 : 4%Z ∈ socket_ids brick_base).
  { apply (bool_decide_unpack _). vm_compute. exact I. }
  assert (H7 : 7%Z ∈ socket_ids brick_base).
  { apply (bool_decide_unpack _). vm_compute. exact I. }
  split; [exact Hd|]. split; [exact H4|]. split; [exact H7|].
  apply (sockets_distinct "base" brick_base 4 7 Hd H4 H7). discriminate.
Defined.

(** X15.  On the bricks other than the base, the bottom sockets mirror
    the top sockets: a type lists as many bottom sockets as top sockets,
    and the i-th bottom socket lies straight below the i-th top socket, on
    the opposite face. *)
Theorem bottom_sockets_mirror_top name d tops bottoms :
  BRICK_DEFINITIONS !! name = Some d ->
  TopHoleIds d = Some tops -> BottomHoleIds d = Some bottoms ->
  length tops = length bottoms ∧
  forall i s s',
    tops !! i = Some s -> bottoms !! i = Some s' ->
    ∃ v v', HoleOffsets d s = Some v ∧ HoleOffsets d s' = Some v' ∧
            x v' = x v ∧ z v' = z v ∧ y v' = (- y v)%R.
Proof.
  intros Hd Ht Hb.
  destruct (catalog_entry _ _ Hd) as [E|[E|[E|E]]]; subst d; simpl in Ht, Hb;
    try discriminate; injection Ht as <-; injection Hb as <-; (split; [done|]);
    intros i s s' Hs Hs';
    repeat (destruct i as [|i]; [injection Hs as <-; injection Hs' as <-|]);
    try discriminate;
    (eexists; eexists; split; [reflexivity|]; split; [reflexivity|]);
    (split; [|split]); socket_value; lra.
Qed.

(** On the 2x1 brick. *)
Lemma bottom_sockets_mirror_top_witness :
  BRICK_DEFINITIONS !! "2x1" = Some brick_2x1 ∧
  ∃ v v', HoleOffsets brick_2x1 1 = Some v ∧ HoleOffsets brick_2x1 3 = Some v' ∧
          x v' = x v ∧ z v' = z v ∧ y v' = (- y v)%R.
Proof.
  assert (Hd : BRICK_DEFINITIONS !! "2x1" = Some brick_2x1) by reflexivity.
  split; [exact Hd|].
  exact (proj2 (bottom_sockets_mirror_top "2x1" brick_2x1 [0; 1]%Z [2; 3]%Z
                  Hd eq_refl eq_refl) 1%nat 1%Z 3%Z eq_refl eq_refl).
Defined.

(** ** The page *)

Lemma remove_children_all children disposed :
  Page.remove_children children disposed = ([], disposed ++ children).
Proof.
  revert disposed. induction children as [|child children IH]; intros disposed; simpl.
  - by rewrite app_nil_r.
  - by rewrite IH, <- app_assoc.
Qed.

Lemma clearStructure_eq p :
  Page.clearStructure p =
    {| Page.jsonData := Page.jsonData p;
       Page.currentJsonIndex := Page.currentJsonIndex p;
       Page.basePlateMesh := None;
       Page.structureGroup := [];
       Page.disposed := Page.disposed p ++ Page.structureGroup p
                        ++ option_list (Page.basePlateMesh p);
       Page.infoSpan := Page.infoSpan p |}.
Proof.
  unfold Page.clearStructure. rewrite remove_children_all. f_equal.
  destruct (Page.basePlateMesh p); simpl; by rewrite <- ?app_assoc, ?app_nil_r.
Qed.

(** X16.  [clearStructure] empties the scene and frees what it held: the
    structure group is left without children and the base plate is unset;
    each mesh of the group, in order, and then the base plate are disposed
    once, and nothing else is.  On a cleared page it does nothing. *)
Theorem clearStructure_disposes p :
  Page.structureGroup (Page.clearStructure p) = [] ∧
  Page.basePlateMesh (Page.clearStructure p) = None ∧
  Page.disposed (Page.clearStructure p) =
    Page.disposed p ++ Page.structureGroup p ++ option_list (Page.basePlateMesh p) ∧
  Page.jsonData (Page.clearStructure p) = Page.jsonData p ∧
  Page.currentJsonIndex (Page.clearStructure p) = Page.currentJsonIndex p ∧
  Page.infoSpan (Page.clearStructure p) = Page.infoSpan p ∧
  Page.clearStructure (Page.clearStructure p) = Page.clearStructure p.
Proof.
  rewrite !clearStructure_eq. simpl. repeat split. by rewrite !app_nil_r.
Qed.

Lemma updateStructureInfo_globals errorMsg p :
  Page.jsonData (Page.updateStructureInfo errorMsg p) = Page.jsonData p ∧
  Page.currentJsonIndex (Page.updateStructureInfo errorMsg p) = Page.currentJsonIndex p ∧
  Page.basePlateMesh (Page.updateStructureInfo errorMsg p) = Page.basePlateMesh p ∧
  Page.structureGroup (Page.updateStructureInfo errorMsg p) = Page.structureGroup p ∧
  Page.disposed (Page.updateStructureInfo errorMsg p) = Page.disposed p.
Proof. unfold Page.updateStructureInfo. by destruct (Page.infoSpan p). Qed.

Lemma buildStructure_globals structureData p :
  Page.jsonData (Page.page (Page.buildStructure structureData p)) = Page.jsonData p ∧
  Page.currentJsonIndex (Page.page (Page.buildStructure structureData p))
    = Page.currentJsonIndex p.
Proof.
  unfold Page.buildStructure. rewrite clearStructure_eq.
  destruct structureData as [decodedData|]; simpl.
  - destruct (buildStructure decodedData); simpl; try done.
    unfold Page.updateStructureInfo. simpl. by destruct (Page.infoSpan p).
  - unfold Page.updateStructureInfo. simpl. by destruct (Page.infoSpan p).
Qed.

Lemma click_index p l :
  Page.jsonData p = Some l -> l ≠ [] ->
  Page.jsonData (Page.click p) = Some l ∧
  Page.currentJsonIndex (Page.click p) = (Page.currentJsonIndex p + 1) mod length l.
Proof.
  intros Hl Hne. unfold Page.click, Page.cycleStructure. rewrite Hl.
  destruct l as [|e0 l']; [done|]. cbn zeta.
  set (i := (Page.currentJsonIndex p + 1) mod length (e0 :: l')).
  set (p1 := Page.set_index i p).
  change (Page.currentJsonIndex p1) with i.
  assert (H1 : Page.jsonData p1 = Some (e0 :: l') ∧ Page.currentJsonIndex p1 = i) by done.
  destruct H1 as [H1 H2].
  assert (Hinv : forall msg,
    Page.jsonData (Page.page (Page.Returned (Page.updateStructureInfo msg p1)))
      = Some (e0 :: l') ∧
    Page.currentJsonIndex (Page.page (Page.Returned (Page.updateStructureInfo msg p1))) = i).
  { intros msg. cbn [Page.page].
    destruct (updateStructureInfo_globals msg p1) as (-> & -> & _). done. }
  destruct ((e0 :: l') !! i) as [[e|]|]; [|apply Hinv..].
  destruct (Entry.data e) as [d|]; [|apply Hinv].
  destruct (buildStructure_globals (Some d) p1) as [E1 E2].
  destruct (Page.buildStructure (Some d) p1) as [p2|p2]; cbn [Page.page] in *.
  - destruct (updateStructureInfo_globals None p2) as (-> & -> & _). by rewrite E1, E2.
  - by rewrite E1, E2.
Qed.

Lemma click_infoSpan p :
  is_Some (Page.infoSpan (Page.click p)) ↔ is_Some (Page.infoSpan p).
Proof.
  assert (Hupd : forall msg q,
    is_Some (Page.infoSpan (Page.updateStructureInfo msg q)) ↔ is_Some (Page.infoSpan q)).
  { intros msg q. unfold Page.updateStructureInfo.
    destruct (Page.infoSpan q) eqn:E; simpl; [|by rewrite E]. split; eauto. }
  unfold Page.click, Page.cycleStructure.
  destruct (Page.jsonData p) as [[|e0 l']|]; [done| |done]. cbn zeta.
  set (i := (Page.currentJsonIndex p + 1) mod length (e0 :: l')).
  change (Page.currentJsonIndex (Page.set_index i p)) with i.
  assert (Hinv : forall msg,
    is_Some (Page.infoSpan
               (Page.page (Page.Returned (Page.updateStructureInfo msg (Page.set_index i p)))))
    ↔ is_Some (Page.infoSpan p)).
  { intros msg. cbn [Page.page]. by rewrite Hupd. }
  destruct ((e0 :: l') !! i) as [[e|]|]; [|apply Hinv..].
  destruct (Entry.data e) as [d|]; [|apply Hinv].
  unfold Page.buildStructure. rewrite clearStructure_eq.
  destruct (buildStructure d); cbn [Page.page]; rewrite ?Hupd; done.
Qed.

Lemma clicks_index n p l :
  Page.jsonData p = Some l -> l ≠ [] ->
  Page.jsonData (Nat.iter n Page.click p) = Some l ∧
  Page.currentJsonIndex (Nat.iter (S n) Page.click p)
    = (Page.currentJsonIndex p + S n) mod length l.
Proof.
  intros Hl Hne.
  assert (Hlen : length l ≠ 0) by by destruct l.
  induction n as [|n [IH1 IH2]].
  - simpl. split; [done|]. by apply click_index.
  - assert (Hn : Page.jsonData (Nat.iter (S n) Page.click p) = Some l).
    { simpl. by apply click_index. }
    split; [done|].
    change (Nat.iter (S (S n)) Page.click p)
      with (Page.click (Nat.iter (S n) Page.click p)).
    destruct (click_index _ _ Hn Hne) as [_ ->]. rewrite IH2.
    rewrite Nat.Div0.add_mod_idemp_l. f_equal. lia.
Qed.

(** X17.  Clicking through the structures: each click moves the index to
    the next structure and from the last one back to the first, whether
    the structure can be built or not; the index stays inside the array,
    and after as many clicks as there are structures it is where it was. *)
Theorem cycle_wraps_around p l :
  Page.jsonData p = Some l -> l ≠ [] ->
  (forall n,
     Page.jsonData (Nat.iter n Page.click p) = Some l ∧
     Page.currentJsonIndex (Nat.iter (S n) Page.click p)
       = (Page.currentJsonIndex p + S n) mod length l ∧
     Page.currentJsonIndex (Nat.iter (S n) Page.click p) < length l) ∧
  (Page.currentJsonIndex p < length l ->
   Page.currentJsonIndex (Nat.iter (length l) Page.click p) = Page.currentJsonIndex p).
Proof.
  intros Hl Hne.
  assert (Hlen : length l ≠ 0) by by destruct l.
  split.
  - intros n. destruct (clicks_index n p l Hl Hne) as [H1 H2].
    split; [done|]. split; [done|]. rewrite H2. by apply Nat.mod_upper_bound.
  - intros Hlt. destruct (length l) as [|n] eqn:E; [done|].
    destruct (clicks_index n p l Hl Hne) as [_ ->]. rewrite E.
    replace (Page.currentJsonIndex p + S n) with (Page.currentJsonIndex p + 1 * S n) by lia.
    rewrite Nat.Div0.mod_add. by apply Nat.mod_small.
Qed.

(** On [two_structures]: two clicks lead back to the second structure. *)
Lemma cycle_wraps_around_witness :
  Page.currentJsonIndex (Page.click two_structures) = 0 ∧
  Page.currentJsonIndex (Page.click (Page.click two_structures)) = 1.
Proof.
  pose (l := [ Some {| Entry.name := Some "No base"; Entry.data := Some no_base |};
               Some {| Entry.name := None; Entry.data := Some single_child |} ]).
  assert (Hl : Page.jsonData two_structures = Some l) by reflexivity.
  assert (Hne : l ≠ []) by discriminate.
  destruct (cycle_wraps_around two_structures l Hl Hne) as [Hn Hperiod].
  split.
  - destruct (Hn 0) as (_ & H & _). exact H.
  - apply Hperiod. simpl. lia.
Defined.

Lemma cycleStructure_valid p l e structureData :
  Page.jsonData p = Some l ->
  l !! ((Page.currentJsonIndex p + 1) mod length l) = Some (Some e) ->
  Entry.data e = Some structureData ->
  Page.cycleStructure p =
    match Page.buildStructure (Some structureData)
            (Page.set_index ((Page.currentJsonIndex p + 1) mod length l) p) with
    | Page.Returned p' => Page.Returned (Page.updateStructureInfo None p')
    | Page.Thrown p' => Page.Thrown p'
    end.
Proof.
  intros Hl He Hd. unfold Page.cycleStructure. rewrite Hl.
  destruct l as [|e0 l']; [done|]. cbn zeta.
  change (Page.currentJsonIndex (Page.set_index ?i p)) with i.
  by rewrite He, Hd.
Qed.

(** X18.  The message [buildStructure] reports for a structure without a
    base is never seen after a click: [cycleStructure] calls
    [updateStructureInfo] again after [buildStructure] has returned, which
    replaces the message by the caption of the structure, in white.  The
    scene is left empty. *)
Theorem cycle_overwrites_error p l e structureData msg c :
  Page.jsonData p = Some l ->
  l !! ((Page.currentJsonIndex p + 1) mod length l) = Some (Some e) ->
  Entry.data e = Some structureData ->
  buildStructure structureData = Error msg ->
  Page.infoSpan p = Some c ->
  ∃ p', Page.cycleStructure p = Page.Returned p' ∧
        Page.infoSpan p' =
          Some (Page.displaying l ((Page.currentJsonIndex p + 1) mod length l) e) ∧
        Page.structureGroup p' = [] ∧ Page.basePlateMesh p' = None.
Proof.
  intros Hl He Hd Hrun Hc.
  rewrite (cycleStructure_valid _ _ _ _ Hl He Hd).
  unfold Page.buildStructure. rewrite Hrun, clearStructure_eq.
  eexists. split; [reflexivity|].
  unfold Page.updateStructureInfo. simpl. rewrite Hc. simpl. rewrite Hl.
  destruct l as [|e0 l']; [done|]. rewrite He. done.
Qed.

(** On [two_structures]: the click shows the structure without base under
    its name, in white. *)
Lemma cycle_overwrites_error_witness :
  ∃ p', Page.cycleStructure two_structures = Page.Returned p' ∧
        Page.infoSpan p' =
          Some {| textContent := "Displaying: No base (1/2)"; style_color := "white" |}.
Proof.
  destruct (cycle_overwrites_error two_structures
              [ Some {| Entry.name := Some "No base"; Entry.data := Some no_base |};
                Some {| Entry.name := None; Entry.data := Some single_child |} ]
              {| Entry.name := Some "No base"; Entry.data := Some no_base |}
              no_base "Missing or incorrect Base Brick in structure" Page.loading)
    as (p' & Hp' & Hinfo & _); try reflexivity.
  exists p'. split; [exact Hp'|]. rewrite Hinfo. vm_compute. reflexivity.
Defined.

(** A click on a structure whose traversal completes. *)
Lemma cycleStructure_complete p l e structureData st :
  Page.jsonData p = Some l ->
  l !! ((Page.currentJsonIndex p + 1) mod length l) = Some (Some e) ->
  Entry.data e = Some structureData ->
  buildStructure structureData = Complete st ->
  ∃ p', Page.cycleStructure p = Page.Returned p' ∧
        Page.basePlateMesh p' = basePlateMesh st ∧
        Page.structureGroup p' = structureGroup st ∧
        Page.disposed p' =
          Page.disposed p ++ Page.structureGroup p ++ option_list (Page.basePlateMesh p) ∧
        Page.infoSpan p' =
          (Page.infoSpan p ≫= fun _ =>
             Some (Page.displaying l ((Page.currentJsonIndex p + 1) mod length l) e)).
Proof.
  intros Hl He Hd Hrun.
  rewrite (cycleStructure_valid _ _ _ _ Hl He Hd).
  unfold Page.buildStructure. rewrite Hrun, clearStructure_eq.
  eexists. split; [reflexivity|].
  unfold Page.updateStructureInfo. simpl.
  destruct (Page.infoSpan p) as [c|]; simpl; [|done].
  rewrite Hl. destruct l as [|e0 l']; [done|]. rewrite He. done.
Qed.

(** X19.  A click on a structure the resolver completes shows that
    structure and nothing else: the base plate and the group are those of
    the run, every mesh shown before has been disposed, and the caption
    names the structure and its position among the structures loaded. *)
Theorem cycle_shows_next p l e structureData st :
  Page.jsonData p = Some l ->
  l !! ((Page.currentJsonIndex p + 1) mod length l) = Some (Some e) ->
  Entry.data e = Some structureData ->
  buildStructure structureData = Complete st ->
  ∃ p', Page.cycleStructure p = Page.Returned p' ∧
        Page.basePlateMesh p' = basePlateMesh st ∧
        Page.structureGroup p' = structureGroup st ∧
        Page.disposed p' =
          Page.disposed p ++ Page.structureGroup p ++ option_list (Page.basePlateMesh p) ∧
        Page.infoSpan p' =
          (Page.infoSpan p ≫= fun _ =>
             Some (Page.displaying l ((Page.currentJsonIndex p + 1) mod length l) e)).
Proof. apply cycleStructure_complete. Qed.

(** On [two_structures] after a first click: the second click shows
    [single_child] again. *)
Lemma cycle_shows_next_witness :
  ∃ p', Page.cycleStructure (Page.click two_structures) = Page.Returned p' ∧
        Page.structureGroup p' = structureGroup (scene (buildStructure single_child)) ∧
        Page.infoSpan p' =
          Some {| textContent := "Displaying: Structure 2 (2/2)"; style_color := "white" |}.
Proof.
  assert (Hrun : buildStructure single_child = Complete (scene (buildStructure single_child))).
  { apply completed_run. vm_compute. reflexivity. }
  destruct (cycle_shows_next (Page.click two_structures)
              [ Some {| Entry.name := Some "No base"; Entry.data := Some no_base |};
                Some {| Entry.name := None; Entry.data := Some single_child |} ]
              {| Entry.name := None; Entry.data := Some single_child |}
              single_child _ eq_refl eq_refl eq_refl Hrun)
    as (p' & Hp' & _ & Hgroup & _ & Hinfo).
  exists p'. split; [exact Hp'|]. split; [exact Hgroup|].
  rewrite Hinfo. vm_compute. reflexivity.
Defined.

(** X20.  A click on an element of [jsonData] that is [null] or has no
    [data] array moves the index to it and reports it by its position,
    in red, but leaves the scene as it was: the structure shown before
    stays in view, and nothing is disposed. *)
Theorem cycle_invalid_entry p l :
  Page.jsonData p = Some l ->
  (l !! ((Page.currentJsonIndex p + 1) mod length l) = Some None ∨
   ∃ e, l !! ((Page.currentJsonIndex p + 1) mod length l) = Some (Some e) ∧
        Entry.data e = None) ->
  ∃ p', Page.cycleStructure p = Page.Returned p' ∧
        Page.currentJsonIndex p' = (Page.currentJsonIndex p + 1) mod length l ∧
        Page.basePlateMesh p' = Page.basePlateMesh p ∧
        Page.structureGroup p' = Page.structureGroup p ∧
        Page.disposed p' = Page.disposed p ∧
        Page.infoSpan p' =
          (Page.infoSpan p ≫= fun _ =>
             Some {| textContent :=
                       "Error: Error loading structure " +:+
                       pretty ((Page.currentJsonIndex p + 1) mod length l + 1);
                     style_color := "red" |}).
Proof.
  intros Hl He. unfold Page.cycleStructure. rewrite Hl.
  destruct l as [|e0 l']; [by destruct He as [?|(? & ? & ?)]|]. cbn zeta.
  change (Page.currentJsonIndex (Page.set_index ?i p)) with i.
  set (i := (Page.currentJsonIndex p + 1) mod length (e0 :: l')) in *.
  assert (Hgoal : ∃ p',
    Page.Returned (Page.updateStructureInfo
                     (Some ("Error loading structure " +:+ pretty (i + 1)))
                     (Page.set_index i p)) = Page.Returned p' ∧
    Page.currentJsonIndex p' = i ∧
    Page.basePlateMesh p' = Page.basePlateMesh p ∧
    Page.structureGroup p' = Page.structureGroup p ∧
    Page.disposed p' = Page.disposed p ∧
    Page.infoSpan p' =
      (Page.infoSpan p ≫= fun _ =>
         Some {| textContent := "Error: Error loading structure " +:+ pretty (i + 1);
                 style_color := "red" |})).
  { eexists. split; [reflexivity|].
    unfold Page.updateStructureInfo. simpl.
    destruct (Page.infoSpan p) eqn:E; simpl; rewrite ?E; done. }
  destruct He as [->|(e & -> & ->)]; exact Hgoal.
Qed.

(** On [structure_then_null]. *)
Lemma cycle_invalid_entry_witness :
  ∃ p', Page.cycleStructure structure_then_null = Page.Returned p' ∧
        Page.infoSpan p' =
          Some {| textContent := "Error: Error loading structure 2"; style_color := "red" |}.
Proof.
  destruct (cycle_invalid_entry structure_then_null
              [ Some {| Entry.name := None; Entry.data := Some single_child |}; None ]
              eq_refl (or_introl eq_refl))
    as (p' & Hp' & _ & _ & _ & _ & Hinfo).
  exists p'. split; [exact Hp'|]. rewrite Hinfo. vm_compute. reflexivity.
Defined.

(** X21.  When [buildStructure] throws during a click, [cycleStructure]
    is left at that point: the index has moved on and the scene holds what
    was built before the throw, but the caption is not updated and still
    describes the structure shown before. *)
Theorem cycle_throw_keeps_caption p l e structureData :
  Page.jsonData p = Some l ->
  l !! ((Page.currentJsonIndex p + 1) mod length l) = Some (Some e) ->
  Entry.data e = Some structureData ->
  threw (buildStructure structureData) = true ->
  ∃ p', Page.cycleStructure p = Page.Thrown p' ∧
        Page.currentJsonIndex p' = (Page.currentJsonIndex p + 1) mod length l ∧
        Page.infoSpan p' = Page.infoSpan p ∧
        Page.basePlateMesh p' = basePlateMesh (scene (buildStructure structureData)) ∧
        Page.structureGroup p' = structureGroup (scene (buildStructure structureData)).
Proof.
  intros Hl He Hd Hrun.
  rewrite (cycleStructure_valid _ _ _ _ Hl He Hd).
  unfold Page.buildStructure. rewrite clearStructure_eq.
  destruct (buildStructure structureData) as [msg| |st|st|st]; try done;
    (eexists; split; [reflexivity|]; done).
Qed.

(** On [throwing_page]: after the click the caption still reads First. *)
Lemma cycle_throw_keeps_caption_witness :
  ∃ p', Page.cycleStructure throwing_page = Page.Thrown p' ∧
        Page.currentJsonIndex p' = 1 ∧
        Page.infoSpan p' =
          Some {| textContent := "Displaying: First (1/2)"; style_color := "white" |}.
Proof.
  assert (Hrun : threw (buildStructure inherited_type) = true).
  { vm_compute. reflexivity. }
  destruct (cycle_throw_keeps_caption throwing_page
              [ Some {| Entry.name := Some "First"; Entry.data := Some no_base |};
                Some {| Entry.name := Some "Second"; Entry.data := Some inherited_type |} ]
              {| Entry.name := Some "Second"; Entry.data := Some inherited_type |}
              inherited_type eq_refl eq_refl eq_refl Hrun)
    as (p' & Hp' & Hi & Hinfo & _).
  exists p'. split; [exact Hp'|]. split; [exact Hi|exact Hinfo].
Defined.

(** X22.  Clicking once through all the structures leads back to the one
    shown at the start, built anew: after as many clicks as there are
    structures, the index is the same, the scene is that of a run of the
    resolver on that structure, and the caption, if the page has one,
    describes it.  What the other structures are (invalid, without base,
    throwing) makes no difference. *)
Theorem full_cycle_returns p l e structureData st :
  Page.jsonData p = Some l ->
  l !! Page.currentJsonIndex p = Some (Some e) ->
  Entry.data e = Some structureData ->
  buildStructure structureData = Complete st ->
  Page.currentJsonIndex (Nat.iter (length l) Page.click p) = Page.currentJsonIndex p ∧
  Page.basePlateMesh (Nat.iter (length l) Page.click p) = basePlateMesh st ∧
  Page.structureGroup (Nat.iter (length l) Page.click p) = structureGroup st ∧
  Page.infoSpan (Nat.iter (length l) Page.click p) =
    (Page.infoSpan p ≫= fun _ => Some (Page.displaying l (Page.currentJsonIndex p) e)).
Proof.
  intros Hl He Hd Hrun.
  assert (Hlt : Page.currentJsonIndex p < length l) by (apply lookup_lt_is_Some; eauto).
  assert (Hne : l ≠ []) by (intros ->; simpl in Hlt; lia).
  destruct (length l) as [|n] eqn:En; [lia|].
  set (q := Nat.iter n Page.click p).
  change (Nat.iter (S n) Page.click p) with (Page.click q).
  assert (Hq : Page.jsonData q = Some l ∧
               (Page.currentJsonIndex q + 1) mod length l = Page.currentJsonIndex p ∧
               (is_Some (Page.infoSpan q) ↔ is_Some (Page.infoSpan p))).
  { unfold q. clear q. split; [apply (clicks_index n p l Hl Hne)|]. split.
    - destruct n as [|n].
      + simpl. rewrite En. replace (Page.currentJsonIndex p) with 0 by lia. done.
      + destruct (clicks_index n p l Hl Hne) as [_ ->].
        rewrite Nat.Div0.add_mod_idemp_l, En.
        replace (Page.currentJsonIndex p + S n + 1)
          with (Page.currentJsonIndex p + 1 * S (S n)) by lia.
        rewrite Nat.Div0.mod_add. by apply Nat.mod_small.
    - clear Hlt En. induction n as [|n IH]; [done|]. simpl. rewrite <- IH.
      apply click_infoSpan. }
  destruct Hq as (Hql & Hqi & Hqs).
  rewrite <- Hqi in He.
  destruct (cycleStructure_complete q l e structureData st Hql He Hd Hrun)
    as (p' & Hp' & Hbase & Hgroup & _ & Hinfo).
  unfold Page.click. rewrite Hp'. cbn [Page.page]. rewrite Hqi in Hinfo.
  split; [|split; [done|split; [done|]]].
  - pose proof (click_index q l Hql Hne) as [_ Hi]. unfold Page.click in Hi.
    rewrite Hp' in Hi. cbn [Page.page] in Hi. by rewrite Hi, En in *.
  - rewrite Hinfo. destruct (Page.infoSpan q) as [c|] eqn:Eq;
      destruct (Page.infoSpan p) as [c'|] eqn:Ep; simpl; try done.
    + destruct (proj1 Hqs) as [? ?]; [eauto|done].
    + destruct (proj2 Hqs) as [? ?]; [eauto|done].
Qed.

(** On [two_structures], which shows its second structure. *)
Lemma full_cycle_returns_witness :
  Page.currentJsonIndex (Page.click (Page.click two_structures)) = 1 ∧
  Page.structureGroup (Page.click (Page.click two_structures))
    = structureGroup (scene (buildStructure single_child)).
Proof.
  assert (Hrun : buildStructure single_child = Complete (scene (buildStructure single_child))).
  { apply completed_run. vm_compute. reflexivity. }
  destruct (full_cycle_returns two_structures
              [ Some {| Entry.name := Some "No base"; Entry.data := Some no_base |};
                Some {| Entry.name := None; Entry.data := Some single_child |} ]
              {| Entry.name := None; Entry.data := Some single_child |}
              single_child _ eq_refl eq_refl eq_refl Hrun)
    as (Hi & _ & Hgroup & _).
  split; [exact Hi|exact Hgroup].
Defined.

(** ** Colours *)

Lemma COLOR_MAP_range k n : COLOR_MAP !! k = Some n -> (0 < n <= 0xffffff)%Z.
Proof.
  intros H. unfold COLOR_MAP in H. apply elem_of_list_to_map in H.
  - repeat (apply elem_of_cons in H as [E|H]; [injection E as _ ->; lia|]).
    by apply elem_of_nil in H.
  - simpl. apply (bool_decide_unpack _). vm_compute. exact I.
Qed.

(** X23.  Except for the names that, in lower case, read constructor or
    __proto__, the colour of a brick whose record names its colour is
    always a 24-bit RGB number other than black: the entry of [COLOR_MAP] for the name in lower case, or
    the default grey 0x888888 when there is none; and names that differ
    only in the case of their letters get the same colour. *)
Theorem color_is_rgb colorName :
  JS.toLowerCase colorName ≠ "constructor" -> JS.toLowerCase colorName ≠ "__proto__" ->
  ∃ n, getBrickColorHex (JS.Str colorName) = Some (JS.Own n) ∧
       (0 < n <= 0xffffff)%Z ∧
       n = default 0x888888%Z (COLOR_MAP !! JS.toLowerCase colorName) ∧
       forall other, JS.toLowerCase other = JS.toLowerCase colorName ->
                     getBrickColorHex (JS.Str other) = Some (JS.Own n).
Proof.
  intros H1 H2. eexists. split; [by apply color_lookup|]. split; [|split; [done|]].
  - destruct (COLOR_MAP !! JS.toLowerCase colorName) as [n|] eqn:E; simpl; [|lia].
    by eapply COLOR_MAP_range.
  - intros other Ho. rewrite <- Ho in *. by apply color_lookup.
Qed.

(** On the name Pink. *)
Lemma color_is_rgb_witness :
  getBrickColorHex (JS.Str "Pink") = Some (JS.Own 0xffc0cb%Z) ∧
  getBrickColorHex (JS.Str "PINK") = Some (JS.Own 0xffc0cb%Z).
Proof.
  destruct (color_is_rgb "Pink") as (n & Hn & _ & Hv & Hother); [done|done|].
  vm_compute in Hv. subst n. split; [exact Hn|]. apply Hother. reflexivity.
Defined.

(** ** Breadth-first order *)

Lemma visit_preserves_at (P : State -> Prop) ix cid :
  (forall cdef cmesh h st r,
     hole_step ix cid cdef cmesh h st r -> P st -> P (completion_state r)) ->
  forall st, P st -> P (completion_state (visit ix cid st)).
Proof.
  intros Hstep st HP. unfold visit.
  destruct (negb _ || negb _); [done|].
  destruct (getBrickDefinition (type_of (index_get ix cid))); [| |done];
    (destruct (holes_of (index_get ix cid)) as [hs|]; [|done]);
    apply (forEach_preserves P); try done;
    intros h s _ Hs; (eapply Hstep; [apply process_hole_step|done]).
Qed.

Lemma levels_snoc cs c :
  levels (cs ++ [c]) = <[to_brick c := S (default 0 (levels cs !! from_brick c))]> (levels cs).
Proof. unfold levels. by rewrite foldl_app. Qed.

Lemma levels_dom cs k :
  is_Some (levels cs !! k) -> k = "1" ∨ k ∈ map to_brick cs.
Proof.
  induction cs as [|c cs IH] using rev_ind.
  - unfold levels. simpl. intros [n [<- _]%lookup_singleton_Some]. by left.
  - rewrite levels_snoc, map_app. intros [<-|[_ Hk]]%lookup_insert_is_Some.
    + right. apply elem_of_app. right. by left.
    + destruct (IH Hk); [by left|right]. apply elem_of_app. by left.
Qed.

Lemma level_add_brick c st k :
  level (add_brick c st) k =
    if decide (to_brick c = k) then Some (S (default 0 (level st (from_brick c))))
    else level st k.
Proof.
  unfold level. simpl. rewrite levels_snoc.
  destruct (decide (to_brick c = k)) as [<-|Hne].
  - by rewrite lookup_insert_eq.
  - by rewrite lookup_insert_ne.
Qed.

Lemma processed_mono_mark k st k' :
  processed st k' = true -> processed (mark_processed k st) k' = true.
Proof.
  unfold processed. simpl.
  intros [Hk%bool_decide_eq_true| ->]%orb_true_iff; [|by rewrite orb_true_r].
  rewrite bool_decide_eq_true_2; [done|]. apply elem_of_union. by right.
Qed.

Lemma processed_mono_add c st k' :
  processed st k' = true -> processed (add_brick c st) k' = true.
Proof.
  unfold processed. simpl.
  intros [Hk%bool_decide_eq_true| ->]%orb_true_iff; [|by rewrite orb_true_r].
  rewrite bool_decide_eq_true_2; [done|]. apply elem_of_union. by right.
Qed.

Lemma Layered_hole_step ix cid a cdef cmesh h st r :
  hole_step ix cid cdef cmesh h st r ->
  Layered ix (Some cid) a st -> Layered ix (Some cid) a (completion_state r).
Proof.
  intros [| |b Hb Hp Hf|cur pm c Hcur Hm Hfrom Hvia Hp Hfol]; simpl; [done|done| |].
  - intros [H1 H2 H3 H4 H5 H6 H7 H8 H9]. split; try done.
    intros k Hk. by apply processed_mono_mark, H2.
  - intros [H1 H2 H3 H4 H5 H6 H7 H8 H9].
    assert (Hnew : level st (to_brick c) = None).
    { destruct (level st (to_brick c)) eqn:E; [|done].
      rewrite H2 in Hp; [done|eauto]. }
    assert (Hcid : level st (from_brick c) = Some a) by (rewrite Hfrom; by apply H4).
    assert (Hold : forall k n, level st k = Some n -> level (add_brick c st) k = Some n).
    { intros k n Hk. rewrite level_add_brick.
      destruct (decide (to_brick c = k)) as [<-|]; [congruence|done]. }
    assert (Hinv : forall k n, level (add_brick c st) k = Some n ->
                     (k = to_brick c ∧ n = S a) ∨ (k ≠ to_brick c ∧ level st k = Some n)).
    { intros k n. rewrite level_add_brick, Hcid. simpl.
      destruct (decide (to_brick c = k)) as [<-|]; [intros [= <-]; by left|].
      intros Hk. right. split; [congruence|done]. }
    split.
    + by apply Hold.
    + intros k [n Hk]. destruct (Hinv _ _ Hk) as [[-> _]|[_ Hk']].
      * apply processed_add_brick.
      * apply processed_mono_add, H2. eauto.
    + intros k Hk. cbn [add_brick threeMeshes] in Hk.
      apply lookup_insert_is_Some in Hk as [<-|[_ Hk]].
      * rewrite level_add_brick, decide_True by done. eauto.
      * destruct (H3 _ Hk) as [n Hn]. exists n. by apply Hold.
    + intros u [= <-]. by apply Hold, H4.
    + intros k n Hk. destruct (Hinv _ _ Hk) as [[_ ->]|[_ Hk']]; [lia|by eapply H5].
    + destruct H6 as (q1 & q2 & Hq & Hq1 & Hq2).
      exists q1, (q2 ++ [to_brick c]). cbn [add_brick queue]. split; [by rewrite Hq, app_assoc|].
      split; [intros k Hk; by apply Hold, Hq1|].
      intros k [Hk| ->%list_elem_of_singleton]%elem_of_app; [by apply Hold, Hq2|].
      rewrite level_add_brick, decide_True, Hcid by done. done.
    + intros k n Hk Hnq Hne. cbn [add_brick queue] in Hnq.
      apply not_elem_of_app in Hnq as [Hnq Hnc].
      destruct (Hinv _ _ Hk) as [[-> _]|[_ Hk']].
      { destruct Hnc. by left. }
      destruct (H7 _ _ Hk' Hnq Hne) as [Hle Hedges]. split; [done|].
      intros h0 k' He. destruct (Hedges _ _ He) as (n' & Hn' & Hle').
      exists n'. split; [by apply Hold|done].
    + intros pre c0 post E c' n n' Hc' Hn' Hn. cbn [add_brick connections] in E.
      destruct post as [|x post _] using rev_ind.
      * apply app_inj_tail in E as [<- <-].
        destruct (Hinv _ _ Hn) as [[_ ->]|[Hne _]]; [|done].
        destruct (Hinv _ _ Hn') as [[_ ->]|[_ Hk']]; [lia|by eapply H5].
      * rewrite app_comm_cons, app_assoc in E. apply app_inj_tail in E as [E _].
        destruct (Hinv _ _ Hn) as [[E0 _]|[_ Hk]].
        { assert (Hc0 : is_Some (level st (to_brick c0))).
          { destruct (H9 c0) as (n0 & _ & Hc0); [|eauto].
            rewrite E. apply elem_of_app. right. by left. }
          rewrite E0, Hnew in Hc0. by destruct Hc0. }
        destruct (Hinv _ _ Hn') as [[E0 _]|[_ Hk']].
        { assert (Hc0 : is_Some (level st (to_brick c'))).
          { destruct (H9 c') as (n0 & _ & Hc0); [|eauto].
            rewrite E. apply elem_of_app. by left. }
          rewrite E0, Hnew in Hc0. by destruct Hc0. }
        by eapply (H8 pre c0 post).
    + intros c0 [Hc0| ->%list_elem_of_singleton]%elem_of_app.
      * destruct (H9 _ Hc0) as (n & Hf & Ht). exists n. split; by apply Hold.
      * exists a. split; [by apply Hold|].
        rewrite level_add_brick, decide_True, Hcid by done. done.
Qed.

Lemma level_initial st k n :
  connections st = [] -> level st k = Some n -> k = "1" ∧ n = 0.
Proof.
  unfold level, levels. intros ->. simpl. by intros [<- <-]%lookup_singleton_Some.
Qed.

Lemma Layered_place_base structureData baseData hex :
  index_get (index structureData) "1" = Record_ baseData ->
  Layered (index structureData) None 0 (place_base brick_base baseData hex).
Proof.
  intros Hbase%base_key.
  assert (Hlv : forall k n, level (place_base brick_base baseData hex) k = Some n ->
                            k = "1" ∧ n = 0).
  { intros k n. by apply level_initial. }
  split.
  - done.
  - intros k [n [-> _]%Hlv]. unfold place_base, processed. simpl. rewrite Hbase.
    rewrite bool_decide_eq_true_2; [done|]. by apply elem_of_singleton.
  - unfold place_base. simpl. rewrite Hbase.
    intros k [m [<- _]%lookup_singleton_Some]. by exists 0.
  - done.
  - intros k n [_ ->]%Hlv. lia.
  - exists ["1"], []. unfold place_base. simpl. rewrite Hbase. split; [done|]. split.
    + by intros k ->%list_elem_of_singleton.
    + intros k Hk. by apply elem_of_nil in Hk.
  - unfold place_base at 2. simpl. rewrite Hbase.
    intros k n [-> _]%Hlv Hnq. destruct Hnq. by left.
  - simpl. intros pre c post E. by destruct pre.
  - simpl. intros c Hc. by apply elem_of_nil in Hc.
Qed.

(** The brick at the head of the queue has the level the invariant is
    stated for, or the next one when the current level is used up. *)
Lemma Layered_head ix a st u q :
  Layered ix None a st -> queue st = u :: q ->
  ∃ a', Layered ix None a' st ∧ level st u = Some a' ∧
        ∃ q1 q2, q = q1 ++ q2 ∧
          (forall k, k ∈ q1 -> level st k = Some a') ∧
          (forall k, k ∈ q2 -> level st k = Some (S a')).
Proof.
  intros HL Hq. destruct (lay_queue _ _ _ _ HL) as (q1 & q2 & E & Hq1 & Hq2).
  rewrite Hq in E. destruct q1 as [|u1 q1].
  - simpl in E. subst q2. exists (S a). split; [|split].
    + destruct HL as [H1 H2 H3 H4 H5 H6 H7 H8 H9]. split; try done.
      * intros k n Hk. specialize (H5 _ _ Hk). lia.
      * exists (u :: q), []. rewrite Hq, app_nil_r. split; [done|]. split; [done|].
        intros k Hk. by apply elem_of_nil in Hk.
      * intros k n Hk Hnq Hne. destruct (H7 _ _ Hk Hnq Hne) as [Hle Hed].
        split; [lia|done].
    + apply Hq2. by left.
    + exists q, []. rewrite app_nil_r. split; [done|]. split.
      * intros k Hk. apply Hq2. by right.
      * intros k Hk. by apply elem_of_nil in Hk.
  - injection E as <- ->. exists a. split; [done|]. split; [apply Hq1; by left|].
    exists q1, q2. split; [done|]. split; [|done].
    intros k Hk. apply Hq1. by right.
Qed.

Lemma Layered_shift ix a st u q :
  Layered ix None a st -> queue st = u :: q -> level st u = Some a ->
  (∃ q1 q2, q = q1 ++ q2 ∧
     (forall k, k ∈ q1 -> level st k = Some a) ∧
     (forall k, k ∈ q2 -> level st k = Some (S a))) ->
  Layered ix (Some u) a (shift st).
Proof.
  intros [H1 H2 H3 H4 H5 H6 H7 H8 H9] Hq Hu Hsplit. split; try done.
  - by intros u' [= <-].
  - simpl. by rewrite Hq.
  - intros k n Hk Hnq Hne. simpl in Hnq. rewrite Hq in Hnq. simpl in Hnq.
    apply (H7 k n Hk); [|done].
    rewrite Hq. intros [->|?]%elem_of_cons; [by destruct Hne|done].
Qed.

(** After the holes of [u] have been processed, [u] joins the bricks
    whose edges are accounted for. *)
Lemma Layered_close ix a st u :
  Layered ix (Some u) a st -> Consistent ix st -> closed ix st u ->
  Layered ix None a st.
Proof.
  intros [H1 H2 H3 H4 H5 H6 H7 H8 H9] HC Hcl. split; try done.
  intros k n Hk Hnq _. destruct (decide (k = u)) as [->|Hne].
  - rewrite (H4 u eq_refl) in Hk. injection Hk as <-. split; [done|].
    intros h k' He. pose proof He as (Hn & Hinh & t & T & defT & HT & HdefT & Ht).
    destruct (Hcl _ _ Hn) as [Hp|[_ [Hu|Hu]]].
    + unfold processed in Hp. rewrite Hinh, orb_false_r in Hp.
      apply bool_decide_eq_true in Hp.
      destruct (con_marked _ _ HC _ Hp) as [Hs|Hf]; [|by rewrite HT in Hf].
      destruct (H3 _ Hs) as [n' Hn']. exists n'. split; [done|by eapply H5].
    + rewrite HT in Hu. simpl in Hu. congruence.
    + congruence.
  - apply (H7 k n Hk Hnq). congruence.
Qed.

Lemma bfs_Layered ix fuel st st' a :
  Consistent ix st -> Layered ix None a st ->
  bfs fuel ix st = Complete st' ->
  ∃ a', Layered ix None a' st' ∧ queue st' = [].
Proof.
  revert st a. induction fuel as [|fuel IH]; intros st a HC HL; simpl.
  - destruct (queue st) as [|u q] eqn:Hq; [|done]. intros [= <-]. eauto.
  - destruct (queue st) as [|u q] eqn:Hq; [intros [= <-]; eauto|].
    destruct (visit ix u (shift st)) as [s2|s2] eqn:Hvisit; [|done].
    destruct (Layered_head _ _ _ _ _ HL Hq) as (a' & HL' & Hu & Hsplit).
    pose proof (Layered_shift _ _ _ _ _ HL' Hq Hu Hsplit) as HL1.
    assert (HC1 : Consistent ix (shift st)) by by apply Consistent_shift.
    assert (HC2 : Consistent ix s2).
    { change s2 with (completion_state (Normal s2)). rewrite <- Hvisit.
      apply visit_preserves; [|done]. intros. by eapply Consistent_hole_step. }
    assert (HL2 : Layered ix (Some u) a' s2).
    { change s2 with (completion_state (Normal s2)). rewrite <- Hvisit.
      apply visit_preserves_at; [|done]. intros. by eapply Layered_hole_step. }
    assert (Hm : is_Some (threeMeshes (shift st) !! u)).
    { simpl. apply (con_queue _ _ HC). rewrite Hq. by left. }
    destruct Hm as [m Hm].
    pose proof (visit_closes _ _ _ _ _ HC1 Hm Hvisit) as Hcl.
    apply (IH s2 a'); [done|]. by eapply Layered_close.
Qed.

Lemma build_Layered structureData st :
  buildStructure structureData = Complete st ->
  ∃ a, Layered (index structureData) None a st ∧ queue st = [].
Proof.
  intros Hrun. unfold buildStructure in Hrun.
  destruct (build_run (length structureData) structureData)
    as [[E _]|[(baseData & Hget & Hty & Hhex & E)
              |(baseData & hex & Hget & Hty & Hhex & E)]];
    [congruence|congruence|].
  rewrite E in Hrun. eapply bfs_Layered; [| |done].
  - by apply Consistent_place_base.
  - by apply Layered_place_base.
Qed.

Lemma level_le_path structureData st :
  buildStructure structureData = Complete st ->
  forall m k, path (index structureData) m k -> ∃ n, level st k = Some n ∧ n ≤ m.
Proof.
  intros Hrun. destruct (build_Layered _ _ Hrun) as (a & HL & Hq).
  induction 1 as [|m k h k' Hpath (n & Hn & Hle) He].
  - exists 0. split; [apply (lay_base _ _ _ _ HL)|done].
  - destruct (lay_done _ _ _ _ HL k n Hn) as [_ Hed]; [rewrite Hq; apply not_elem_of_nil|done|].
    destruct (Hed _ _ He) as (n' & Hn' & Hle'). exists n'. split; [done|lia].
Qed.

Lemma level_path structureData st :
  buildStructure structureData = Complete st ->
  forall n k, level st k = Some n -> path (index structureData) n k.
Proof.
  intros Hrun. destruct (build_Layered _ _ Hrun) as (a & HL & Hq).
  induction n as [n IH] using lt_wf_ind. intros k Hk.
  destruct (levels_dom (connections st) k) as [->|Hin]; [by exists n| |].
  - rewrite (lay_base _ _ _ _ HL) in Hk. injection Hk as <-. constructor.
  - apply list_elem_of_fmap in Hin as (c & -> & Hc).
    destruct (lay_conn _ _ _ _ HL c Hc) as (n0 & Hf & Ht).
    rewrite Hk in Ht. injection Ht as ->.
    apply (path_edge _ n0 (from_brick c) (via c)); [apply IH; [lia|done]|].
    assert (Hc' : c ∈ connections (scene (buildStructure structureData))) by by rewrite Hrun.
    apply connection_is_edge in Hc'. done.
Qed.

(** X24.  The traversal is breadth-first.  Give the base level 0 and a
    brick placed from a brick of level n the level n + 1.  When a run
    completes, the level of every brick placed is the length of a shortest
    chain of edges from the base to it in the connection graph of the
    input: a brick that can be reached along several chains is placed
    along a shortest one.  And the bricks are placed level by level: a
    connection followed earlier never places a brick of a higher level. *)
Theorem breadth_first structureData st :
  buildStructure structureData = Complete st ->
  level st "1" = Some 0 ∧
  (forall c, c ∈ connections st ->
     ∃ n, level st (from_brick c) = Some n ∧ level st (to_brick c) = Some (S n)) ∧
  (forall k m, (k, m) ∈ emitted st ->
     ∃ n, level st k = Some n ∧ path (index structureData) n k ∧
          forall n', path (index structureData) n' k -> n ≤ n') ∧
  (forall pre c post c' n n',
     connections st = pre ++ c :: post -> c' ∈ pre ->
     level st (to_brick c') = Some n' -> level st (to_brick c) = Some n -> n' ≤ n).
Proof.
  intros Hrun. destruct (build_Layered _ _ Hrun) as (a & HL & Hq).
  split; [apply (lay_base _ _ _ _ HL)|]. split; [apply (lay_conn _ _ _ _ HL)|]. split.
  - intros k m Hin.
    assert (Hok : is_error (buildStructure structureData) = false) by by rewrite Hrun.
    pose proof (build_Inv _ _ Hok) as HI. fold (buildStructure structureData) in HI.
    rewrite Hrun in HI. simpl in HI.
    destruct (lay_stored _ _ _ _ HL k) as [n Hn].
    { exists m. by apply (inv_emitted _ _ HI). }
    exists n. split; [done|]. split; [by eapply level_path|].
    intros n' Hp. destruct (level_le_path _ _ Hrun _ _ Hp) as (n0 & Hn0 & Hle). congruence.
  - intros pre c post c' n n' E Hc'. by eapply (lay_sorted _ _ _ _ HL).
Qed.

(** On [two_ways]: brick 3 is placed from the base, at level 1, although
    brick 2 names it too. *)
Lemma breadth_first_witness :
  buildStructure two_ways = Complete (scene (buildStructure two_ways)) ∧
  level (scene (buildStructure two_ways)) "3" = Some 1 ∧
  forall n', path (index two_ways) n' "3" -> 1 ≤ n'.
Proof.
  assert (Hrun : buildStructure two_ways = Complete (scene (buildStructure two_ways))).
  { apply completed_run. vm_compute. reflexivity. }
  assert (Hlevel : level (scene (buildStructure two_ways)) "3" = Some 1).
  { vm_compute. reflexivity. }
  assert (Hin : ∃ m, ("3", m) ∈ emitted (scene (buildStructure two_ways))).
  { eexists. vm_compute. right. right. left. }
  split; [exact Hrun|]. split; [exact Hlevel|].
  destruct Hin as [m Hm].
  destruct (breadth_first two_ways _ Hrun) as (_ & _ & H & _).
  destruct (H "3" m Hm) as (n & Hn & _ & Hmin).
  rewrite Hlevel in Hn. injection Hn as <-. exact Hmin.
Defined.

(** ** Orientations add up *)









(** ** The first hole wins *)

(** A property [P] of the holes processed so far and the state, kept by
    each hole, gives [Q] when the [forEach] ends, be it by a throw. *)
Lemma forEach_prefix {A : Type} (P : list A -> State -> Prop) (Q : State -> Prop)
    (f : A -> State -> Completion) (l : list A) :
  (forall pre a post st, l = pre ++ a :: post -> P pre st ->
     match f a st with
     | Normal st' => P (pre ++ [a]) st'
     | Throw st' => Q st'
     end) ->
  (forall st, P l st -> Q st) ->
  forall st, P [] st -> Q (completion_state (forEach f l st)).
Proof.
  intros Hf HQ.
  assert (Hgen : forall post pre st, l = pre ++ post -> P pre st ->
                   Q (completion_state (forEach f post st))).
  { induction post as [|a post IH]; intros pre st E HP; simpl.
    - apply HQ. by rewrite E, app_nil_r.
    - pose proof (Hf pre a post st E HP) as Ha.
      destruct (f a st) as [st'|st']; simpl; [|done].
      apply (IH (pre ++ [a])); [by rewrite <- app_assoc|done]. }
  intros st. by apply (Hgen l []).
Qed.

Lemma first_hole_visit ix cid st :
  Consistent ix st -> is_Some (threeMeshes st !! cid) ->
  (forall c, c ∈ connections st -> first_hole ix c) ->
  forall c, c ∈ connections (completion_state (visit ix cid st)) -> first_hole ix c.
Proof.
  intros HC [m Hm] Hst.
  destruct (visit_stored _ _ _ _ HC Hm) as (pd & d & Hget & Hdef & ->).
  destruct (Brick.holes pd) as [hs|] eqn:Hhs; [|done].
  apply (forEach_prefix
    (fun pre s =>
       (forall c, c ∈ connections s -> first_hole ix c) ∧
       (forall h k', h ∈ pre -> edge ix cid h k' -> processed s k' = true))
    (fun s => forall c, c ∈ connections s -> first_hole ix c)).
  - intros pre h post s E [Hconn Hpre].
    pose proof (process_hole_step ix cid (JS.Own d) (JS.Own m) h s) as Hstep.
    pose proof (process_hole_closes ix cid d m h s) as Hcl.
    pose proof (hole_step_extends _ _ _ _ _ _ _ Hstep) as [Hmono _].
    assert (Hedge : forall s' k', process_hole ix cid (JS.Own d) (JS.Own m) h s = Normal s' ->
                      edge ix cid h k' -> processed s' k' = true).
    { intros s' k' Hrun He.
      destruct He as ((P0 & hs0 & b & s0 & defP & HP0 & HdefP & _ & _ & Hb & Hk & Hne
                       & Hs0 & Htop) & Hinh & t & T & defT & HT & HdefT & Ht).
      rewrite Hget in HP0. injection HP0 as <-. rewrite Hdef in HdefP.
      injection HdefP as <-. subst k'.
      destruct (Hcl s' b s0) as [Hp|[_ [Hu|Hu]]]; try done; [by eexists| |congruence].
      rewrite HT in Hu. simpl in Hu. congruence. }
    destruct Hstep as [| |b Hb Hp Hf|cur pm c Hcur Hpm Hfrom Hvia Hp Hfol]; simpl in *.
    + split; [done|].
      intros h0 k' [Hh0| ->%list_elem_of_singleton]%elem_of_app He; [by eapply Hpre|].
      by eapply Hedge.
    + done.
    + split; [done|].
      intros h0 k' [Hh0| ->%list_elem_of_singleton]%elem_of_app He;
        [by eapply Hmono, Hpre|].
      by eapply Hedge.
    + split.
      * intros c' [Hc'| ->%list_elem_of_singleton]%elem_of_app; [by apply Hconn|].
        exists pd, pre, post. rewrite Hfrom, Hvia. split; [done|].
        split; [by rewrite Hhs, E|].
        intros h' Hh' He. rewrite (Hpre _ _ Hh' He) in Hp. done.
      * intros h0 k' [Hh0| ->%list_elem_of_singleton]%elem_of_app He;
          [by eapply Hmono, Hpre|].
        by eapply Hedge.
  - by intros s [? _].
  - split; [done|]. intros h k' Hh. by apply elem_of_nil in Hh.
Qed.

Lemma first_hole_bfs ix fuel st :
  Consistent ix st ->
  (forall c, c ∈ connections st -> first_hole ix c) ->
  forall c, c ∈ connections (scene (bfs fuel ix st)) -> first_hole ix c.
Proof.
  revert st. induction fuel as [|fuel IH]; intros st HC Hst; simpl.
  - by destruct (queue st).
  - destruct (queue st) as [|u q] eqn:Hq; [done|].
    assert (HC1 : Consistent ix (shift st)) by by apply Consistent_shift.
    assert (Hu : is_Some (threeMeshes (shift st) !! u)).
    { simpl. apply (con_queue _ _ HC). rewrite Hq. by left. }
    pose proof (first_hole_visit ix u (shift st) HC1 Hu Hst) as Hv.
    assert (HC2 : Consistent ix (completion_state (visit ix u (shift st)))).
    { apply visit_preserves; [|done]. intros. by eapply Consistent_hole_step. }
    destruct (visit ix u (shift st)) as [s2|s2]; simpl in *; [by apply IH|done].
Qed.

Lemma second_connection (l : list Connection) (d : Connection) :
  2 ≤ length l ->
  match l with
  | _ :: c :: _ => c
  | _ => d
  end ∈ l.
Proof.
  destruct l as [|c1 [|c2 l]]; simpl; [lia|lia|]. intros _. right. left.
Qed.

(** X26.  When several holes of a brick are edges to the same brick, the
    first of them in the [holes] array decides the placement: the hole a
    connection was followed through comes, in the array of its record,
    before every other hole that is an edge to the brick placed. *)
Theorem first_hole_wins structureData c :
  c ∈ connections (scene (buildStructure structureData)) ->
  ∃ P hs1 hs2,
    index_get (index structureData) (from_brick c) = Record_ P ∧
    Brick.holes P = Some (hs1 ++ via c :: hs2) ∧
    forall h', h' ∈ hs1 ->
      ¬ edge (index structureData) (from_brick c) h' (to_brick c).
Proof.
  intros Hc. pose proof (connections_not_error _ _ Hc) as Hok.
  revert c Hc. unfold buildStructure in *.
  destruct (build_run (length structureData) structureData)
    as [[E _]|[(baseData & Hget & Hty & Hhex & E)
              |(baseData & hex & Hget & Hty & Hhex & E)]];
    [by rewrite E in Hok|by rewrite E in Hok|].
  rewrite E. apply first_hole_bfs.
  - by apply Consistent_place_base.
  - intros c Hc. by apply elem_of_nil in Hc.
Qed.

(** On [cyclic]: brick 3 was placed through the first hole of brick 2,
    not through the second one, which names it too. *)
Lemma first_hole_wins_witness :
  cyclic_connection ∈ connections (scene (buildStructure cyclic)) ∧
  to_brick cyclic_connection = "3" ∧
  ∃ P hs1 hs2, index_get (index cyclic) (from_brick cyclic_connection) = Record_ P ∧
               Brick.holes P = Some (hs1 ++ via cyclic_connection :: hs2).
Proof.
  assert (Hc : cyclic_connection ∈ connections (scene (buildStructure cyclic))).
  { apply second_connection. vm_compute. lia. }
  split; [exact Hc|]. split; [vm_compute; reflexivity|].
  destruct (first_hole_wins cyclic cyclic_connection Hc) as (P & hs1 & hs2 & HP & Hhs & _).
  exists P, hs1, hs2. split; [exact HP|exact Hhs].
Defined.

(** ** Right angles keep the bricks on the grid *)









(** ** Records that no hole names *)









(** ** The first visit wins *)

Lemma placed_add_brick c st : placed (add_brick c st) = placed st ++ [to_brick c].
Proof. unfold placed. by rewrite emitted_add_brick, map_app. Qed.

Lemma snoc_split {A : Type} (l pre post : list A) (t a : A) :
  l ++ [t] = pre ++ a :: post -> a ≠ t ->
  ∃ post', post = post' ++ [t] ∧ l = pre ++ a :: post'.
Proof.
  intros E Hne. destruct post as [|x post _] using rev_ind.
  - apply app_inj_tail in E as [_ E]. by destruct Hne.
  - rewrite app_comm_cons, app_assoc in E. apply app_inj_tail in E as [-> ->]. eauto.
Qed.

Lemma NoDup_split_unique {A : Type} (a : A) (p1 s1 p2 s2 : list A) :
  NoDup (p1 ++ a :: s1) -> p1 ++ a :: s1 = p2 ++ a :: s2 -> p1 = p2.
Proof.
  revert p2. induction p1 as [|x p1 IH]; intros p2 Hnd E.
  - destruct p2 as [|y p2]; [done|]. simpl in E. injection E as <- E.
    apply NoDup_cons in Hnd as [Hnd _]. destruct Hnd. rewrite E.
    apply elem_of_app. right. by left.
  - destruct p2 as [|y p2]; simpl in E; injection E as -> E.
    + simpl in Hnd. apply NoDup_cons in Hnd as [Hnd _]. destruct Hnd.
      apply elem_of_app. right. by left.
    + f_equal. apply IH; [|done]. simpl in Hnd. by apply NoDup_cons in Hnd as [_ ?].
Qed.

Lemma closed_edge ix st u h k' :
  closed ix st u -> edge ix u h k' -> processed st k' = true.
Proof.
  intros Hcl (Hn & Hinh & t & T & defT & HT & HdefT & Ht).
  destruct (Hcl _ _ Hn) as [Hp|[_ [Hu|Hu]]]; [done| |congruence].
  rewrite HT in Hu. simpl in Hu. congruence.
Qed.

Lemma Fifo_hole_step ix u cdef cmesh h st r :
  hole_step ix u cdef cmesh h st r ->
  Fifo ix (Some u) st -> Fifo ix (Some u) (completion_state r).
Proof.
  intros [| |b Hb Hp Hf|cur pm c Hcur Hm Hfrom Hvia Hp Hfol]; simpl; [done|done| |].
  - intros [(left & Hq & Hleft) H2 H3 H4 H5]. split; try done.
    + exists left. split; [done|]. intros k h0 k' Hk He.
      by eapply processed_mono_mark, Hleft.
    + intros k Hk. by apply processed_mono_mark, H3.
  - intros [(left & Hq & Hleft) H2 H3 H4 H5].
    assert (Hfresh : to_brick c ∉ placed st).
    { intros Hin. apply H3 in Hin. congruence. }
    assert (Hu : u ∈ placed st).
    { rewrite Hq. apply elem_of_app. right. by left. }
    split.
    + exists left. rewrite placed_add_brick. cbn [add_brick queue]. split.
      * by rewrite Hq, <- !app_assoc.
      * intros k h0 k' Hk He. by eapply processed_mono_add, Hleft.
    + rewrite placed_add_brick. apply NoDup_app. split; [done|].
      split; [|apply NoDup_singleton].
      intros k Hk ->%list_elem_of_singleton. done.
    + rewrite placed_add_brick.
      intros k [Hk| ->%list_elem_of_singleton]%elem_of_app.
      * by apply processed_mono_add, H3.
      * apply processed_add_brick.
    + rewrite placed_add_brick. cbn [add_brick connections].
      intros c0 [Hc0| ->%list_elem_of_singleton]%elem_of_app;
        apply elem_of_app; left; [by apply H4|by rewrite Hfrom].
    + cbn [add_brick connections].
      intros c0 [Hc0| ->%list_elem_of_singleton]%elem_of_app pre post;
        rewrite placed_add_brick; intros E k h0 Hk He.
      * apply snoc_split in E as (post' & -> & E).
        -- by apply (H5 c0 Hc0 pre post' E k h0).
        -- intros E0. apply Hfresh. rewrite <- E0. by apply H4.
      * rewrite Hfrom in E.
        assert (Epre : pre = left).
        { apply (NoDup_split_unique u pre post left (queue st ++ [to_brick c])).
          - rewrite <- E. apply NoDup_app. split; [done|].
            split; [|apply NoDup_singleton].
            intros k0 Hk0 ->%list_elem_of_singleton. done.
          - rewrite <- E, Hq. simpl. by rewrite <- !app_assoc. }
        subst pre. rewrite (Hleft _ _ _ Hk He) in Hp. done.
Qed.

Lemma Fifo_shift ix st u q :
  Fifo ix None st -> queue st = u :: q -> Fifo ix (Some u) (shift st).
Proof.
  intros [(left & Hq & Hleft) H2 H3 H4 H5] Hqueue. split; try done.
  exists left. split; [|done].
  change (placed (shift st)) with (placed st). cbn [shift queue].
  rewrite Hq, Hqueue. done.
Qed.

Lemma Fifo_close ix st u :
  Fifo ix (Some u) st -> closed ix st u -> Fifo ix None st.
Proof.
  intros [(left & Hq & Hleft) H2 H3 H4 H5] Hcl. split; try done.
  exists (left ++ [u]). split; [by rewrite Hq, <- app_assoc|].
  intros k h k' [Hk| ->%list_elem_of_singleton]%elem_of_app He.
  - by eapply Hleft.
  - by eapply closed_edge.
Qed.

Lemma Fifo_place_base structureData baseData hex :
  index_get (index structureData) "1" = Record_ baseData ->
  Fifo (index structureData) None (place_base brick_base baseData hex).
Proof.
  intros Hbase%base_key.
  assert (Hplaced : placed (place_base brick_base baseData hex) = ["1"]) by done.
  split.
  - exists []. rewrite Hplaced. unfold place_base. simpl. rewrite Hbase. split; [done|].
    intros k h k' Hk. by apply elem_of_nil in Hk.
  - rewrite Hplaced. apply NoDup_singleton.
  - rewrite Hplaced. intros k ->%list_elem_of_singleton.
    unfold place_base, processed. simpl. rewrite Hbase.
    rewrite bool_decide_eq_true_2; [done|]. by apply elem_of_singleton.
  - simpl. intros c Hc. by apply elem_of_nil in Hc.
  - simpl. intros c Hc. by apply elem_of_nil in Hc.
Qed.

Lemma bfs_Fifo ix fuel st :
  Consistent ix st -> Fifo ix None st ->
  forall c, c ∈ connections (scene (bfs fuel ix st)) ->
            first_visited ix (scene (bfs fuel ix st)) c.
Proof.
  revert st. induction fuel as [|fuel IH]; intros st HC HF; simpl.
  - destruct (queue st); apply (fifo_first _ _ _ HF).
  - destruct (queue st) as [|u q] eqn:Hq; [apply (fifo_first _ _ _ HF)|].
    assert (HC1 : Consistent ix (shift st)) by by apply Consistent_shift.
    pose proof (Fifo_shift _ _ _ _ HF Hq) as HF1.
    assert (HF2 : Fifo ix (Some u) (completion_state (visit ix u (shift st)))).
    { apply visit_preserves_at; [|done]. intros. by eapply Fifo_hole_step. }
    assert (HC2 : Consistent ix (completion_state (visit ix u (shift st)))).
    { apply visit_preserves; [|done]. intros. by eapply Consistent_hole_step. }
    assert (Hm : is_Some (threeMeshes (shift st) !! u)).
    { simpl. apply (con_queue _ _ HC). rewrite Hq. by left. }
    destruct Hm as [m Hm].
    pose proof (visit_closes ix u (shift st)) as Hcl.
    destruct (visit ix u (shift st)) as [s2|s2]; simpl in *.
    + apply IH; [done|]. apply (Fifo_close _ _ u); [done|]. by eapply Hcl.
    + apply (fifo_first _ _ _ HF2).
Qed.

(** Every connection of a run was the first attempt at its brick. *)
Lemma build_first_visited structureData c :
  c ∈ connections (scene (buildStructure structureData)) ->
  first_visited (index structureData) (scene (buildStructure structureData)) c.
Proof.
  intros Hc. pose proof (connections_not_error _ _ Hc) as Hok.
  revert c Hc. unfold buildStructure in *.
  destruct (build_run (length structureData) structureData)
    as [[E _]|[(baseData & Hget & Hty & Hhex & E)
              |(baseData & hex & Hget & Hty & Hhex & E)]];
    [by rewrite E in Hok|by rewrite E in Hok|].
  rewrite E. apply bfs_Fifo.
  - by apply Consistent_place_base.
  - by apply Fifo_place_base.
Qed.

(** ** C7: termination, one placement per id, the first visit wins *)

(** C7.  For every input, cyclic or not: (1) the loop terminates, within
    one iteration per record, and a larger bound on the iterations gives
    the same result; (2) no id is emitted twice; (3) the mesh stored for an
    emitted id is the one emitted for it, and every emitted id is marked
    as processed; (4) a hole that names a processed id leaves the state as
    it is: a later attempt at a brick is a no-op; (5) a brick is placed
    only from a brick placed before it: the base, or the target of an
    earlier connection; (6) the placement that wins is the one of the
    first visit: the connection that placed a brick leaves the first
    brick, in the order of placement (which is the order of the visits),
    that has an edge to it, no brick placed earlier has one; (7) and it
    goes through the first hole of that brick, in the order of its [holes]
    array, that is an edge to the brick placed; (8) when the run
    completes, the order is breadth-first: with level 0 for the base and
    level n + 1 for a brick placed from a brick of level n, the level of
    every brick is the length of a shortest chain of edges from the base
    to it, and the bricks are placed in the order of their levels. *)
Theorem terminates_once_per_id structureData :
  exhausted (buildStructure structureData) = false ∧
  (forall fuel, length structureData ≤ fuel ->
                build fuel structureData = buildStructure structureData) ∧
  NoDup (map fst (emitted (scene (buildStructure structureData)))) ∧
  (forall k m, (k, m) ∈ emitted (scene (buildStructure structureData)) ->
     threeMeshes (scene (buildStructure structureData)) !! k = Some m ∧
     processed (scene (buildStructure structureData)) k = true) ∧
  (forall cid cdef cmesh h st b,
     Hole.brick h = Some b -> processed st (JS.ToString b) = true ->
     process_hole (index structureData) cid cdef cmesh h st = Normal st) ∧
  (forall pre c post,
     connections (scene (buildStructure structureData)) = pre ++ c :: post ->
     from_brick c = "1" ∨ from_brick c ∈ map to_brick pre) ∧
  (forall c pre post k h,
     c ∈ connections (scene (buildStructure structureData)) ->
     map fst (emitted (scene (buildStructure structureData)))
       = pre ++ from_brick c :: post ->
     k ∈ pre -> ¬ edge (index structureData) k h (to_brick c)) ∧
  (forall c, c ∈ connections (scene (buildStructure structureData)) ->
     ∃ P hs1 hs2,
       index_get (index structureData) (from_brick c) = Record_ P ∧
       Brick.holes P = Some (hs1 ++ via c :: hs2) ∧
       forall h', h' ∈ hs1 ->
         ¬ edge (index structureData) (from_brick c) h' (to_brick c)) ∧
  (forall st, buildStructure structureData = Complete st ->
     level st "1" = Some 0 ∧
     (forall c, c ∈ connections st ->
        ∃ n, level st (from_brick c) = Some n ∧ level st (to_brick c) = Some (S n)) ∧
     (forall k m, (k, m) ∈ emitted st ->
        ∃ n, level st k = Some n ∧ path (index structureData) n k ∧
             forall n', path (index structureData) n' k -> n ≤ n') ∧
     (forall pre c post c' n n',
        connections st = pre ++ c :: post -> c' ∈ pre ->
        level st (to_brick c') = Some n' -> level st (to_brick c) = Some n -> n' ≤ n)).
Proof.
  split; [apply buildStructure_terminates|].
  split; [intros; by apply build_fuel|].
  assert (Hfirst : forall c pre post k h,
    c ∈ connections (scene (buildStructure structureData)) ->
    map fst (emitted (scene (buildStructure structureData)))
      = pre ++ from_brick c :: post ->
    k ∈ pre -> ¬ edge (index structureData) k h (to_brick c)).
  { intros c pre post k h Hc E. by apply (build_first_visited _ c Hc pre post E). }
  assert (Hhole : forall c, c ∈ connections (scene (buildStructure structureData)) ->
    first_hole (index structureData) c).
  { intros c Hc. pose proof (connections_not_error _ _ Hc) as Hok.
    revert c Hc. unfold buildStructure in *.
    destruct (build_run (length structureData) structureData)
      as [[E _]|[(baseData & Hget & Hty & Hhex & E)
                |(baseData & hex & Hget & Hty & Hhex & E)]];
      [by rewrite E in Hok|by rewrite E in Hok|].
    rewrite E. apply first_hole_bfs.
    - by apply Consistent_place_base.
    - intros c Hc. by apply elem_of_nil in Hc. }
  assert (Hlevels : forall st, buildStructure structureData = Complete st ->
    level st "1" = Some 0 ∧
    (forall c, c ∈ connections st ->
       ∃ n, level st (from_brick c) = Some n ∧ level st (to_brick c) = Some (S n)) ∧
    (forall k m, (k, m) ∈ emitted st ->
       ∃ n, level st k = Some n ∧ path (index structureData) n k ∧
            forall n', path (index structureData) n' k -> n ≤ n') ∧
    (forall pre c post c' n n',
       connections st = pre ++ c :: post -> c' ∈ pre ->
       level st (to_brick c') = Some n' -> level st (to_brick c) = Some n -> n' ≤ n)).
  { intros st Hrun. destruct (build_Layered _ _ Hrun) as (a & HL & Hq).
    split; [apply (lay_base _ _ _ _ HL)|]. split; [apply (lay_conn _ _ _ _ HL)|]. split.
    - intros k m Hin.
      assert (Hok : is_error (buildStructure structureData) = false) by by rewrite Hrun.
      pose proof (build_Inv _ _ Hok) as HI. fold (buildStructure structureData) in HI.
      rewrite Hrun in HI. simpl in HI.
      destruct (lay_stored _ _ _ _ HL k) as [n Hn].
      { exists m. by apply (inv_emitted _ _ HI). }
      exists n. split; [done|]. split; [by eapply level_path|].
      intros n' Hp. destruct (level_le_path _ _ Hrun _ _ Hp) as (n0 & Hn0 & Hle).
      congruence.
    - intros pre c post c' n n' E Hc'. by eapply (lay_sorted _ _ _ _ HL). }
  destruct (is_error (buildStructure structureData)) eqn:E.
  - split.
    { destruct (buildStructure structureData); try done; apply NoDup_nil_2. }
    split.
    { intros k m Hin.
      destruct (buildStructure structureData); try done; by apply elem_of_nil in Hin. }
    split; [intros; by eapply process_hole_visited|]. split; [|done].
    intros pre c post Hc.
    destruct (buildStructure structureData); try done; by destruct pre.
  - apply build_Inv in E. fold (buildStructure structureData) in E.
    split; [apply E|]. split.
    { intros k m Hin. split; [by apply E|by eapply emitted_keys_processed]. }
    split; [intros; by eapply process_hole_visited|]. split; [apply E|done].
Qed.

(** On [cyclic]: bricks 1, 2, 3 are emitted once each, brick 3 through
    socket 0 of brick 2, the first of the two holes that name it; the
    hole of brick 3 that names brick 2 again places nothing; brick 3 has
    level 2. *)
Lemma terminates_once_per_id_witness :
  map fst (emitted (scene (buildStructure cyclic))) = ["1"; "2"; "3"] ∧
  map (fun c => (from_brick c, Hole.id (via c), to_brick c))
      (connections (scene (buildStructure cyclic)))
    = [("1", Some 0%Z, "2"); ("2", Some 0%Z, "3")] ∧
  exhausted (buildStructure cyclic) = false ∧
  NoDup (map fst (emitted (scene (buildStructure cyclic)))) ∧
  build 7 cyclic = buildStructure cyclic ∧
  (forall h, ¬ edge (index cyclic) "1" h "3") ∧
  level (scene (buildStructure cyclic)) "3" = Some 2.
Proof.
  destruct (terminates_once_per_id cyclic)
    as (Hterm & Hfuel & Hnodup & _ & _ & _ & Hfirst & _ & Hlevels).
  assert (Hplaced : map fst (emitted (scene (buildStructure cyclic))) = ["1"; "2"; "3"]).
  { vm_compute. reflexivity. }
  split; [exact Hplaced|]. split; [vm_compute; reflexivity|].
  split; [exact Hterm|]. split; [exact Hnodup|].
  split; [apply Hfuel; vm_compute; lia|]. split.
  - intros h. apply (Hfirst cyclic_connection ["1"] ["3"]).
    + apply second_connection. vm_compute. lia.
    + rewrite Hplaced. vm_compute. reflexivity.
    + by left.
  - vm_compute. reflexivity.
Defined.
